(** * libco: a cooperative coroutine runtime (M2-libco/co.c)

    Shallow embedding of the scheduler of [co.c] and proofs of the
    properties its specification states.

    Modelling choices.
    - A [struct co] lives in a heap [gmap nat co]; [malloc] never fails
      and hands out addresses that were never used before, so a pointer
      to a freed record is recognisably dangling and every access
      through it is undefined behaviour ([Undef]).
    - The circular doubly linked list of [CoNode]s is the list of the
      [coroutine] fields read from [co_queue] along [next]; the empty
      list is [co_queue == NULL].  [co_queue = co_queue->next] is a
      rotation of that list by one.  Module [Nodes] has the pointer
      code itself, and section [NodesFacts] proves that on a
      well-formed ring it computes these list operations.
    - [setjmp]/[longjmp] and [stack_switch_call] are control transfers:
      a [jmp_buf] holds the continuation of the [co_yield] call that
      filled it ([kont]).  The stack bytes are not modelled.
    - Client code (main and the entry functions) is any deterministic
      transition system [fetch] that works on its own memory [mem]
      and then returns or calls [co_yield], [co_wait] or [co_start].
    - The machine [step] takes co.c statement by statement.  What a
      build makes of three places is outside it: the store of RUNNING
      before the first-run transfer is performed before the entry
      function runs (module [Dropped] is the machine without that
      store, as gcc builds it at -O1 and above: the [asm] of
      [stack_switch_call] declares no memory clobber); the return of
      an entry function goes on behind [stack_switch_call] in
      [co_yield] (the [asm] never moves the stack pointer back, and at
      -O0 the return goes through a frame on the stack of the
      coroutine that made the transfer, which is gone once that
      coroutine has run on); and the allocations succeed
      ([co_start_checked] has the two [assert]s on [malloc]).
      [co_cleanup] is applied to the state in which the machine stops,
      it is not a part of [step].

    Contents: the data model and the functions of co.c; the vocabulary
    of the specification (invariants, history); the pointer-level ring;
    example clients; lemmas; the properties C1 to C10 of the
    specification, each with a concrete instance; further properties
    of the runtime. *)

From stdpp Require Import gmap list strings.

Set Default Proof Using "Type".

(** ** Data model *)

(** [CoStatus] of co.c. *)
Inductive CoStatus :=
  | CO_STATUS_NEW
  | CO_STATUS_RUNNING
  | CO_STATUS_WAITING
  | CO_STATUS_DEAD.

#[global] Instance CoStatus_eq_dec : EqDecision CoStatus.
Proof. solve_decision. Defined.

(** What client code does next: [return], [co_yield()], [co_wait(h)]
    or [h = co_start(name, f, a)].  A function pointer is the code it
    points to, [None] is [NULL]; a [void *] argument is a word. *)
Inductive instr (code : Type) :=
  | IRet
  | IYield (k : code)
  | IWait (h : nat) (k : code)
  | IStart (name : string) (f : option (Z → code)) (a : Z) (k : nat → code).
Arguments IRet {code}.
Arguments IYield {code} k.
Arguments IWait {code} h k.
Arguments IStart {code} name f a k.

(** The bottom frame of a coroutine's C stack: [main] for the
    primordial flow, the [co_yield] that made the first-run transfer
    for every other one. *)
Inductive base := InMain | InEntry.

#[global] Instance base_eq_dec : EqDecision base.
Proof. solve_decision. Defined.

(** The continuation held by a [jmp_buf]: where the [co_yield] that
    called [setjmp] returns to. *)
Inductive kont (code : Type) :=
  | KRun (b : base) (p : code)              (* back in client code *)
  | KWait (b : base) (target : nat) (p : code)
      (* back in co_wait(target), just after its co_yield() *)
  | KDead.   (* back in the death path of co_yield, after co_yield() *)
Arguments KRun {code} b p.
Arguments KWait {code} b target p.
Arguments KDead {code}.

(** [struct co] without its stack bytes. *)
Record co (code : Type) := Co {
  name : string;
  func : option (Z → code);
  arg : Z;
  status : CoStatus;
  waiter : option nat;
  context : option (kont code)
}.
Arguments Co {code}.
Arguments name {code} _.
Arguments func {code} _.
Arguments arg {code} _.
Arguments status {code} _.
Arguments waiter {code} _.
Arguments context {code} _.

(** History of what the runtime did, newest first.  It is not a
    variable of co.c: it records the calls of [co_start], the two
    transfers of [co_yield], the death path and [free]. *)
Inductive event (code : Type) :=
  | EvSpawn (c : nat) (f : option (Z → code)) (a : Z)
  | EvCall (c : nat) (f : Z → code) (a : Z)
  | EvResume (c : nat)
  | EvDead (c : nat)
  | EvFree (c : nat).
Arguments EvSpawn {code} c f a.
Arguments EvCall {code} c f a.
Arguments EvResume {code} c.
Arguments EvDead {code} c.
Arguments EvFree {code} c.

(** The globals of co.c, the allocator and the client's memory. *)
Record state (code mem : Type) := State {
  heap : gmap nat (co code);
  next_addr : nat;
  co_queue : list nat;
  current_co : option nat;
  umem : mem;
  trace : list (event code)
}.
Arguments State {code mem}.
Arguments heap {code mem} _.
Arguments next_addr {code mem} _.
Arguments co_queue {code mem} _.
Arguments current_co {code mem} _.
Arguments umem {code mem} _.
Arguments trace {code mem} _.

Record config (code mem : Type) := Config {
  st : state code mem;
  pc : kont code
}.
Arguments Config {code mem}.
Arguments st {code mem} _.
Arguments pc {code mem} _.

(** Result of an operation that can fail an [assert] or leave defined
    behaviour. *)
Inductive res (A : Type) :=
  | Ok (a : A)
  | AssertFail
  | Undefined.
Arguments Ok {A} a.
Arguments AssertFail {A}.
Arguments Undefined {A}.

(** Result of one step of the machine. *)
Inductive outcome (code mem : Type) :=
  | Next (c : config code mem)      (* still running *)
  | Exited (s : state code mem)     (* exit(0) in co_yield *)
  | Returned (s : state code mem)   (* main returned *)
  | Aborted                         (* an assert failed *)
  | Undef.                          (* undefined behaviour *)
Arguments Next {code mem} c.
Arguments Exited {code mem} s.
Arguments Returned {code mem} s.
Arguments Aborted {code mem}.
Arguments Undef {code mem}.

Inductive scan_result :=
  | Found (c : nat) (q : list nat)   (* next_node, and co_queue at it *)
  | NotFound (q : list nat)          (* next_node == NULL *)
  | ScanUndef.

Definition eligible (s : CoStatus) : bool :=
  bool_decide (s = CO_STATUS_RUNNING) || bool_decide (s = CO_STATUS_NEW).

(** [co_queue = co_queue->next]. *)
Definition rotate {A : Type} (q : list A) : list A :=
  match q with
  | [] => []
  | x :: t => t ++ [x]
  end.

Section Machine.
Context {code mem : Type}.
Context (fetch : code → mem → mem * instr code).

#[local] Abbreviation co := (co code).
#[local] Abbreviation kont := (kont code).
#[local] Abbreviation event := (event code).
#[local] Abbreviation state := (state code mem).
#[local] Abbreviation config := (config code mem).
#[local] Abbreviation outcome := (outcome code mem).

(** *** Field updates *)

Definition set_status (v : CoStatus) (r : co) : co :=
  Co (name r) (func r) (arg r) v (waiter r) (context r).
Definition set_waiter (v : option nat) (r : co) : co :=
  Co (name r) (func r) (arg r) (status r) v (context r).
Definition set_context (v : option kont) (r : co) : co :=
  Co (name r) (func r) (arg r) (status r) (waiter r) v.

Definition set_heap (h : gmap nat co) (s : state) : state :=
  State h (next_addr s) (co_queue s) (current_co s) (umem s) (trace s).
Definition set_next_addr (n : nat) (s : state) : state :=
  State (heap s) n (co_queue s) (current_co s) (umem s) (trace s).
Definition set_co_queue (q : list nat) (s : state) : state :=
  State (heap s) (next_addr s) q (current_co s) (umem s) (trace s).
Definition set_current_co (c : option nat) (s : state) : state :=
  State (heap s) (next_addr s) (co_queue s) c (umem s) (trace s).
Definition set_umem (m : mem) (s : state) : state :=
  State (heap s) (next_addr s) (co_queue s) (current_co s) m (trace s).
Definition log (e : event) (s : state) : state :=
  State (heap s) (next_addr s) (co_queue s) (current_co s) (umem s)
        (e :: trace s).

(** [p->field = v] for a record [p] that must be live. *)
Definition store (p : nat) (f : co → co) (s : state) : res state :=
  match heap s !! p with
  | Some r => Ok (set_heap (<[p := f r]> (heap s)) s)
  | None => Undefined
  end.

(** *** The ready queue *)

(** [co_queue_insert]: the new node becomes the only node of an empty
    ring, otherwise it is linked between [co_queue->prev] and
    [co_queue], that is, last in the order read from the head. *)
Definition co_queue_insert (new_co : nat) (s : state) : state :=
  match co_queue s with
  | [] => set_co_queue [new_co] s
  | hd :: tl => set_co_queue (hd :: tl ++ [new_co]) s
  end.

(** [co_queue_remove]: unlink the head; the head moves to its
    successor, or the ring becomes empty. *)
Definition co_queue_remove (s : state) : option nat * state :=
  match co_queue s with
  | [] => (None, s)
  | victim :: rest => (Some victim, set_co_queue rest s)
  end.

(** *** co_start *)

Definition co_start (nm : string) (f : option (Z → code)) (a : Z)
    (s : state) : nat * state :=
  let new_co := next_addr s in
  let r := Co nm f a CO_STATUS_NEW None None in
  let s1 := set_next_addr (S new_co) (set_heap (<[new_co := r]> (heap s)) s) in
  (new_co, co_queue_insert new_co (log (EvSpawn new_co f a) s1)).

(** *** co_yield *)

(** The do-while loop of [co_yield].  [n] counts the nodes not yet
    visited: after as many rotations as the ring has nodes,
    [co_queue == start_node] again and the loop ends. *)
Fixpoint scan_loop (n : nat) (h : gmap nat co) (q : list nat) : scan_result :=
  match n with
  | 0 => NotFound q
  | S n' =>
      match rotate q with
      | [] => ScanUndef
      | c :: rest =>
          match h !! c with
          | None => ScanUndef
          | Some r =>
              if eligible (status r) then Found c (c :: rest)
              else scan_loop n' h (c :: rest)
          end
      end
  end.

Definition scan (h : gmap nat co) (q : list nat) : scan_result :=
  match q with
  | [] => ScanUndef        (* co_queue->next with co_queue == NULL *)
  | _ => scan_loop (length q) h q
  end.

(** The transfer of control to the selected record [c]:
    [current_co = next_node->coroutine] and then [longjmp] for a
    RUNNING record, [stack_switch_call] for a NEW one.  The [assert]
    on the resumed path of [co_yield] checks the status that was
    tested here just before the [longjmp]. *)
Definition switch_to (c : nat) (s : state) : outcome :=
  let s1 := set_current_co (Some c) s in
  match heap s1 !! c with
  | None => Undef
  | Some r =>
      if decide (status r = CO_STATUS_RUNNING) then
        match context r with
        | Some κ => Next (Config (log (EvResume c) s1) κ)
        | None => Undef      (* longjmp on a jmp_buf never filled *)
        end
      else if decide (status r = CO_STATUS_NEW) then
        let s2 := set_heap (<[c := set_status CO_STATUS_RUNNING r]> (heap s1)) s1 in
        match func r with
        | Some f => Next (Config (log (EvCall c f (arg r)) s2)
                                 (KRun InEntry (f (arg r))))
        | None => Undef      (* call through a null pointer *)
        end
      else Undef
  end.

(** [co_yield] on the path where [setjmp] returned 0; [κ] is where
    this call of [co_yield] returns to when it is resumed. *)
Definition co_yield (κ : kont) (s : state) : outcome :=
  match current_co s with
  | None => Undef
  | Some cur =>
      match store cur (set_context (Some κ)) s with
      | Ok s1 =>
          match scan (heap s1) (co_queue s1) with
          | ScanUndef => Undef
          | NotFound q => Exited (set_co_queue q s1)
          | Found c q => switch_to c (set_co_queue q s1)
          end
      | _ => Undef
      end
  end.

(** The death path of [co_yield]: the entry function has returned. *)
Definition co_exit (s : state) : outcome :=
  match current_co s with
  | None => Undef
  | Some cur =>
      match heap s !! cur with
      | None => Undef
      | Some r =>
          let s1 := log (EvDead cur)
                      (set_heap (<[cur := set_status CO_STATUS_DEAD r]> (heap s)) s) in
          match waiter r with
          | None => co_yield KDead s1
          | Some w =>
              match store w (set_status CO_STATUS_RUNNING) s1 with
              | Ok s2 => co_yield KDead s2
              | _ => Undef
              end
          end
      end
  end.

(** *** co_wait *)

(** The search loop of [co_wait]: [cur] is the ring read from
    [current_node]; [n] counts the nodes not yet visited. *)
Fixpoint find_loop (n : nat) (target : nat) (cur : list nat) : option (list nat) :=
  match n with
  | 0 => None
  | S n' =>
      match cur with
      | [] => None
      | c :: _ =>
          if decide (c = target) then Some cur
          else find_loop n' target (rotate cur)
      end
  end.

Definition find_target (target : nat) (q : list nat) : list nat :=
  match find_loop (length q) target q with
  | Some q' => q'
  | None => q
  end.

(** The second half of [co_wait]: find the node of [target], make it
    the head, [assert] that it is, [free] the record, unlink and
    [free] the node. *)
Definition reclaim (target : nat) (s : state) : res state :=
  let s1 := set_co_queue (find_target target (co_queue s)) s in
  match co_queue s1 with
  | [] => Undefined           (* co_queue->coroutine with co_queue == NULL *)
  | c :: _ =>
      if decide (c = target) then
        match heap s1 !! target with
        | None => Undefined   (* free of a freed record *)
        | Some _ =>
            let s2 := log (EvFree target) (set_heap (delete target (heap s1)) s1) in
            match co_queue_remove s2 with
            | (Some _, s3) => Ok s3
            | (None, _) => AssertFail
            end
        end
      else AssertFail
  end.

Definition resume_wait (b : base) (target : nat) (k : code) (s : state) : outcome :=
  match reclaim target s with
  | Ok s' => Next (Config s' (KRun b k))
  | AssertFail => Aborted
  | Undefined => Undef
  end.

Definition co_wait (b : base) (target : nat) (k : code) (s : state) : outcome :=
  match heap s !! target with
  | None => Undef
  | Some r =>
      if decide (status r ≠ CO_STATUS_DEAD) then
        match store target (set_waiter (current_co s)) s with
        | Ok s1 =>
            match current_co s1 with
            | None => Undef
            | Some cur =>
                match store cur (set_status CO_STATUS_WAITING) s1 with
                | Ok s2 => co_yield (KWait b target k) s2
                | _ => Undef
                end
            end
        | _ => Undef
        end
      else resume_wait b target k s
  end.

(** *** The machine *)

Definition step (cf : config) : outcome :=
  match pc cf with
  | KRun b p =>
      let '(m, i) := fetch p (umem (st cf)) in
      let s := set_umem m (st cf) in
      match i with
      | IRet =>
          match b with
          | InMain => Returned s
          | InEntry => co_exit s
          end
      | IYield k => co_yield (KRun b k) s
      | IWait h k => co_wait b h k s
      | IStart nm f a k =>
          let '(h, s') := co_start nm f a s in
          Next (Config s' (KRun b (k h)))
      end
  | KWait b target k => resume_wait b target k (st cf)
  | KDead => Undef
  end.

Fixpoint run (n : nat) (cf : config) : outcome :=
  match n with
  | 0 => Next cf
  | S n' =>
      match step cf with
      | Next cf' => run n' cf'
      | o => o
      end
  end.

(** [co_initialize], run before [main]. *)
Definition empty_state (m : mem) : state := State ∅ 0 [] None m [].

Definition co_initialize (s : state) : res state :=
  let '(c, s1) := co_start "main" None 0%Z s in
  store c (set_status CO_STATUS_RUNNING) (set_current_co (Some c) s1).

Definition boot (m : mem) : state :=
  match co_initialize (empty_state m) with
  | Ok s => s
  | _ => empty_state m
  end.

Definition init (m : mem) (main : code) : config :=
  Config (boot m) (KRun InMain main).

(** [co_cleanup], run at [exit] and after [main] has returned. *)
Fixpoint cleanup_loop (n : nat) (s : state) : res state :=
  match n with
  | 0 => Ok s
  | S n' =>
      match co_queue_remove s with
      | (None, s') => Ok s'
      | (Some c, s') =>
          match heap s' !! c with
          | None => Undefined
          | Some _ =>
              cleanup_loop n' (log (EvFree c) (set_heap (delete c (heap s')) s'))
          end
      end
  end.

Definition co_cleanup (s : state) : res state :=
  cleanup_loop (length (co_queue s)) s.

End Machine.

(** *** The allocations *)

(** [co_queue_insert] with the result of its [malloc]: [node_ok] says
    that the node was allocated; otherwise the [assert] of line 112
    fails. *)
Definition co_queue_insert_checked {code mem : Type} (node_ok : bool) (new_co : nat)
    (s : state code mem) : res (state code mem) :=
  if node_ok then Ok (co_queue_insert new_co s) else AssertFail.

(** [co_start] with the results of its two [malloc] calls: [co_ok] for
    the record (the [assert] of line 164), [node_ok] for the node. *)
Definition co_start_checked {code mem : Type} (co_ok node_ok : bool)
    (nm : string) (f : option (Z → code)) (a : Z) (s : state code mem)
    : res (nat * state code mem) :=
  if co_ok then
    let new_co := next_addr s in
    let r := Co nm f a CO_STATUS_NEW None None in
    let s1 := set_next_addr (S new_co) (set_heap (<[new_co := r]> (heap s)) s) in
    match co_queue_insert_checked node_ok new_co (log (EvSpawn new_co f a) s1) with
    | Ok s' => Ok (new_co, s')
    | AssertFail => AssertFail
    | Undefined => Undefined
    end
  else AssertFail.

(** ** The machine without the store of line 251 *)

(** [stack_switch_call] is an [asm] statement with no memory clobber,
    and nothing that the compiler sees between the store
    [current_co->status = CO_STATUS_RUNNING] (line 251) and the store
    of CO_STATUS_DEAD (line 264) reads the field.  A build that
    optimises (gcc at -O1 and above) therefore omits the first store:
    the entry function runs while its record is still NEW. *)
Module Dropped.
Section Machine.
Context {code mem : Type}.
Context (fetch : code → mem → mem * instr code).

(** The transfer of control without the store of RUNNING. *)
Definition switch_to (c : nat) (s : state code mem) : outcome code mem :=
  let s1 := set_current_co (Some c) s in
  match heap s1 !! c with
  | None => Undef
  | Some r =>
      if decide (status r = CO_STATUS_RUNNING) then
        match context r with
        | Some κ => Next (Config (log (EvResume c) s1) κ)
        | None => Undef
        end
      else if decide (status r = CO_STATUS_NEW) then
        match func r with
        | Some f => Next (Config (log (EvCall c f (arg r)) s1)
                                 (KRun InEntry (f (arg r))))
        | None => Undef
        end
      else Undef
  end.

Definition co_yield (κ : kont code) (s : state code mem) : outcome code mem :=
  match current_co s with
  | None => Undef
  | Some cur =>
      match store cur (set_context (Some κ)) s with
      | Ok s1 =>
          match scan (heap s1) (co_queue s1) with
          | ScanUndef => Undef
          | NotFound q => Exited (set_co_queue q s1)
          | Found c q => switch_to c (set_co_queue q s1)
          end
      | _ => Undef
      end
  end.

Definition co_exit (s : state code mem) : outcome code mem :=
  match current_co s with
  | None => Undef
  | Some cur =>
      match heap s !! cur with
      | None => Undef
      | Some r =>
          let s1 := log (EvDead cur)
                      (set_heap (<[cur := set_status CO_STATUS_DEAD r]> (heap s)) s) in
          match waiter r with
          | None => co_yield KDead s1
          | Some w =>
              match store w (set_status CO_STATUS_RUNNING) s1 with
              | Ok s2 => co_yield KDead s2
              | _ => Undef
              end
          end
      end
  end.

Definition co_wait (b : base) (target : nat) (k : code) (s : state code mem)
    : outcome code mem :=
  match heap s !! target with
  | None => Undef
  | Some r =>
      if decide (status r ≠ CO_STATUS_DEAD) then
        match store target (set_waiter (current_co s)) s with
        | Ok s1 =>
            match current_co s1 with
            | None => Undef
            | Some cur =>
                match store cur (set_status CO_STATUS_WAITING) s1 with
                | Ok s2 => co_yield (KWait b target k) s2
                | _ => Undef
                end
            end
        | _ => Undef
        end
      else resume_wait b target k s
  end.

Definition step (cf : config code mem) : outcome code mem :=
  match pc cf with
  | KRun b p =>
      let '(m, i) := fetch p (umem (st cf)) in
      let s := set_umem m (st cf) in
      match i with
      | IRet =>
          match b with
          | InMain => Returned s
          | InEntry => co_exit s
          end
      | IYield k => co_yield (KRun b k) s
      | IWait h k => co_wait b h k s
      | IStart nm f a k =>
          let '(h, s') := co_start nm f a s in
          Next (Config s' (KRun b (k h)))
      end
  | KWait b target k => resume_wait b target k (st cf)
  | KDead => Undef
  end.

Fixpoint run (n : nat) (cf : config code mem) : outcome code mem :=
  match n with
  | 0 => Next cf
  | S n' =>
      match step cf with
      | Next cf' => run n' cf'
      | o => o
      end
  end.

End Machine.
End Dropped.

(** ** Vocabulary of the specification *)

(** [k] times [co_queue = co_queue->next]. *)
Definition rotN {A : Type} (k : nat) (q : list A) : list A := Nat.iter k rotate q.

Section Spec.
Context {code mem : Type}.
Implicit Types (H h : gmap nat (co code)) (r : co code) (κ : kont code).
Implicit Types (T : list (event code)).
Implicit Types (s : state code mem) (cf : config code mem).

(** The record at [c] is live and its status is RUNNING or NEW. *)
Definition elig_at h (c : nat) : bool :=
  match h !! c with
  | Some r => eligible (status r)
  | None => false
  end.


(** The state that an outcome carries. *)
Definition state_of (o : outcome code mem) : option (state code mem) :=
  match o with
  | Next cf => Some (st cf)
  | Exited s | Returned s => Some s
  | Aborted | Undef => None
  end.

(** The state in which [co_yield] scans: the context is saved. *)
Definition saved (cur : nat) r κ s : state code mem :=
  State (<[cur := set_context (Some κ) r]> (heap s)) (next_addr s) (co_queue s)
        (current_co s) (umem s) (trace s).

(** A configuration that a run from [co_initialize] reaches. *)
Definition reachable (fetch : code → mem → mem * instr code) cf : Prop :=
  ∃ m main n, run fetch n (init m main) = Next cf.

(** *** The scheduler invariant *)

(** [t] was allocated and is dead or freed. *)
Definition gone H (n t : nat) : Prop :=
  t < n ∧ ∀ r, H !! t = Some r → status r = CO_STATUS_DEAD.

(** A continuation fits the record [c] that holds it: the bottom frame
    is [main] exactly for the primordial record (address 0), a runnable
    record that is inside [co_wait] waits for a record that is gone,
    and nothing ever returns into the death path. *)
Definition kont_ok H (n c : nat) (v : CoStatus) κ : Prop :=
  match κ with
  | KRun b _ => b = InMain ↔ c = 0
  | KWait b t _ => (b = InMain ↔ c = 0) ∧ (v = CO_STATUS_RUNNING → gone H n t)
  | KDead => False
  end.

Definition suspended r : Prop :=
  status r = CO_STATUS_RUNNING ∨ status r = CO_STATUS_WAITING.

(** The heap when every coroutine sits in a [co_yield]. *)
Record Quiescent H (n : nat) : Prop := {
  q_fresh : ∀ c, is_Some (H !! c) → c < n;
  q_main : ∃ r, H !! 0 = Some r ∧ func r = None ∧
                status r ≠ CO_STATUS_NEW ∧ status r ≠ CO_STATUS_DEAD;
  q_ctx : ∀ c r, H !! c = Some r → suspended r →
          ∃ κ, context r = Some κ ∧ kont_ok H n c (status r) κ;
  q_wait : ∀ x r w, H !! x = Some r → waiter r = Some w →
           status r ≠ CO_STATUS_DEAD →
           ∃ rw b k, H !! w = Some rw ∧ status rw = CO_STATUS_WAITING ∧
                     context rw = Some (KWait b x k)
}.

(** The invariant of a running machine: the ring holds exactly the
    live records, the current coroutine is RUNNING, and the heap would
    be quiescent if the current coroutine saved its continuation now. *)
Record Inv cf : Prop := {
  inv_nodup : NoDup (co_queue (st cf));
  inv_ring : ∀ c, c ∈ co_queue (st cf) ↔ is_Some (heap (st cf) !! c);
  inv_cur : ∃ cur r,
      current_co (st cf) = Some cur ∧ heap (st cf) !! cur = Some r ∧
      status r = CO_STATUS_RUNNING ∧
      Quiescent (<[cur := set_context (Some (pc cf)) r]> (heap (st cf)))
                (next_addr (st cf))
}.

(** *** The history *)

(** The calls of the entry function of [c], newest first. *)
Fixpoint calls (c : nat) T : list ((Z → code) * Z) :=
  match T with
  | [] => []
  | EvCall c' f a :: T' =>
      if decide (c' = c) then (f, a) :: calls c T' else calls c T'
  | _ :: T' => calls c T'
  end.

(** The [co_start] calls that returned [c]. *)
Fixpoint spawns (c : nat) T : list (option (Z → code) * Z) :=
  match T with
  | [] => []
  | EvSpawn c' f a :: T' =>
      if decide (c' = c) then (f, a) :: spawns c T' else spawns c T'
  | _ :: T' => spawns c T'
  end.

Definition died (c : nat) T : Prop := EvDead c ∈ T.

Record TInv H (n : nat) T : Prop := {
  t_unused : ∀ c, n ≤ c → spawns c T = [] ∧ calls c T = [] ∧ ¬ died c T;
  t_main : ∃ r, H !! 0 = Some r ∧ func r = None ∧
                status r ≠ CO_STATUS_NEW ∧ status r ≠ CO_STATUS_DEAD;
  t_live : ∀ c r, H !! c = Some r →
      spawns c T = [(func r, arg r)] ∧
      (status r = CO_STATUS_NEW ∨ c = 0 → calls c T = [] ∧ ¬ died c T) ∧
      (status r ≠ CO_STATUS_NEW → c ≠ 0 →
         ∃ f, func r = Some f ∧ calls c T = [(f, arg r)]) ∧
      (died c T → status r = CO_STATUS_DEAD);
  t_freed : ∀ c, c < n → H !! c = None →
      ∃ f a, spawns c T = [(Some f, a)] ∧ calls c T = [(f, a)]
}.

Definition out_sat (P : state code mem → Prop) (o : outcome code mem) : Prop :=
  match o with
  | Next cf => P (st cf)
  | Exited s | Returned s => P s
  | Aborted | Undef => True
  end.

Definition TInv_st s : Prop := TInv (heap s) (next_addr s) (trace s).

(** The transfers of control in a history, oldest first: [(c, true)]
    for a first run of [c], [(c, false)] for a resume. *)
Fixpoint transfers T : list (nat * bool) :=
  match T with
  | [] => []
  | EvCall c _ _ :: T' => transfers T' ++ [(c, true)]
  | EvResume c :: T' => transfers T' ++ [(c, false)]
  | _ :: T' => transfers T'
  end.

(** *** What a step changes *)

(** Scheduling leaves every record in place; it changes only the
    saved context of the caller and the status of a NEW record that
    it starts. *)
Definition sched_rel H H' : Prop :=
  ∀ x, match H !! x, H' !! x with
       | Some r, Some r' =>
           name r' = name r ∧ func r' = func r ∧ arg r' = arg r ∧
           waiter r' = waiter r ∧ context r' = context r ∧
           (status r' = status r ∨
            (status r = CO_STATUS_NEW ∧ status r' = CO_STATUS_RUNNING))
       | None, None => True
       | _, _ => False
       end.

(** A record that is NEW in [H1] was NEW in [H0], with the same entry
    function and argument. *)
Definition new_same H0 H1 : Prop :=
  ∀ x r1, H1 !! x = Some r1 → status r1 = CO_STATUS_NEW →
          ∃ r0, H0 !! x = Some r0 ∧ status r0 = CO_STATUS_NEW ∧
                func r0 = func r1 ∧ arg r0 = arg r1.

(** The step to [cf'] is the first run of [x], which was NEW in [s]. *)
Definition first_run (x : nat) s cf' : Prop :=
  ∃ r f, heap s !! x = Some r ∧ status r = CO_STATUS_NEW ∧ func r = Some f ∧
         pc cf' = KRun InEntry (f (arg r)) ∧ current_co (st cf') = Some x.

(** The ring holds each live record once, and nothing else. *)
Definition ring_ok s : Prop :=
  NoDup (co_queue s) ∧ ∀ x, x ∈ co_queue s ↔ is_Some (heap s !! x).

End Spec.

(** ** The ring of nodes, as co.c has it *)

Module Nodes.

(** [CoNode] of co.c: the addresses of the coroutine record and of the
    neighbours in the ring. *)
Record CoNode := Node {
  coroutine : nat;
  prev : nat;
  next : nat
}.

Definition set_prev (v : nat) (n : CoNode) : CoNode :=
  Node (coroutine n) v (next n).
Definition set_next (v : nat) (n : CoNode) : CoNode :=
  Node (coroutine n) (prev n) v.

(** The node heap and the global [co_queue]; [None] is [NULL]. *)
Record ring := Ring {
  nodes : gmap nat CoNode;
  head : option nat
}.

(** [co_queue_insert], with [node] the address that [malloc] returned.
    [None] stands for an access through a pointer to no node. *)
Definition insert (node new_co : nat) (q : ring) : option ring :=
  match head q with
  | None =>
      Some (Ring (<[node := Node new_co node node]> (nodes q)) (Some node))
  | Some hd =>
      hdn ← nodes q !! hd;
      let N1 := <[node := Node new_co (prev hdn) hd]> (nodes q) in
      nd ← N1 !! node;
      pn ← N1 !! prev nd;
      let N2 := <[prev nd := set_next node pn]> N1 in
      nd' ← N2 !! node;
      nn ← N2 !! next nd';
      let N3 := <[next nd' := set_prev node nn]> N2 in
      Some (Ring N3 (Some hd))
  end.

(** [co_queue_remove]: the victim and the ring without it. *)
Definition remove (q : ring) : option (option nat * ring) :=
  match head q with
  | None => Some (None, q)
  | Some victim =>
      vn ← nodes q !! victim;
      if decide (next vn = victim) then Some (Some victim, Ring (nodes q) None)
      else
        let hd := next vn in
        hn ← nodes q !! hd;
        let N1 := <[hd := set_prev (prev vn) hn]> (nodes q) in
        hn' ← N1 !! hd;
        pn ← N1 !! prev hn';
        let N2 := <[prev hn' := set_next hd pn]> N1 in
        Some (Some victim, Ring N2 (Some hd))
  end.

(** [co_queue = co_queue->next]. *)
Definition advance (q : ring) : option ring :=
  hd ← head q;
  hn ← nodes q !! hd;
  Some (Ring (nodes q) (Some (next hn))).

(** The neighbours of position [i] in a ring of addresses. *)
Definition ring_next (l : list nat) (i : nat) : option nat :=
  if decide (S i < length l) then l !! S i else l !! 0.
Definition ring_prev (l : list nat) (i : nat) : option nat :=
  match i with
  | 0 => last l
  | S j => l !! j
  end.

(** [q] is a well-formed ring whose nodes, read from the head along
    [next], are [l] (address of the node, address of its coroutine). *)
Definition repr (q : ring) (l : list (nat * nat)) : Prop :=
  head q = l.*1 !! 0 ∧ NoDup l.*1 ∧
  ∀ i a c, l !! i = Some (a, c) →
    ∃ nd, nodes q !! a = Some nd ∧ coroutine nd = c ∧
          Some (next nd) = ring_next l.*1 i ∧ Some (prev nd) = ring_prev l.*1 i.

Section Loops.
Context {code : Type}.
Implicit Types (h : gmap nat (co code)).

(** The do-while loop of [co_yield] on the nodes: the selected node
    ([None] is [next_node == NULL]) and the ring with [co_queue] where
    the loop left it.  The outer [None] is an access through a pointer
    to no node or record, or [fuel] used up. *)
Fixpoint scan_ptr (fuel : nat) h (start_node : nat) (q : ring)
    : option (option nat * ring) :=
  match fuel with
  | 0 => None
  | S f =>
      q1 ← advance q;
      hd ← head q1;
      hn ← nodes q1 !! hd;
      r ← h !! coroutine hn;
      if eligible (status r) then Some (Some hd, q1)
      else if decide (hd = start_node) then Some (None, q1)
      else scan_ptr f h start_node q1
  end.

End Loops.

(** The search loop of [co_wait] on the nodes, from [current_node]. *)
Fixpoint find_ptr (fuel : nat) (target : nat) (current_node : nat) (q : ring)
    : option ring :=
  match fuel with
  | 0 => None
  | S f =>
      cn ← nodes q !! current_node;
      if decide (coroutine cn = target)
      then Some (Ring (nodes q) (Some current_node))
      else if decide (Some (next cn) = head q) then Some q
      else find_ptr f target (next cn) q
  end.

Definition find_node (fuel : nat) (target : nat) (q : ring) : option ring :=
  match head q with
  | None => Some q
  | Some hd => find_ptr fuel target hd q
  end.

(** [co_queue_insert] for each node of [l] in turn. *)
Fixpoint insert_all (l : list (nat * nat)) (q : ring) : option ring :=
  match l with
  | [] => Some q
  | (node, new_co) :: t => q' ← insert node new_co q; insert_all t q'
  end.

(** The loop of [co_cleanup] on the nodes: [co_queue_remove] while
    [co_queue != NULL]; the victims in the order of removal.  The
    outer [None] is an access through a pointer to no node, or [fuel]
    used up. *)
Fixpoint remove_all (fuel : nat) (q : ring) : option (list nat * ring) :=
  match fuel with
  | 0 => match head q with None => Some ([], q) | Some _ => None end
  | S f =>
      match head q with
      | None => Some ([], q)
      | Some _ =>
          '(victim, q1) ← remove q;
          match victim with
          | None => remove_all f q1
          | Some a => '(vs, q2) ← remove_all f q1; Some (a :: vs, q2)
          end
      end
  end.

(** The rings that the operations of co.c on [co_queue] make from the
    empty ring, with the list of their nodes from the head. *)
Inductive built : ring → list (nat * nat) → Prop :=
  | built_empty N : built (Ring N None) []
  | built_insert q l node new_co q' :
      built q l → node ∉ l.*1 → insert node new_co q = Some q' →
      built q' (l ++ [(node, new_co)])
  | built_remove q a c t q' :
      built q ((a, c) :: t) → remove q = Some (Some a, q') → built q' t
  | built_advance q a c t q' :
      built q ((a, c) :: t) → advance q = Some q' → built q' (t ++ [(a, c)]).

End Nodes.

(** ** Example clients *)

(** A small client language: the four calls, and [Incr] for work on
    the client's own memory (a counter). *)
#[warnings="-register-all"]
Inductive prog :=
  | Ret
  | Yield (k : prog)
  | Wait (h : nat) (k : prog)
  | Start (nm : string) (f : option (Z → prog)) (a : Z) (k : nat → prog)
  | Incr (k : prog).

Fixpoint prog_fetch (p : prog) (m : nat) : nat * instr prog :=
  match p with
  | Ret => (m, IRet)
  | Yield k => (m, IYield k)
  | Wait h k => (m, IWait h k)
  | Start nm f a k => (m, IStart nm f a k)
  | Incr k => prog_fetch k (S m)
  end.

Definition yield_once : Z → prog := λ _, Yield Ret.

Definition ret_now : Z → prog := λ _, Ret.

(** main spawns A, B, C with the given names and arguments, each of
    which yields once, and waits for them in turn. *)
Definition abc_wait (nA nB nC : string) (aA aB aC : Z) : prog :=
  Start nA (Some yield_once) aA (λ a,
  Start nB (Some yield_once) aB (λ b,
  Start nC (Some yield_once) aC (λ c,
  Wait a (Wait b (Wait c Ret))))).

(** The same, but main yields three times instead of waiting. *)
Definition abc_yield (nA nB nC : string) (aA aB aC : Z) : prog :=
  Start nA (Some yield_once) aA (λ a,
  Start nB (Some yield_once) aB (λ b,
  Start nC (Some yield_once) aC (λ c,
  Yield (Yield (Yield Ret))))).

(** A returns at once; main yields, reclaims the dead A, yields again. *)
Definition skip_main : prog :=
  Start "A" (Some ret_now) 1 (λ a,
  Start "B" (Some yield_once) 2 (λ b,
  Start "C" (Some yield_once) 3 (λ c,
  Yield (Wait a (Yield (Yield (Yield Ret))))))).

(** main and W both wait for T while T is live. *)
Definition two_waiters : prog :=
  Start "T" (Some yield_once) 1 (λ t,
  Start "W" (Some (λ _, Wait t Ret)) 2 (λ w,
  Wait t Ret)).

(** main spawns one coroutine and returns without running it. *)
Definition spawn_only : prog := Start "A" (Some ret_now) 1 (λ _, Ret).

(** The configuration after [n] steps. *)
Definition after (n : nat) (p : prog) : config prog nat :=
  match run prog_fetch n (init 0 p) with
  | Next cf => cf
  | _ => init 0 p
  end.

(** The state in which a run of [p] is after [n] steps, also when the
    process has ended. *)
Definition state_after (n : nat) (p : prog) : state prog nat :=
  match state_of (run prog_fetch n (init 0 p)) with
  | Some s => s
  | None => boot 0
  end.

(** A, while it runs for the first time, starts D; B and main only yield. *)
Definition nested_spawn : prog :=
  Start "A" (Some (λ _, Start "D" (Some yield_once) 4 (λ d, Yield Ret))) 1 (λ a,
  Start "B" (Some yield_once) 2 (λ b,
  Yield (Yield Ret))).

(** A waits for itself. *)
Definition self_waiter : prog :=
  Start "A" (Some (λ _, Wait 1 Ret)) 1 (λ a, Yield (Yield Ret)).

(** A returns at once; main yields twice. *)
Definition yield_twice : prog :=
  Start "A" (Some ret_now) 1 (λ a, Yield (Yield Ret)).

(** main starts A, which returns at once, and waits for it. *)
Definition spawn_wait : prog := Start "A" (Some ret_now) 5 (λ a, Wait a Ret).

(** T returns at once and main reclaims it; the head of the queue is
    then the node of B, just before the node of main. *)
Definition behind_head : prog :=
  Start "A" (Some yield_once) 1 (λ a,
  Start "T" (Some ret_now) 2 (λ t,
  Start "B" (Some yield_once) 3 (λ b,
  Yield (Wait t (Yield Ret))))).

(** Two nodes, at 10 and 11, for the records 0 and 1. *)
Definition ring2 : Nodes.ring :=
  Nodes.Ring {[10 := Nodes.Node 0 11 11; 11 := Nodes.Node 1 10 10]} (Some 10).

Definition heap2 : gmap nat (co prog) :=
  {[0 := Co "main" None 0 CO_STATUS_WAITING None None;
    1 := Co "A" (Some ret_now) 1 CO_STATUS_NEW None None]}.

(** Lookups in a heap written with [insert]. *)
Ltac heap_simpl :=
  repeat first
    [ rewrite insert_insert_eq | rewrite lookup_insert_eq
    | rewrite lookup_insert_ne by done | rewrite lookup_singleton_eq
    | rewrite lookup_singleton_ne by done ].

(** * Lemmas *)

(** ** The ring *)

Section Ring.
Context {A : Type}.
Implicit Types (q l : list A).

Lemma rotN_succ k q : rotN (S k) q = rotate (rotN k q).
Proof. done. Qed.

Lemma rotN_S k q : rotN (S k) q = rotN k (rotate q).
Proof. unfold rotN. by rewrite Nat.iter_succ_r. Qed.

Lemma rotN_app l1 l2 : rotN (length l1) (l1 ++ l2) = l2 ++ l1.
Proof.
  revert l2. induction l1 as [|x l1 IH]; intros l2.
  - by rewrite app_nil_r.
  - cbn [length]. rewrite rotN_S. simpl.
    rewrite <- app_assoc. rewrite IH. by rewrite <- app_assoc.
Qed.

Lemma rotate_perm q : rotate q ≡ₚ q.
Proof.
  destruct q as [|x t]; [done|]. simpl.
  by rewrite (Permutation_app_comm t [x]).
Qed.

Lemma rotate_fmap {B : Type} (f : A → B) q : f <$> rotate q = rotate (f <$> q).
Proof. destruct q as [|x t]; [done|]. simpl. by rewrite fmap_app. Qed.

Lemma rotate_lookup q i : S i < length q → rotate q !! i = q !! S i.
Proof.
  destruct q as [|x t]; [done|]. simpl. intros Hi. by rewrite lookup_app_l by lia.
Qed.

Lemma rotate_lookup_last q : q ≠ [] → rotate q !! (length q - 1) = q !! 0.
Proof.
  destruct q as [|x t]; [done|]. simpl. intros _. rewrite Nat.sub_0_r.
  rewrite lookup_app_r by lia. by rewrite Nat.sub_diag.
Qed.

Lemma rotN_perm k q : rotN k q ≡ₚ q.
Proof.
  induction k as [|k IH]; [done|].
  unfold rotN in *. simpl. by rewrite rotate_perm.
Qed.

Lemma rotate_nil_inv q : rotate q = [] → q = [].
Proof. destruct q as [|x t]; [done|]. simpl. by destruct t. Qed.

Lemma rotN_split j l : j ≤ length l → rotN j l = drop j l ++ take j l.
Proof.
  intros Hj. rewrite <- (take_drop j l) at 1.
  rewrite <- (length_take_le l j) at 1 by done. apply rotN_app.
Qed.

Lemma head_rotN j l : j < length l → head (rotN j l) = l !! j.
Proof.
  intros Hj. rewrite rotN_split by lia.
  destruct (lookup_lt_is_Some_2 l j Hj) as [x Hx].
  rewrite (drop_S l x j Hx). simpl. done.
Qed.

Lemma rotate_length q : length (rotate q) = length q.
Proof. destruct q as [|x t]; [done|]. simpl. rewrite length_app. simpl. lia. Qed.

Lemma elem_of_rotate x q : x ∈ rotate q ↔ x ∈ q.
Proof. by rewrite rotate_perm. Qed.

End Ring.

Section Scan.
Context {code : Type}.
Implicit Types (h : gmap nat (co code)) (q : list nat).

Lemma scan_loop_rot h n q :
  q ≠ [] → (∀ x, x ∈ q → is_Some (h !! x)) →
  match scan_loop n h q with
  | Found c q' =>
      ∃ k, k < n ∧ q' = rotN (S k) q ∧ head q' = Some c ∧ elig_at h c = true ∧
           ∀ j, j < k → ∃ x, head (rotN (S j) q) = Some x ∧ elig_at h x = false
  | NotFound q' =>
      q' = rotN n q ∧
      ∀ j, j < n → ∃ x, head (rotN (S j) q) = Some x ∧ elig_at h x = false
  | ScanUndef => False
  end.
Proof.
  revert q. induction n as [|n IH]; intros q Hne Hlive.
  - cbn [scan_loop]. split; [done|]. intros j Hj. lia.
  - cbn [scan_loop]. destruct (rotate q) as [|c rest] eqn:Hrot.
    { by apply rotate_nil_inv in Hrot. }
    assert (Hc : c ∈ q).
    { apply elem_of_rotate. rewrite Hrot. by left. }
    destruct (Hlive c Hc) as [r Hr]. rewrite Hr.
    destruct (eligible (status r)) eqn:He.
    + exists 0. split; [lia|]. split; [by rewrite rotN_S, Hrot|].
      split; [done|]. split; [unfold elig_at; by rewrite Hr|].
      intros j Hj. lia.
    + assert (Hlive' : ∀ x, x ∈ c :: rest → is_Some (h !! x)).
      { intros x Hx. apply Hlive. apply elem_of_rotate. by rewrite Hrot. }
      specialize (IH (c :: rest) ltac:(done) Hlive').
      assert (Hhd : ∀ j, j < S n → (j = 0 ∨ ∃ j', j = S j' ∧ j' < n)).
      { intros [|j'] Hj; [by left|right; exists j'; split; [done|lia]]. }
      destruct (scan_loop n h (c :: rest)) as [c' q'|q'|]; [| |done].
      * destruct IH as (k & Hk & Hq' & Hhead & Helig & Hpre).
        exists (S k). split; [lia|]. split; [by rewrite rotN_S, Hrot|].
        split; [done|]. split; [done|].
        intros j Hj. destruct j as [|j'].
        -- exists c. split; [by rewrite rotN_S, Hrot|]. unfold elig_at. by rewrite Hr.
        -- rewrite rotN_S, Hrot. apply Hpre. lia.
      * destruct IH as (Hq' & Hpre).
        split; [by rewrite rotN_S, Hrot|].
        intros j Hj. destruct j as [|j'].
        -- exists c. split; [by rewrite rotN_S, Hrot|]. unfold elig_at. by rewrite Hr.
        -- rewrite rotN_S, Hrot. apply Hpre. lia.
Qed.

(** The loop of [co_yield] is a search for the first eligible record
    in the ring read from the successor of the head. *)
Lemma scan_list_find h q :
  q ≠ [] → (∀ x, x ∈ q → is_Some (h !! x)) →
  scan h q =
    match list_find (λ c, elig_at h c = true) (rotate q) with
    | Some (i, c) => Found c (rotN (S i) q)
    | None => NotFound q
    end.
Proof.
  intros Hne Hlive.
  assert (Hscan : scan h q = scan_loop (length q) h q) by (by destruct q).
  rewrite Hscan. clear Hscan.
  pose proof (scan_loop_rot h (length q) q Hne Hlive) as Hspec.
  assert (Hhd : ∀ j, j < length q → head (rotN (S j) q) = rotate q !! j).
  { intros j Hj. rewrite rotN_S. apply head_rotN. by rewrite rotate_length. }
  destruct (scan_loop (length q) h q) as [c q'|q'|]; [| |done].
  - destruct Hspec as (k & Hk & -> & Hhead & Helig & Hpre).
    rewrite Hhd in Hhead by done.
    assert (Hfind : list_find (λ c, elig_at h c = true) (rotate q) = Some (k, c)).
    { apply list_find_Some. split; [done|]. split; [done|].
      intros j y Hy Hj. destruct (Hpre j Hj) as (x & Hx & Hxe).
      rewrite Hhd in Hx by lia. simplify_eq. by rewrite Hxe. }
    by rewrite Hfind.
  - destruct Hspec as (-> & Hpre).
    assert (Hfind : list_find (λ c, elig_at h c = true) (rotate q) = None).
    { apply list_find_None. apply Forall_forall. intros x Hx.
      apply list_elem_of_lookup in Hx as [j Hj].
      assert (Hjl : j < length q).
      { rewrite <- rotate_length. by eapply lookup_lt_Some. }
      destruct (Hpre j Hjl) as (x' & Hx' & Hxe).
      rewrite Hhd in Hx' by done. simplify_eq. by rewrite Hxe. }
    rewrite Hfind. f_equal.
    rewrite rotN_split by done. by rewrite drop_all, take_ge.
Qed.

Lemma scan_perm h q c q' : scan h q = Found c q' → q' ≡ₚ q ∧ ∃ rest, q' = c :: rest.
Proof.
  unfold scan. destruct q as [|a t]; [done|].
  generalize (length (a :: t)). generalize (a :: t). clear.
  intros q n. revert q. induction n as [|n IH]; intros q; [done|].
  simpl. destruct (rotate q) as [|x rest] eqn:Hrot; [done|].
  destruct (h !! x) as [r|]; [|done].
  destruct (eligible (status r)).
  - intros [= <- <-]. split; [|by eexists]. rewrite <- Hrot. apply rotate_perm.
  - intros H. apply IH in H as [Hp Hx]. split; [|done].
    rewrite Hp, <- Hrot. apply rotate_perm.
Qed.

Lemma scan_elig h q c q' :
  scan h q = Found c q' → ∃ r, h !! c = Some r ∧ eligible (status r) = true.
Proof.
  unfold scan. destruct q as [|a t]; [done|].
  generalize (length (a :: t)). generalize (a :: t). clear.
  intros q n. revert q. induction n as [|n IH]; intros q; [done|].
  simpl. destruct (rotate q) as [|x rest] eqn:Hrot; [done|].
  destruct (h !! x) as [r|] eqn:Hr; [|done].
  destruct (eligible (status r)) eqn:He.
  - intros [= <- <-]. eauto.
  - apply IH.
Qed.

Lemma scan_notfound h q q' : scan h q = NotFound q' → q' ≡ₚ q.
Proof.
  unfold scan. destruct q as [|a t]; [done|].
  generalize (length (a :: t)). generalize (a :: t). clear.
  intros q n. revert q. induction n as [|n IH]; intros q.
  - simpl. by intros [= <-].
  - simpl. destruct (rotate q) as [|x rest] eqn:Hrot; [done|].
    destruct (h !! x) as [r|]; [|done].
    destruct (eligible (status r)); [done|].
    intros H. apply IH in H. rewrite H, <- Hrot. apply rotate_perm.
Qed.

End Scan.

Section Find.

Lemma find_loop_split n target pre post :
  target ∉ pre → length pre < n →
  find_loop n target (pre ++ target :: post) = Some (target :: post ++ pre).
Proof.
  revert n post. induction pre as [|x pre IH]; intros n post Hnin Hlen.
  - destruct n; [simpl in *; lia|]. simpl. rewrite decide_True by done.
    by rewrite app_nil_r.
  - destruct n; [simpl in *; lia|]. simpl.
    apply not_elem_of_cons in Hnin as [Hne Hnin].
    rewrite decide_False by done.
    rewrite <- app_assoc. simpl. rewrite IH; [|done|simpl in *; lia].
    by rewrite <- app_assoc.
Qed.

Lemma find_loop_none n target q : target ∉ q → find_loop n target q = None.
Proof.
  revert q. induction n as [|n IH]; intros q Hnin; [done|].
  simpl. destruct q as [|c t]; [done|].
  apply not_elem_of_cons in Hnin as [Hne Hnin].
  rewrite decide_False by done. apply IH.
  simpl. rewrite elem_of_app, list_elem_of_singleton.
  intros [?|?]; [done|by subst].
Qed.

Lemma find_target_split target pre post :
  target ∉ pre →
  find_target target (pre ++ target :: post) = target :: post ++ pre.
Proof.
  intros Hnin. unfold find_target. rewrite find_loop_split; [done|done|].
  rewrite length_app. simpl. lia.
Qed.

Lemma find_target_absent target q : target ∉ q → find_target target q = q.
Proof. intros Hnin. unfold find_target. by rewrite find_loop_none. Qed.

End Find.

(** ** The scheduler invariant *)

Section Invariant.
Context {code mem : Type}.
Implicit Types (H : gmap nat (co code)) (r : co code) (κ : kont code).
Implicit Types (s : state code mem) (cf : config code mem).

Lemma gone_update H n c r r' t :
  H !! c = Some r → (status r = CO_STATUS_DEAD → status r' = CO_STATUS_DEAD) →
  gone H n t → gone (<[c := r']> H) n t.
Proof.
  intros Hc Hd [Hlt Hg]. split; [done|]. intros r0.
  rewrite lookup_insert. case_decide; [|by apply Hg].
  intros [= <-]. subst t. by apply Hd, Hg.
Qed.

Lemma kont_ok_update H n c r r' c0 v κ :
  H !! c = Some r → (status r = CO_STATUS_DEAD → status r' = CO_STATUS_DEAD) →
  kont_ok H n c0 v κ → kont_ok (<[c := r']> H) n c0 v κ.
Proof.
  intros Hc Hd. destruct κ as [b p|b t p|]; simpl; [done| |done].
  intros [Hb Hg]. split; [done|]. intros Hv. by eapply gone_update; eauto.
Qed.

(** Updating one record of a quiescent heap. *)
Lemma Q_update H n c r r' :
  Quiescent H n → H !! c = Some r →
  (c = 0 → func r' = None ∧ status r' ≠ CO_STATUS_NEW ∧ status r' ≠ CO_STATUS_DEAD) →
  (status r = CO_STATUS_DEAD → status r' = CO_STATUS_DEAD) →
  (suspended r' → ∃ κ, context r' = Some κ ∧ kont_ok H n c (status r') κ) →
  (∀ w, waiter r' = Some w → status r' ≠ CO_STATUS_DEAD →
        ∃ rw b k, <[c := r']> H !! w = Some rw ∧ status rw = CO_STATUS_WAITING ∧
                  context rw = Some (KWait b c k)) →
  ((status r' = status r ∧ context r' = context r) ∨
   (∀ x rx, H !! x = Some rx → x ≠ c → waiter rx = Some c →
            status rx = CO_STATUS_DEAD)) →
  Quiescent (<[c := r']> H) n.
Proof.
  intros [Hf Hm Hctx Hw] Hc Hmain Hdead Hown Hwt Hother. split.
  - intros c0. rewrite lookup_insert_is_Some. intros [<-|[_ Hs]]; [|by apply Hf].
    apply Hf. by rewrite Hc.
  - destruct Hm as (r0 & Hr0 & Hm). destruct (decide (c = 0)) as [->|Hne].
    + exists r'. rewrite lookup_insert_eq. split; [done|]. by apply Hmain.
    + exists r0. by rewrite lookup_insert_ne.
  - intros c0 r0. rewrite lookup_insert. case_decide as Hcc.
    + intros [= <-] Hs. subst c0. destruct (Hown Hs) as (κ & Hκ & Hok).
      exists κ. split; [done|]. by eapply kont_ok_update.
    + intros Hr0 Hs. destruct (Hctx c0 r0 Hr0 Hs) as (κ & Hκ & Hok).
      exists κ. split; [done|]. by eapply kont_ok_update.
  - intros x rx w. rewrite lookup_insert. case_decide as Hcx.
    + intros [= <-] Hwx Hlive. subst x. by apply Hwt.
    + intros Hrx Hwx Hlive.
      destruct (Hw x rx w Hrx Hwx Hlive) as (rw & b & k & Hrw & Hst & Hk).
      destruct (decide (c = w)) as [->|Hne].
      * rewrite Hc in Hrw. injection Hrw as <-.
        destruct Hother as [[Hs' Hc']|Hnone].
        -- exists r', b, k. rewrite lookup_insert_eq. split; [done|].
           split; congruence.
        -- exfalso. apply Hlive. eapply Hnone; eauto.
      * exists rw, b, k. by rewrite lookup_insert_ne.
Qed.

Lemma set_context_id r : set_context (context r) r = r.
Proof. by destruct r. Qed.

(** The running coroutine moves on to another point of its code. *)
Lemma Q_set_pc H n cur r κ κ' :
  status r = CO_STATUS_RUNNING →
  Quiescent (<[cur := set_context (Some κ) r]> H) n →
  (kont_ok (<[cur := set_context (Some κ) r]> H) n cur CO_STATUS_RUNNING κ →
   kont_ok (<[cur := set_context (Some κ) r]> H) n cur CO_STATUS_RUNNING κ') →
  Quiescent (<[cur := set_context (Some κ') r]> H) n.
Proof.
  intros Hrun HQ Hk.
  rewrite <- (insert_insert_eq H cur (set_context (Some κ') r) (set_context (Some κ) r)).
  pose proof HQ as [Hf Hm Hctx Hw].
  assert (Hcur : <[cur := set_context (Some κ) r]> H !! cur
                 = Some (set_context (Some κ) r)) by apply lookup_insert_eq.
  eapply Q_update; [done|done|..].
  - intros ->. destruct Hm as (r0 & Hr0 & Hfn & Hn & Hd).
    rewrite Hcur in Hr0. injection Hr0 as <-. simpl in *. by rewrite Hrun.
  - simpl. by rewrite Hrun.
  - intros _. exists κ'. split; [done|]. simpl. rewrite Hrun. apply Hk.
    destruct (Hctx cur _ Hcur) as (κ0 & Hκ0 & Hok); [by left|].
    simpl in *. rewrite Hrun in Hok. by injection Hκ0 as <-.
  - intros w Hwt _. simpl in Hwt.
    destruct (Hw cur _ w Hcur) as (rw & b & k & Hrw & Hst & Hck);
      [done|simpl; by rewrite Hrun|].
    exists rw, b, k. split; [|done].
    rewrite lookup_insert_ne; [done|]. intros <-.
    rewrite Hcur in Hrw. injection Hrw as <-. simpl in Hst. congruence.
  - right. intros x rx Hrx Hne Hwx.
    destruct (decide (status rx = CO_STATUS_DEAD)) as [|Hlive]; [done|].
    destruct (Hw x rx cur Hrx Hwx Hlive) as (rw & b & k & Hrw & Hst & Hck).
    rewrite Hcur in Hrw. injection Hrw as <-. simpl in Hst. congruence.
Qed.

Lemma Q_alloc H n nm f a :
  Quiescent H n →
  Quiescent (<[n := Co nm f a CO_STATUS_NEW None None]> H) (S n).
Proof.
  intros [Hf Hm Hctx Hw].
  assert (Hn : H !! n = None).
  { destruct (H !! n) eqn:E; [|done]. assert (n < n) by (apply Hf; eauto). lia. }
  assert (Hg : ∀ t, gone H n t → gone (<[n := Co nm f a CO_STATUS_NEW None None]> H) (S n) t).
  { intros t [Hlt Hg]. split; [lia|]. intros r0.
    rewrite lookup_insert_ne by lia. apply Hg. }
  assert (Hk : ∀ c v κ, kont_ok H n c v κ →
               kont_ok (<[n := Co nm f a CO_STATUS_NEW None None]> H) (S n) c v κ).
  { intros c v [b p|b t p|]; simpl; [done| |done]. intros [? ?]. split; auto. }
  split.
  - intros c. rewrite lookup_insert_is_Some. intros [<-|[_ Hs]]; [lia|].
    apply Hf in Hs. lia.
  - destruct Hm as (r0 & Hr0 & Hm). exists r0. split; [|done].
    rewrite lookup_insert_ne; [done|]. intros ->. congruence.
  - intros c r0. rewrite lookup_insert. case_decide.
    + intros [= <-]. intros [?|?]; done.
    + intros Hr0 Hs. destruct (Hctx c r0 Hr0 Hs) as (κ & Hκ & Hok). eauto.
  - intros x rx w. rewrite lookup_insert. case_decide.
    + by intros [= <-].
    + intros Hrx Hwx Hlive.
      destruct (Hw x rx w Hrx Hwx Hlive) as (rw & b & k & Hrw & Hst & Hck).
      exists rw, b, k. split; [|done]. rewrite lookup_insert_ne; [done|].
      intros <-. congruence.
Qed.

Lemma Q_delete H n t rt :
  Quiescent H n → H !! t = Some rt → status rt = CO_STATUS_DEAD →
  Quiescent (delete t H) n.
Proof.
  intros [Hf Hm Hctx Hw] Ht Hdead.
  assert (Hk : ∀ c v κ, kont_ok H n c v κ → kont_ok (delete t H) n c v κ).
  { intros c v [b p|b t' p|]; simpl; [done| |done]. intros [? Hg].
    split; [done|]. intros Hv. destruct (Hg Hv) as [Hlt Hg']. split; [done|].
    intros r0. rewrite lookup_delete. case_decide; [done|]. apply Hg'. }
  split.
  - intros c. rewrite lookup_delete_is_Some. intros [_ Hs]. by apply Hf.
  - destruct Hm as (r0 & Hr0 & Hfn & Hn & Hd). exists r0. split; [|done].
    rewrite lookup_delete_ne; [done|]. intros ->. congruence.
  - intros c r0. rewrite lookup_delete_Some. intros [Hne Hr0] Hs.
    destruct (Hctx c r0 Hr0 Hs) as (κ & Hκ & Hok). eauto.
  - intros x rx w. rewrite lookup_delete_Some. intros [Hne Hrx] Hwx Hlive.
    destruct (Hw x rx w Hrx Hwx Hlive) as (rw & b & k & Hrw & Hst & Hck).
    exists rw, b, k. split; [|done]. rewrite lookup_delete_ne; [done|].
    intros <-. congruence.
Qed.

Lemma switch_to_inv c s cf' :
  NoDup (co_queue s) → (∀ x, x ∈ co_queue s ↔ is_Some (heap s !! x)) →
  Quiescent (heap s) (next_addr s) →
  switch_to c s = Next cf' → Inv cf'.
Proof.
  intros Hnd Hring HQ. unfold switch_to. simpl.
  destruct (heap s !! c) as [rc|] eqn:Hc; [|done].
  case_decide as Hrun.
  - destruct (context rc) as [κ|] eqn:Hκ; [|done].
    intros [= <-]. split; simpl; [done|done|].
    exists c, rc. split; [done|]. split; [done|]. split; [done|].
    rewrite <- Hκ, set_context_id. by rewrite insert_id.
  - case_decide as Hnew; [|done].
    destruct (func rc) as [f|] eqn:Hf; [|done].
    intros [= <-]. split; simpl; [done| |].
    + intros x. rewrite Hring, lookup_insert_is_Some.
      split; [|intros [<-|[_ ?]]; eauto].
      intros Hx. destruct (decide (c = x)); [by left|by right].
    + exists c, (set_status CO_STATUS_RUNNING rc). rewrite lookup_insert_eq.
      split; [done|]. split; [done|]. split; [done|].
      rewrite insert_insert_eq. pose proof HQ as [Hfr Hm Hctx Hw].
      assert (Hc0 : c ≠ 0).
      { intros ->. destruct Hm as (r0 & Hr0 & _ & Hn & _). congruence. }
      eapply Q_update; [done|done|..].
      * done.
      * congruence.
      * intros _. eexists. split; [done|]. simpl. split; [done|]. by intros ->.
      * intros w Hwt _. simpl in Hwt.
        destruct (Hw c rc w Hc Hwt) as (rw & b & k & Hrw & Hst & Hck); [congruence|].
        exists rw, b, k. split; [|done]. rewrite lookup_insert_ne; [done|].
        intros <-. congruence.
      * right. intros x rx Hrx Hne Hwx.
        destruct (decide (status rx = CO_STATUS_DEAD)) as [|Hlive]; [done|].
        destruct (Hw x rx c Hrx Hwx Hlive) as (rw & b & k & Hrw & Hst & Hck).
        congruence.
Qed.

Lemma co_yield_inv κ s cur r cf' :
  NoDup (co_queue s) → (∀ x, x ∈ co_queue s ↔ is_Some (heap s !! x)) →
  current_co s = Some cur → heap s !! cur = Some r →
  Quiescent (<[cur := set_context (Some κ) r]> (heap s)) (next_addr s) →
  co_yield κ s = Next cf' → Inv cf'.
Proof.
  intros Hnd Hring Hcur Hr HQ. unfold co_yield, store. rewrite Hcur, Hr. simpl.
  destruct (scan _ (co_queue s)) as [c q|q|] eqn:Hscan; [|done|done].
  apply scan_perm in Hscan as [Hperm _].
  apply switch_to_inv; simpl.
  - by rewrite Hperm.
  - intros x. rewrite Hperm, Hring, lookup_insert_is_Some.
    split; [|intros [<-|[_ ?]]; eauto].
    intros Hx. destruct (decide (cur = x)); [by left|by right].
  - done.
Qed.

Lemma reclaim_ok target s s' :
  reclaim target s = Ok s' →
  ∃ pre post rt,
    co_queue s = pre ++ target :: post ∧ (target ∉ pre) ∧
    heap s !! target = Some rt ∧
    s' = State (delete target (heap s)) (next_addr s) (post ++ pre)
               (current_co s) (umem s) (EvFree target :: trace s).
Proof.
  unfold reclaim. simpl.
  destruct (decide (target ∈ co_queue s)) as [Hin|Hnin].
  - apply list_elem_of_split_l in Hin as (pre & post & Hq & Hpre).
    rewrite Hq. rewrite find_target_split by done. rewrite decide_True by done.
    destruct (heap s !! target) as [rt|] eqn:Ht; [|done].
    unfold co_queue_remove. simpl. intros [= <-].
    by exists pre, post, rt.
  - rewrite find_target_absent by done.
    destruct (co_queue s) as [|c t] eqn:Hq; [done|].
    case_decide as Hc; [|done]. subst c. exfalso. apply Hnin. by left.
Qed.

Lemma reclaim_inv b k κ target s s' :
  Inv (Config s κ) →
  (∀ rt, heap s !! target = Some rt → status rt = CO_STATUS_DEAD) →
  (∀ H n c, kont_ok H n c CO_STATUS_RUNNING κ →
            kont_ok H n c CO_STATUS_RUNNING (KRun b k)) →
  reclaim target s = Ok s' → Inv (Config s' (KRun b k)).
Proof.
  intros [Hnd Hring (cur & r & Hcur & Hr & Hrun & HQ)] Hdead Hk Hrec.
  simpl in *.
  apply reclaim_ok in Hrec as (pre & post & rt & Hq & Hpre & Ht & ->).
  specialize (Hdead rt Ht).
  assert (Hne : target ≠ cur) by (intros ->; congruence).
  rewrite Hq in Hnd.
  assert (Hnd' : NoDup (target :: post ++ pre)).
  { by rewrite (Permutation_app_comm pre (target :: post)) in Hnd. }
  apply NoDup_cons in Hnd' as [Hnt Hnd'].
  split; simpl.
  - done.
  - intros c. rewrite lookup_delete_is_Some, <- Hring, Hq.
    rewrite !elem_of_app, !elem_of_cons.
    split.
    + intros Hc. split; [|tauto]. intros <-. apply Hnt. by apply elem_of_app.
    + intros [Hc [?|[?|?]]]; [tauto|congruence|tauto].
  - exists cur, r. split; [done|]. rewrite lookup_delete_ne by done.
    split; [done|]. split; [done|].
    rewrite <- delete_insert_ne by done.
    eapply Q_delete; [|by rewrite lookup_insert_ne|done].
    eapply Q_set_pc; [done|done|]. apply Hk.
Qed.

Lemma insert_is_Some_iff H c r r' x :
  H !! c = Some r → is_Some (<[c := r']> H !! x) ↔ is_Some (H !! x).
Proof.
  intros Hc. rewrite lookup_insert_is_Some. split.
  - intros [<-|[_ ?]]; eauto.
  - intros Hx. destruct (decide (c = x)); [by left|by right].
Qed.

Lemma co_start_eq nm f a s :
  co_start nm f a s =
    (next_addr s,
     State (<[next_addr s := Co nm f a CO_STATUS_NEW None None]> (heap s))
           (S (next_addr s)) (co_queue s ++ [next_addr s]) (current_co s)
           (umem s) (EvSpawn (next_addr s) f a :: trace s)).
Proof. unfold co_start, co_queue_insert. simpl. by destruct (co_queue s). Qed.

Lemma co_start_inv b p k nm f a s h s' :
  Inv (Config s (KRun b p)) → co_start nm f a s = (h, s') →
  Inv (Config s' (KRun b (k h))).
Proof.
  intros [Hnd Hring (cur & r & Hcur & Hr & Hrun & HQ)].
  rewrite co_start_eq. intros [= <- <-]. simpl in *.
  assert (Hfresh : heap s !! next_addr s = None).
  { destruct (heap s !! next_addr s) as [r0|] eqn:E; [|done].
    assert (next_addr s < next_addr s); [|lia].
    apply (q_fresh _ _ HQ). rewrite lookup_insert_is_Some.
    destruct (decide (cur = next_addr s)); [by left|right; eauto]. }
  assert (Hne : cur ≠ next_addr s) by (intros ->; congruence).
  split; simpl.
  - apply NoDup_app. split; [done|]. split; [|apply NoDup_singleton].
    intros x Hx. rewrite list_elem_of_singleton. intros ->.
    apply Hring in Hx as [? ?]. congruence.
  - intros c. rewrite elem_of_app, list_elem_of_singleton, Hring.
    rewrite lookup_insert_is_Some. split.
    + intros [Hc| ->]; [|by left]. right. split; [|done].
      intros <-. destruct Hc. congruence.
    + intros [<-|[_ ?]]; [by right|by left].
  - exists cur, r. split; [done|]. rewrite lookup_insert_ne by done.
    split; [done|]. split; [done|].
    rewrite insert_insert_ne by done. apply Q_alloc.
    eapply Q_set_pc; [done|done|]. done.
Qed.

Lemma co_exit_inv s p cf' :
  Inv (Config s (KRun InEntry p)) → co_exit s = Next cf' → Inv cf'.
Proof.
  intros [Hnd Hring (cur & r & Hcur & Hr & Hrun & HQ)]. simpl in *.
  unfold co_exit. rewrite Hcur, Hr.
  set (H := heap s) in *. set (n := next_addr s) in *.
  set (rD := set_context (Some KDead) (set_status CO_STATUS_DEAD r)).
  pose proof HQ as [Hf Hm Hctx Hw].
  assert (Hcur' : <[cur := set_context (Some (KRun InEntry p)) r]> H !! cur
                  = Some (set_context (Some (KRun InEntry p)) r))
    by apply lookup_insert_eq.
  assert (Hc0 : cur ≠ 0).
  { destruct (Hctx cur _ Hcur') as (κ0 & Hκ0 & Hok); [by left|].
    injection Hκ0 as <-. simpl in Hok. intros ->. by destruct Hok as [_ Hok];
    specialize (Hok eq_refl). }
  assert (Hnow : ∀ x rx, <[cur := set_context (Some (KRun InEntry p)) r]> H !! x = Some rx →
            waiter rx = Some cur → status rx = CO_STATUS_DEAD).
  { intros x rx Hrx Hwx.
    destruct (decide (status rx = CO_STATUS_DEAD)) as [|Hlive]; [done|].
    destruct (Hw x rx cur Hrx Hwx Hlive) as (rw & b & k & Hrw & Hst & Hck).
    rewrite Hcur' in Hrw. injection Hrw as <-. simpl in Hst. congruence. }
  assert (HQ1 : Quiescent (<[cur := rD]> H) n).
  { rewrite <- (insert_insert_eq H cur rD (set_context (Some (KRun InEntry p)) r)).
    eapply Q_update; [exact HQ|exact Hcur'|..].
    - done.
    - done.
    - intros [?|?]; done.
    - intros w _ Hd. by destruct Hd.
    - right. intros x rx Hrx _ Hwx. by eapply Hnow. }
  destruct (waiter r) as [w|] eqn:Hwr.
  - destruct (Hw cur _ w Hcur') as (rw & b & k & Hrw & Hst & Hck);
      [done|simpl; congruence|].
    assert (Hne : cur ≠ w).
    { intros <-. rewrite Hcur' in Hrw. injection Hrw as <-. simpl in Hst. congruence. }
    rewrite lookup_insert_ne in Hrw by done.
    unfold store. simpl. fold H. rewrite lookup_insert_ne by done. rewrite Hrw.
    intros Hy. eapply co_yield_inv in Hy; [done|..]; simpl; fold H.
    + done.
    + intros x. rewrite Hring.
      rewrite (insert_is_Some_iff _ w rw); [|by rewrite lookup_insert_ne].
      by rewrite (insert_is_Some_iff _ cur r).
    + done.
    + rewrite lookup_insert_ne by done. apply lookup_insert_eq.
    + fold n. rewrite (insert_insert_ne _ cur w) by done.
      rewrite insert_insert_eq. fold rD.
      assert (Hrw1 : <[cur := rD]> H !! w = Some rw) by (by rewrite lookup_insert_ne).
      pose proof HQ1 as [Hf1 Hm1 Hctx1 Hw1].
      eapply Q_update; [exact HQ1|exact Hrw1|..].
      * intros ->. destruct Hm1 as (r0 & Hr0 & Hfn & _).
        rewrite Hrw1 in Hr0. injection Hr0 as <-. done.
      * congruence.
      * intros _. exists (KWait b cur k). split; [done|]. simpl.
        destruct (Hctx1 w rw Hrw1) as (κ0 & Hκ0 & Hok); [by right|].
        rewrite Hck in Hκ0. injection Hκ0 as <-. simpl in Hok.
        split; [apply Hok|]. intros _. split.
        -- apply Hf1. rewrite lookup_insert_eq. eauto.
        -- intros r0. rewrite lookup_insert_eq. by intros [= <-].
      * intros w2 Hw2 _. simpl in Hw2.
        destruct (Hw1 w rw w2 Hrw1 Hw2) as (rw2 & b2 & k2 & Hrw2 & Hst2 & Hck2);
          [congruence|].
        exists rw2, b2, k2. split; [|done]. rewrite lookup_insert_ne; [done|].
        intros <-. rewrite Hrw1 in Hrw2. injection Hrw2 as <-. congruence.
      * right. intros x rx Hrx Hxw Hwx.
        destruct (decide (status rx = CO_STATUS_DEAD)) as [|Hlive]; [done|].
        destruct (Hw1 x rx w Hrx Hwx Hlive) as (rw' & b' & k' & Hrw' & Hst' & Hck').
        rewrite Hrw1 in Hrw'. injection Hrw' as <-.
        assert (x = cur) as -> by congruence.
        rewrite lookup_insert_eq in Hrx. injection Hrx as <-. by destruct Hlive.
  - intros Hy. eapply co_yield_inv in Hy; [done|..]; simpl; fold H.
    + done.
    + intros x. rewrite Hring. by rewrite (insert_is_Some_iff _ cur r).
    + done.
    + apply lookup_insert_eq.
    + rewrite insert_insert_eq. done.
Qed.

Lemma co_wait_inv b p target k s cf' :
  Inv (Config s (KRun b p)) → co_wait b target k s = Next cf' → Inv cf'.
Proof.
  intros HInv. unfold co_wait.
  destruct (heap s !! target) as [rt|] eqn:Ht; [|done].
  case_decide as Hlive; cycle 1.
  { unfold resume_wait. destruct (reclaim target s) as [s'| |] eqn:Hrec; [|done|done].
    intros [= <-]. eapply reclaim_inv; [exact HInv| | |exact Hrec].
    - intros rt' Hrt'. rewrite Ht in Hrt'. injection Hrt' as <-.
      by destruct (decide (status rt = CO_STATUS_DEAD)).
    - done. }
  destruct HInv as [Hnd Hring (cur & r & Hcur & Hr & Hrun & HQ)]. simpl in *.
  set (H := heap s) in *. set (n := next_addr s) in *.
  set (κ := KRun b p) in *. set (κ' := KWait b target k).
  pose proof HQ as [Hf Hm Hctx Hw].
  assert (Hcur' : <[cur := set_context (Some κ) r]> H !! cur
                  = Some (set_context (Some κ) r)) by apply lookup_insert_eq.
  assert (Hbase : b = InMain ↔ cur = 0).
  { destruct (Hctx cur _ Hcur') as (κ0 & Hκ0 & Hok); [by left|].
    injection Hκ0 as <-. done. }
  assert (Hnow : ∀ x rx, <[cur := set_context (Some κ) r]> H !! x = Some rx →
            waiter rx = Some cur → status rx = CO_STATUS_DEAD).
  { intros x rx Hrx Hwx.
    destruct (decide (status rx = CO_STATUS_DEAD)) as [|Hl]; [done|].
    destruct (Hw x rx cur Hrx Hwx Hl) as (rw & b' & k' & Hrw & Hst & Hck).
    rewrite Hcur' in Hrw. injection Hrw as <-. simpl in Hst. congruence. }
  assert (Hmain : cur = 0 → func r = None).
  { intros ->. destruct Hm as (r0 & Hr0 & Hfn & _).
    rewrite Hcur' in Hr0. by injection Hr0 as <-. }
  unfold store. simpl. fold H. rewrite Ht. simpl. rewrite Hcur.
  destruct (decide (target = cur)) as [->|Hne].
  - rewrite lookup_insert_eq. rewrite Hr in Ht. injection Ht as <-.
    intros Hy. eapply co_yield_inv in Hy; [done|..]; simpl; fold H.
    + done.
    + intros x. rewrite Hring. rewrite insert_insert_eq.
      by rewrite (insert_is_Some_iff _ cur r).
    + done.
    + apply lookup_insert_eq.
    + rewrite !insert_insert_eq. fold n.
      match goal with |- Quiescent (<[_ := ?x]> _) _ => set (rF := x) end.
      rewrite <- (insert_insert_eq H cur rF (set_context (Some κ) r)).
      eapply Q_update; [exact HQ|exact Hcur'|..].
      * intros Hc. split; [by apply Hmain|]. done.
      * simpl. congruence.
      * intros _. exists κ'. split; [done|]. simpl. split; [done|]. done.
      * intros w Hwt _. simpl in Hwt. injection Hwt as <-.
        exists rF, b, k. by rewrite lookup_insert_eq.
      * right. intros x rx Hrx _ Hwx. by eapply Hnow.
  - rewrite lookup_insert_ne by done. rewrite Hr.
    intros Hy. eapply co_yield_inv in Hy; [done|..]; simpl; fold H.
    + done.
    + intros x. rewrite Hring.
      rewrite (insert_is_Some_iff _ cur r); [|by rewrite lookup_insert_ne].
      by rewrite (insert_is_Some_iff _ target rt).
    + done.
    + apply lookup_insert_eq.
    + rewrite insert_insert_eq. fold n.
      rewrite (insert_insert_ne _ cur target) by done.
      match goal with |- Quiescent (<[_ := _]> (<[_ := ?x]> _)) _ => set (rW := x) end.
      assert (HQ1 : Quiescent (<[cur := rW]> H) n).
      { rewrite <- (insert_insert_eq H cur rW (set_context (Some κ) r)).
        eapply Q_update; [exact HQ|exact Hcur'|..].
        - intros Hc. split; [by apply Hmain|]. done.
        - simpl. congruence.
        - intros _. exists κ'. split; [done|]. simpl. split; [done|]. done.
        - intros w Hwt _. simpl in Hwt.
          destruct (Hw cur _ w Hcur') as (rw & b' & k' & Hrw & Hst & Hck);
            [done|simpl; congruence|].
          exists rw, b', k'. split; [|done]. rewrite lookup_insert_ne; [done|].
          intros <-. rewrite Hcur' in Hrw. injection Hrw as <-. simpl in Hst.
          congruence.
        - right. intros x rx Hrx _ Hwx. by eapply Hnow. }
      assert (Ht1 : <[cur := rW]> H !! target = Some rt) by (by rewrite lookup_insert_ne).
      pose proof HQ1 as [Hf1 Hm1 Hctx1 Hw1].
      eapply Q_update; [exact HQ1|exact Ht1|..].
      * intros ->. destruct Hm1 as (r0 & Hr0 & Hm1).
        rewrite Ht1 in Hr0. by injection Hr0 as <-.
      * done.
      * intros Hs. by apply (Hctx1 target rt Ht1).
      * intros w Hwt _. simpl in Hwt. injection Hwt as <-.
        exists rW, b, k. split; [|done].
        rewrite lookup_insert_ne by done. apply lookup_insert_eq.
      * by left.
Qed.

Section Step.
Context (fetch : code → mem → mem * instr code).

Lemma Inv_set_umem m s κ : Inv (Config s κ) → Inv (Config (set_umem m s) κ).
Proof. intros [? ? ?]. by split. Qed.

(** Every step of the machine preserves the invariant. *)
Lemma step_inv cf cf' : Inv cf → step fetch cf = Next cf' → Inv cf'.
Proof.
  destruct cf as [s κ]. intros HInv. unfold step. simpl.
  destruct κ as [b p|b target k|].
  - destruct (fetch p (umem s)) as [m i] eqn:Hfetch.
    apply (Inv_set_umem m) in HInv.
    destruct i as [|k|h k|nm f a k].
    + destruct b; [done|]. by apply co_exit_inv with (p := p).
    + destruct HInv as [Hnd Hring (cur & r & Hcur & Hr & Hrun & HQ)].
      intros Hy. eapply co_yield_inv in Hy; [done|done|done|done|done|].
      eapply Q_set_pc; [done|exact HQ|]. done.
    + by apply co_wait_inv with (p := p).
    + destruct (co_start nm f a (set_umem m s)) as [h s'] eqn:Hstart.
      intros [= <-]. by eapply co_start_inv.
  - unfold resume_wait.
    destruct (reclaim target s) as [s'| |] eqn:Hrec; [|done|done].
    intros [= <-]. eapply reclaim_inv; [exact HInv| | |exact Hrec].
    + destruct HInv as [Hnd Hring (cur & r & Hcur & Hr & Hrun & HQ)]. simpl in *.
      intros rt Hrt.
      destruct (q_ctx _ _ HQ cur (set_context (Some (KWait b target k)) r))
        as (κ0 & Hκ0 & Hok); [apply lookup_insert_eq|by left|].
      injection Hκ0 as <-. simpl in Hok. destruct Hok as [_ Hg].
      destruct (Hg Hrun) as [_ Hgone]. apply Hgone.
      rewrite lookup_insert_ne; [done|]. intros <-.
      specialize (Hgone _ (lookup_insert_eq _ _ _)). simpl in Hgone. congruence.
    + intros H n c [? _]. done.
  - done.
Qed.

Lemma boot_eq (m : mem) :
  boot m = State (code := code)
                 {[0 := Co "main" None 0%Z CO_STATUS_RUNNING None None]} 1 [0]
                 (Some 0) m [EvSpawn 0 None 0%Z].
Proof.
  unfold boot, co_initialize. rewrite co_start_eq. unfold store. simpl.
  rewrite lookup_insert_eq. simpl. rewrite insert_insert_eq. done.
Qed.

Lemma init_inv m main : Inv (@init code mem m main).
Proof.
  unfold init. rewrite boot_eq. split; simpl.
  - apply NoDup_singleton.
  - intros c. rewrite list_elem_of_singleton, lookup_singleton_is_Some. done.
  - eexists 0, _. split; [done|]. split; [apply lookup_singleton_eq|].
    split; [done|]. rewrite insert_singleton_eq. split.
    + intros c. rewrite lookup_singleton_is_Some. intros <-. lia.
    + eexists. split; [apply lookup_singleton_eq|]. done.
    + intros c r. rewrite lookup_singleton_Some. intros [<- <-] _.
      eexists. split; [done|]. done.
    + intros x r w. rewrite lookup_singleton_Some. by intros [<- <-].
Qed.

Lemma run_inv n cf cf' : Inv cf → run fetch n cf = Next cf' → Inv cf'.
Proof.
  revert cf. induction n as [|n IH]; intros cf HInv; simpl.
  - by intros [= <-].
  - destruct (step fetch cf) as [cf1| | | |] eqn:Hstep; try done.
    apply IH. by eapply step_inv.
Qed.

End Step.

End Invariant.

(** ** The history of entry-function calls *)

Section History.
Context {code mem : Type}.
Implicit Types (H : gmap nat (co code)) (r : co code) (T : list (event code)).
Implicit Types (s : state code mem) (cf : config code mem).

Lemma TInv_lt H n T c r : TInv H n T → H !! c = Some r → c < n.
Proof.
  intros [Hu _ Hl _] Hc. destruct (decide (c < n)) as [|Hge]; [done|].
  destruct (Hu c) as (Hs & _); [lia|].
  destruct (Hl c r Hc) as (Hs' & _). congruence.
Qed.

Lemma T_update H n T c r r' :
  TInv H n T → H !! c = Some r →
  func r' = func r → arg r' = arg r →
  (status r' = CO_STATUS_NEW ↔ status r = CO_STATUS_NEW) →
  (status r' = CO_STATUS_DEAD ↔ status r = CO_STATUS_DEAD) →
  TInv (<[c := r']> H) n T.
Proof.
  intros [Hu Hm Hl Hfr] Hc Hf Ha Hn Hd. split.
  - done.
  - destruct Hm as (r0 & Hr0 & Hf0 & Hn0 & Hd0).
    destruct (decide (c = 0)) as [->|Hne].
    + exists r'. rewrite lookup_insert_eq. split; [done|].
      rewrite Hc in Hr0. injection Hr0 as <-. split; [congruence|]. tauto.
    + exists r0. by rewrite lookup_insert_ne.
  - intros c0 r0. rewrite lookup_insert. case_decide as Hcc.
    + intros [= <-]. subst c0. destruct (Hl c r Hc) as (Hs & Hnew & Hold & Hdd).
      rewrite Hf, Ha. split; [done|]. split; [|split].
      * intros [?|?]; apply Hnew; tauto.
      * intros ? ?. apply Hold; tauto.
      * intros ?. apply Hd. by apply Hdd.
    + apply Hl.
  - intros c0 Hlt. rewrite lookup_insert_None. intros [? ?]. by apply Hfr.
Qed.

Lemma T_log H n T (e : event code) :
  TInv H n T → (∀ c, calls c (e :: T) = calls c T) →
  (∀ c, spawns c (e :: T) = spawns c T) → (∀ c, e ≠ EvDead c) →
  TInv H n (e :: T).
Proof.
  intros [Hu Hm Hl Hfr] Hc Hs He.
  assert (Hdied : ∀ c, died c (e :: T) ↔ died c T).
  { intros c. unfold died. rewrite elem_of_cons. split; [|by right].
    intros [?|?]; [|done]. by destruct (He c). }
  split.
  - intros c Hge. rewrite Hc, Hs, Hdied. by apply Hu.
  - done.
  - intros c r Hr. rewrite Hc, Hs, Hdied. by apply Hl.
  - intros c Hlt Hnone. rewrite Hc, Hs. by apply Hfr.
Qed.

Lemma T_dead H n T c r :
  TInv H n T → H !! c = Some r → c ≠ 0 → status r ≠ CO_STATUS_NEW →
  TInv (<[c := set_status CO_STATUS_DEAD r]> H) n (EvDead c :: T).
Proof.
  intros HT Hc Hc0 Hnn. pose proof (TInv_lt _ _ _ _ _ HT Hc) as Hlt.
  destruct HT as [Hu Hm Hl Hfr].
  assert (Hdied : ∀ c0, c0 ≠ c → died c0 (EvDead c :: T) ↔ died c0 T).
  { intros c0 Hne. unfold died. rewrite elem_of_cons. split; [|by right].
    intros [[= ?]|?]; done. }
  split.
  - intros c0 Hge. simpl. rewrite Hdied by lia. by apply Hu.
  - destruct Hm as (r0 & Hr0 & Hm). exists r0. by rewrite lookup_insert_ne.
  - intros c0 r0. rewrite lookup_insert. case_decide as Hcc.
    + intros [= <-]. subst c0. simpl.
      destruct (Hl c r Hc) as (Hs & Hnew & Hold & Hdd).
      split; [done|]. split; [|split].
      * intros [?|?]; done.
      * intros _ _. by apply Hold.
      * done.
    + intros Hr0. simpl. rewrite Hdied by done. by apply Hl.
  - intros c0 Hlt0. rewrite lookup_insert_None. intros [? ?]. simpl. by apply Hfr.
Qed.

Lemma T_call H n T c r f :
  TInv H n T → H !! c = Some r → status r = CO_STATUS_NEW → func r = Some f →
  TInv (<[c := set_status CO_STATUS_RUNNING r]> H) n (EvCall c f (arg r) :: T).
Proof.
  intros HT Hc Hnew Hf. pose proof (TInv_lt _ _ _ _ _ HT Hc) as Hlt.
  destruct HT as [Hu Hm Hl Hfr].
  assert (Hc0 : c ≠ 0).
  { intros ->. destruct Hm as (r0 & Hr0 & _ & Hn0 & _). congruence. }
  assert (Hdied : ∀ c0, died c0 (EvCall c f (arg r) :: T) ↔ died c0 T).
  { intros c0. unfold died. rewrite elem_of_cons. split; [|by right].
    intros [?|?]; done. }
  split.
  - intros c0 Hge. simpl. rewrite decide_False by lia. rewrite Hdied. by apply Hu.
  - destruct Hm as (r0 & Hr0 & Hm). exists r0. by rewrite lookup_insert_ne.
  - intros c0 r0. rewrite lookup_insert. case_decide as Hcc.
    + intros [= <-]. subst c0. simpl. rewrite decide_True by done.
      destruct (Hl c r Hc) as (Hs & Hn & Hold & Hdd).
      destruct Hn as [Hcalls Hnd]; [by left|].
      split; [done|]. split; [|split].
      * intros [?|?]; done.
      * intros _ _. exists f. by rewrite Hcalls.
      * rewrite Hdied. done.
    + intros Hr0. simpl. rewrite decide_False by done. rewrite Hdied. by apply Hl.
  - intros c0 Hlt0. rewrite lookup_insert_None. intros [? ?]. simpl.
    rewrite decide_False by done. by apply Hfr.
Qed.

Lemma T_free H n T t rt :
  TInv H n T → H !! t = Some rt → status rt = CO_STATUS_DEAD → t ≠ 0 →
  TInv (delete t H) n (EvFree t :: T).
Proof.
  intros HT Ht Hd Ht0. apply T_log; [|done|done|done].
  pose proof (TInv_lt _ _ _ _ _ HT Ht) as Hlt.
  destruct HT as [Hu Hm Hl Hfr]. split.
  - done.
  - destruct Hm as (r0 & Hr0 & Hm). exists r0. by rewrite lookup_delete_ne.
  - intros c r. rewrite lookup_delete_Some. intros [_ Hr]. by apply Hl.
  - intros c Hc. rewrite lookup_delete_None. intros [<-|Hnone]; [|by apply Hfr].
    destruct (Hl t rt Ht) as (Hs & _ & Hold & _).
    destruct Hold as (f & Hf & Hcalls); [congruence|done|].
    exists f, (arg rt). by rewrite Hs, Hf.
Qed.

Lemma T_alloc H n T nm f a :
  TInv H n T →
  TInv (<[n := Co nm f a CO_STATUS_NEW None None]> H) (S n) (EvSpawn n f a :: T).
Proof.
  intros HT.
  assert (Hn : H !! n = None).
  { destruct (H !! n) as [r|] eqn:E; [|done].
    pose proof (TInv_lt _ _ _ _ _ HT E). lia. }
  destruct HT as [Hu Hm Hl Hfr].
  assert (Hdied : ∀ c0, died c0 (EvSpawn n f a :: T) ↔ died c0 T).
  { intros c0. unfold died. rewrite elem_of_cons. split; [|by right].
    intros [?|?]; done. }
  destruct (Hu n) as (Hsn & Hcn & Hdn); [lia|].
  split.
  - intros c Hge. simpl. rewrite decide_False by lia. rewrite Hdied.
    apply Hu. lia.
  - destruct Hm as (r0 & Hr0 & Hm). exists r0. split; [|done].
    rewrite lookup_insert_ne; [done|]. intros ->. congruence.
  - intros c r. rewrite lookup_insert. case_decide as Hcc.
    + intros [= <-]. subst c. simpl. rewrite decide_True by done.
      rewrite Hsn, Hdied. split; [done|]. split; [done|]. split; [done|]. done.
    + intros Hr. simpl. rewrite decide_False by done. rewrite Hdied. by apply Hl.
  - intros c Hlt. rewrite lookup_insert_None. intros [Hnone Hne]. simpl.
    rewrite decide_False by done. apply Hfr; [lia|done].
Qed.

End History.

(** ** What the invariant says about a running machine *)

Section Facts.
Context {code mem : Type}.
Implicit Types (r : co code) (κ : kont code).
Implicit Types (s : state code mem) (cf : config code mem).

Lemma Inv_cur s κ :
  Inv (Config s κ) →
  ∃ cur r, current_co s = Some cur ∧ heap s !! cur = Some r ∧
           status r = CO_STATUS_RUNNING.
Proof. intros [_ _ (cur & r & ? & ? & ? & _)]. by exists cur, r. Qed.

(** A live record with a registered waiter: the waiter is live, is not
    the running coroutine, is WAITING and sits in [co_wait] of that
    very record. *)
Lemma Inv_wait s κ x rx w :
  Inv (Config s κ) → heap s !! x = Some rx → waiter rx = Some w →
  status rx ≠ CO_STATUS_DEAD →
  ∃ rw b k, heap s !! w = Some rw ∧ status rw = CO_STATUS_WAITING ∧
            context rw = Some (KWait b x k) ∧ current_co s ≠ Some w.
Proof.
  intros [_ _ (cur & r & Hcur & Hr & Hrun & HQ)] Hx Hw Hlive. simpl in *.
  set (H' := <[cur := set_context (Some κ) r]> (heap s)) in *.
  assert (∃ rx', H' !! x = Some rx' ∧ waiter rx' = Some w ∧
                 status rx' ≠ CO_STATUS_DEAD) as (rx' & Hx' & Hw' & Hl').
  { unfold H'. destruct (decide (cur = x)) as [->|Hne].
    - rewrite lookup_insert_eq. eexists. split; [done|].
      rewrite Hr in Hx. by injection Hx as <-.
    - rewrite lookup_insert_ne by done. eauto. }
  destruct (q_wait _ _ HQ x rx' w Hx' Hw' Hl') as (rw & b & k & Hrw & Hst & Hck).
  assert (Hne : cur ≠ w).
  { intros <-. unfold H' in Hrw. rewrite lookup_insert_eq in Hrw.
    injection Hrw as <-. simpl in Hst. congruence. }
  unfold H' in Hrw. rewrite lookup_insert_ne in Hrw by done.
  exists rw, b, k. split; [done|]. split; [done|]. split; [done|]. congruence.
Qed.

(** The primordial record is live, has no entry function and is
    neither NEW nor DEAD. *)
Lemma Inv_main s κ :
  Inv (Config s κ) →
  ∃ r0, heap s !! 0 = Some r0 ∧ func r0 = None ∧
        status r0 ≠ CO_STATUS_NEW ∧ status r0 ≠ CO_STATUS_DEAD.
Proof.
  intros [_ _ (cur & r & Hcur & Hr & Hrun & HQ)]. simpl in *.
  destruct (q_main _ _ HQ) as (r0 & Hr0 & Hf & Hn & Hd).
  destruct (decide (cur = 0)) as [->|Hne].
  - rewrite lookup_insert_eq in Hr0. injection Hr0 as <-. simpl in *.
    exists r. done.
  - rewrite lookup_insert_ne in Hr0 by done. by exists r0.
Qed.

(** The bottom frame of the running coroutine is [main] exactly when
    it is the primordial one. *)
Lemma Inv_base s b p :
  Inv (Config s (KRun b p)) → b = InMain ↔ current_co s = Some 0.
Proof.
  intros [_ _ (cur & r & Hcur & Hr & Hrun & HQ)]. simpl in *.
  destruct (q_ctx _ _ HQ cur (set_context (Some (KRun b p)) r))
    as (κ0 & Hκ0 & Hok); [apply lookup_insert_eq|by left|].
  injection Hκ0 as <-. simpl in Hok. rewrite Hcur, Hok.
  split; [by intros ->|by intros [= ->]].
Qed.

(** A coroutine that is back in [co_wait] after its [co_yield] waits
    for a record that is dead or already freed. *)
Lemma Inv_resumed s b target k :
  Inv (Config s (KWait b target k)) →
  current_co s ≠ Some target ∧
  ∀ rt, heap s !! target = Some rt → status rt = CO_STATUS_DEAD.
Proof.
  intros [_ _ (cur & r & Hcur & Hr & Hrun & HQ)]. simpl in *.
  destruct (q_ctx _ _ HQ cur (set_context (Some (KWait b target k)) r))
    as (κ0 & Hκ0 & Hok); [apply lookup_insert_eq|by left|].
  injection Hκ0 as <-. simpl in Hok. destruct Hok as [_ Hg].
  destruct (Hg Hrun) as [_ Hgone].
  assert (Hne : cur ≠ target).
  { intros <-. specialize (Hgone _ (lookup_insert_eq _ _ _)). simpl in Hgone.
    congruence. }
  split; [congruence|]. intros rt Hrt. apply Hgone. by rewrite lookup_insert_ne.
Qed.

(** Every suspended coroutine has a saved continuation that can be
    resumed. *)
Lemma Inv_suspended s κ c r :
  Inv (Config s κ) → heap s !! c = Some r → current_co s ≠ Some c →
  suspended r → ∃ κ', context r = Some κ' ∧ κ' ≠ KDead.
Proof.
  intros [_ _ (cur & rc & Hcur & Hr & Hrun & HQ)] Hc Hne Hs. simpl in *.
  destruct (q_ctx _ _ HQ c r) as (κ0 & Hκ0 & Hok); [|done|].
  { rewrite lookup_insert_ne; [done|]. congruence. }
  exists κ0. split; [done|]. by intros ->.
Qed.

End Facts.

Section HistoryStep.
Context {code mem : Type} (fetch : code → mem → mem * instr code).
Implicit Types (r : co code) (κ : kont code).
Implicit Types (s : state code mem) (cf : config code mem).

Lemma switch_to_tinv c s : TInv_st s → out_sat TInv_st (switch_to c s).
Proof.
  intros HT. unfold switch_to. simpl.
  destruct (heap s !! c) as [rc|] eqn:Hc; [|done].
  case_decide as Hrun.
  - destruct (context rc) as [κ|]; [|done]. simpl. unfold TInv_st. simpl.
    by apply T_log.
  - case_decide as Hnew; [|done].
    destruct (func rc) as [f|] eqn:Hf; [|done]. simpl. unfold TInv_st. simpl.
    by apply T_call.
Qed.

Lemma co_yield_tinv κ s : TInv_st s → out_sat TInv_st (co_yield κ s).
Proof.
  intros HT. unfold co_yield, store.
  destruct (current_co s) as [cur|]; [|done].
  destruct (heap s !! cur) as [r|] eqn:Hr; [|done]. simpl.
  assert (HT1 : TInv (<[cur := set_context (Some κ) r]> (heap s))
                     (next_addr s) (trace s)).
  { by eapply T_update. }
  destruct (scan _ (co_queue s)) as [c q|q|]; [|done|done].
  by apply switch_to_tinv.
Qed.

Lemma reclaim_tinv target s s' :
  TInv_st s → (∀ rt, heap s !! target = Some rt → status rt = CO_STATUS_DEAD) →
  target ≠ 0 → reclaim target s = Ok s' → TInv_st s'.
Proof.
  intros HT Hd Hne Hrec.
  apply reclaim_ok in Hrec as (pre & post & rt & _ & _ & Ht & ->).
  unfold TInv_st. simpl. eapply T_free; eauto.
Qed.

Lemma resume_wait_tinv b target k s κ :
  Inv (Config s κ) → TInv_st s →
  (∀ rt, heap s !! target = Some rt → status rt = CO_STATUS_DEAD) →
  out_sat TInv_st (resume_wait b target k s).
Proof.
  intros HInv HT Hd. unfold resume_wait.
  destruct (reclaim target s) as [s'| |] eqn:Hrec; [|done|done]. simpl.
  eapply reclaim_tinv; [done|done| |done].
  intros ->. destruct (Inv_main _ _ HInv) as (r0 & Hr0 & _ & _ & Hnd).
  by apply Hnd, Hd.
Qed.

Lemma co_exit_tinv s p :
  Inv (Config s (KRun InEntry p)) → TInv_st s → out_sat TInv_st (co_exit s).
Proof.
  intros HInv HT. unfold co_exit.
  destruct (Inv_cur _ _ HInv) as (cur & r & Hcur & Hr & Hrun).
  rewrite Hcur, Hr.
  assert (Hc0 : cur ≠ 0).
  { intros ->. by apply (Inv_base _ _ _ HInv) in Hcur. }
  assert (HT1 : TInv (<[cur := set_status CO_STATUS_DEAD r]> (heap s))
                     (next_addr s) (EvDead cur :: trace s)).
  { apply T_dead; [done|done|done|congruence]. }
  destruct (waiter r) as [w|] eqn:Hw.
  - destruct (Inv_wait _ _ _ _ _ HInv Hr Hw) as (rw & b & k & Hrw & Hst & _ & Hne);
      [congruence|].
    unfold store. simpl.
    rewrite lookup_insert_ne by congruence. rewrite Hrw.
    apply co_yield_tinv. unfold TInv_st. simpl.
    eapply T_update; [done|by rewrite lookup_insert_ne by congruence|done|done|..].
    + simpl. rewrite Hst. done.
    + simpl. rewrite Hst. done.
  - by apply co_yield_tinv.
Qed.

Lemma co_wait_tinv b p target k s :
  Inv (Config s (KRun b p)) → TInv_st s → out_sat TInv_st (co_wait b target k s).
Proof.
  intros HInv HT. unfold co_wait.
  destruct (heap s !! target) as [rt|] eqn:Ht; [|done].
  case_decide as Hlive; cycle 1.
  { eapply resume_wait_tinv; [done|done|].
    intros rt' Hrt'. rewrite Ht in Hrt'. injection Hrt' as <-.
    by destruct (decide (status rt = CO_STATUS_DEAD)). }
  destruct (Inv_cur _ _ HInv) as (cur & r & Hcur & Hr & Hrun).
  unfold store. rewrite Ht. simpl. rewrite Hcur.
  assert (HT1 : TInv (<[target := set_waiter (Some cur) rt]> (heap s))
                     (next_addr s) (trace s)).
  { by eapply T_update. }
  destruct (<[target := set_waiter (Some cur) rt]> (heap s) !! cur)
    as [r1|] eqn:Hr1; [|done].
  apply co_yield_tinv. unfold TInv_st. simpl.
  assert (Hs1 : status r1 = CO_STATUS_RUNNING).
  { rewrite lookup_insert in Hr1. case_decide.
    - injection Hr1 as <-. simpl. congruence.
    - congruence. }
  eapply T_update; [done|done|done|done|..].
  - simpl. rewrite Hs1. done.
  - simpl. rewrite Hs1. done.
Qed.

Lemma step_tinv cf :
  Inv cf → TInv_st (st cf) → out_sat TInv_st (step fetch cf).
Proof.
  destruct cf as [s κ]. intros HInv HT. unfold step. simpl in *.
  destruct κ as [b p|b target k|].
  - destruct (fetch p (umem s)) as [m i] eqn:Hfetch.
    apply (Inv_set_umem m) in HInv.
    assert (HT' : TInv_st (set_umem m s)) by done.
    destruct i as [|k|h k|nm f a k].
    + destruct b; [done|]. by eapply co_exit_tinv.
    + by apply co_yield_tinv.
    + by eapply co_wait_tinv.
    + unfold out_sat, TInv_st, co_queue_insert. simpl.
      destruct (co_queue s); simpl; by apply T_alloc.
  - eapply resume_wait_tinv; [done|done|]. by apply Inv_resumed in HInv as [_ ?].
  - done.
Qed.

Lemma init_tinv (m : mem) (main : code) : TInv_st (st (init m main)).
Proof.
  unfold init, TInv_st. simpl. rewrite boot_eq. simpl. split.
  - intros c Hc. simpl. rewrite decide_False by lia. split; [done|].
    split; [done|]. unfold died. rewrite list_elem_of_singleton. done.
  - eexists. split; [apply lookup_singleton_eq|]. done.
  - intros c r. rewrite lookup_singleton_Some. intros [<- <-]. simpl.
    split; [done|]. split; [|split].
    + intros _. split; [done|]. unfold died. by rewrite list_elem_of_singleton.
    + done.
    + unfold died. by rewrite list_elem_of_singleton.
  - intros c Hc. rewrite lookup_singleton_None. lia.
Qed.

Lemma run_tinv n cf :
  Inv cf → TInv_st (st cf) → out_sat TInv_st (run fetch n cf).
Proof.
  revert cf. induction n as [|n IH]; intros cf HInv HT; simpl; [done|].
  pose proof (step_tinv cf HInv HT) as Hs.
  destruct (step fetch cf) as [cf1| | | |] eqn:Hstep; try done.
  apply IH; [by eapply step_inv|done].
Qed.

End HistoryStep.

(** ** What one scheduling decision changes *)

Section Frame.
Context {code mem : Type}.
Implicit Types (H : gmap nat (co code)) (r : co code) (κ : kont code).
Implicit Types (s : state code mem) (cf : config code mem).

Lemma switch_to_Next c s cf' :
  switch_to c s = Next cf' →
  ∃ rc, heap s !! c = Some rc ∧
    ((status rc = CO_STATUS_RUNNING ∧ context rc = Some (pc cf') ∧
      st cf' = State (heap s) (next_addr s) (co_queue s) (Some c) (umem s)
                     (EvResume c :: trace s)) ∨
     (status rc = CO_STATUS_NEW ∧ ∃ f, func rc = Some f ∧
      pc cf' = KRun InEntry (f (arg rc)) ∧
      st cf' = State (<[c := set_status CO_STATUS_RUNNING rc]> (heap s))
                     (next_addr s) (co_queue s) (Some c) (umem s)
                     (EvCall c f (arg rc) :: trace s))).
Proof.
  unfold switch_to. simpl. destruct (heap s !! c) as [rc|] eqn:Hc; [|done].
  case_decide as Hrun.
  - destruct (context rc) as [κ|] eqn:Hκ; [|done]. intros [= <-].
    exists rc. split; [done|]. by left.
  - case_decide as Hnew; [|done]. destruct (func rc) as [f|] eqn:Hf; [|done].
    intros [= <-]. exists rc. split; [done|]. right. split; [done|]. by exists f.
Qed.

Lemma switch_to_not_exit c s s' :
  switch_to c s ≠ Exited s' ∧ switch_to c s ≠ Returned s' ∧ switch_to c s ≠ Aborted.
Proof.
  unfold switch_to. simpl. destruct (heap s !! c) as [rc|]; [|done].
  case_decide; [by destruct (context rc)|].
  case_decide; [by destruct (func rc)|done].
Qed.

Lemma co_yield_unfold κ s cur r :
  current_co s = Some cur → heap s !! cur = Some r →
  co_yield κ s =
    match scan (heap (saved cur r κ s)) (co_queue s) with
    | ScanUndef => Undef
    | NotFound q => Exited (set_co_queue q (saved cur r κ s))
    | Found c q => switch_to c (set_co_queue q (saved cur r κ s))
    end.
Proof. intros Hcur Hr. unfold co_yield, store. by rewrite Hcur, Hr. Qed.

Lemma co_yield_cases κ s o :
  co_yield κ s = o → o ≠ Undef →
  ∃ cur r, current_co s = Some cur ∧ heap s !! cur = Some r ∧
    ((∃ q, scan (heap (saved cur r κ s)) (co_queue s) = NotFound q ∧
           o = Exited (set_co_queue q (saved cur r κ s))) ∨
     (∃ c q cf', scan (heap (saved cur r κ s)) (co_queue s) = Found c q ∧
           switch_to c (set_co_queue q (saved cur r κ s)) = Next cf' ∧
           o = Next cf')).
Proof.
  intros Hy Hne. unfold co_yield, store in Hy.
  destruct (current_co s) as [cur|] eqn:Hcur; [|congruence].
  destruct (heap s !! cur) as [r|] eqn:Hr; [|congruence].
  exists cur, r. split; [done|]. split; [done|]. fold (saved cur r κ s) in Hy.
  destruct (scan _ _) as [c q|q|] eqn:Hscan; [| |congruence].
  - right. destruct (switch_to c _) as [cf'| | | |] eqn:Hsw.
    + exists c, q, cf'. by subst o.
    + by destruct (switch_to_not_exit c (set_co_queue q (saved cur r κ s)) s0) as (? & ? & ?).
    + by destruct (switch_to_not_exit c (set_co_queue q (saved cur r κ s)) s0) as (? & ? & ?).
    + by destruct (switch_to_not_exit c (set_co_queue q (saved cur r κ s)) s) as (? & ? & ?).
    + congruence.
  - left. exists q. by subst o.
Qed.

Lemma sched_rel_refl H : sched_rel H H.
Proof. intros x. destruct (H !! x); [|done]. repeat split; by left. Qed.

Lemma sched_rel_insert H c r r' :
  H !! c = Some r → name r' = name r → func r' = func r → arg r' = arg r →
  waiter r' = waiter r → context r' = context r →
  (status r' = status r ∨
   (status r = CO_STATUS_NEW ∧ status r' = CO_STATUS_RUNNING)) →
  sched_rel H (<[c := r']> H).
Proof.
  intros Hc ? ? ? ? ? ? x. rewrite lookup_insert. case_decide.
  - subst x. by rewrite Hc.
  - apply sched_rel_refl.
Qed.

Lemma sched_rel_trans H1 H2 H3 :
  sched_rel H1 H2 → sched_rel H2 H3 → sched_rel H1 H3.
Proof.
  intros H12 H23 x. specialize (H12 x). specialize (H23 x).
  destruct (H1 !! x) as [r1|], (H2 !! x) as [r2|], (H3 !! x) as [r3|]; try done.
  destruct H12 as (? & ? & ? & ? & ? & Hs12), H23 as (? & ? & ? & ? & ? & Hs23).
  repeat split; try congruence.
  destruct Hs12 as [Hs12|[? ?]], Hs23 as [Hs23|[? ?]].
  - left. congruence.
  - right. split; congruence.
  - right. split; congruence.
  - congruence.
Qed.

Lemma switch_to_rel c s cf' :
  switch_to c s = Next cf' → sched_rel (heap s) (heap (st cf')).
Proof.
  intros Hsw. apply switch_to_Next in Hsw as (rc & Hc & [(? & ? & ->)|(? & f & ? & ? & ->)]).
  - apply sched_rel_refl.
  - simpl. eapply sched_rel_insert; eauto.
Qed.

(** [co_yield] saves the context of the caller and makes a scheduling
    decision; it keeps the allocator, the client memory and, up to
    first-run events, the history. *)
Lemma co_yield_rel κ s s' :
  state_of (co_yield κ s) = Some s' →
  ∃ cur r, current_co s = Some cur ∧ heap s !! cur = Some r ∧
           sched_rel (heap (saved cur r κ s)) (heap s') ∧
           next_addr s' = next_addr s ∧ umem s' = umem s ∧
           co_queue s' ≡ₚ co_queue s.
Proof.
  intros Hst.
  destruct (co_yield_cases κ s _ eq_refl) as (cur & r & Hcur & Hr & Hcases).
  { intros E. by rewrite E in Hst. }
  exists cur, r. split; [done|]. split; [done|].
  destruct Hcases as [(q & Hscan & E)|(c & q & cf' & Hscan & Hsw & E)];
    rewrite E in Hst; simpl in Hst; injection Hst as <-.
  - simpl. split; [apply sched_rel_refl|]. split; [done|]. split; [done|].
    by apply scan_notfound in Hscan.
  - apply scan_perm in Hscan as [Hperm _].
    pose proof (switch_to_rel _ _ _ Hsw) as Hrel.
    apply switch_to_Next in Hsw as (rc & Hc & [(? & ? & Est)|(? & f & ? & ? & Est)]);
      rewrite Est in *; simpl in *; (split; [done|]; split; [done|]; split; done).
Qed.

End Frame.

(** ** The pointer code computes the list operations *)

Section NodesFacts.
Import Nodes.

Lemma repr_lookup q l i a c :
  repr q l → l !! i = Some (a, c) →
  ∃ nd, nodes q !! a = Some nd ∧ coroutine nd = c ∧
        Some (next nd) = ring_next l.*1 i ∧ Some (prev nd) = ring_prev l.*1 i.
Proof. intros (_ & _ & H). apply H. Qed.

Lemma NoDup_index (l : list nat) i j a :
  NoDup l → l !! i = Some a → l !! j = Some a → i = j.
Proof. intros Hnd Hi Hj. by eapply NoDup_lookup. Qed.

Lemma fst_lookup (l : list (nat * nat)) i a c :
  l !! i = Some (a, c) → l.*1 !! i = Some a.
Proof. intros H. by rewrite list_lookup_fmap, H. Qed.

Lemma ring_next_rotate a (t : list nat) i :
  i < length t → ring_next (t ++ [a]) i = ring_next (a :: t) (S i).
Proof.
  intros Hi. unfold ring_next. rewrite length_app. cbn [length].
  destruct (decide (S i < length t)) as [Hlt|Hge].
  - rewrite !decide_True by lia. by rewrite lookup_app_l by lia.
  - rewrite decide_True by lia. rewrite decide_False by lia.
    assert (S i = length t) as -> by lia.
    rewrite lookup_app_r by lia. by rewrite Nat.sub_diag.
Qed.

Lemma ring_next_rotate_last a (t : list nat) :
  ring_next (t ++ [a]) (length t) = ring_next (a :: t) 0.
Proof.
  unfold ring_next. rewrite length_app. cbn [length]. rewrite decide_False by lia.
  destruct t as [|a1 t]; cbn [length app]; [by rewrite decide_False by lia|].
  by rewrite decide_True by lia.
Qed.

Lemma ring_prev_rotate a (t : list nat) i :
  i < length t → ring_prev (t ++ [a]) i = ring_prev (a :: t) (S i).
Proof.
  intros Hi. unfold ring_prev. destruct i as [|j].
  - by rewrite last_snoc.
  - simpl. by rewrite lookup_app_l by lia.
Qed.

Lemma ring_prev_rotate_last a (t : list nat) :
  ring_prev (t ++ [a]) (length t) = ring_prev (a :: t) 0.
Proof.
  unfold ring_prev. destruct t as [|a1 t] using rev_ind; [done|].
  rewrite length_app. simpl. replace (length t + 1) with (S (length t)) by lia.
  rewrite lookup_app_l by (rewrite length_app; simpl; lia).
  rewrite lookup_app_r by lia. rewrite Nat.sub_diag. simpl.
  rewrite app_comm_cons. by rewrite last_snoc.
Qed.

(** [co_queue = co_queue->next] rotates the list by one. *)
Lemma advance_repr q a c t :
  repr q ((a, c) :: t) →
  ∃ q', advance q = Some q' ∧ nodes q' = nodes q ∧ repr q' (t ++ [(a, c)]).
Proof.
  intros Hrepr. pose proof Hrepr as (Hhead & Hnd & Hnodes).
  destruct (Hnodes 0 a c eq_refl) as (nd & Hnd0 & _ & Hnext & _).
  unfold advance. simpl in Hhead. rewrite Hhead. simpl. rewrite Hnd0. simpl.
  eexists. split; [done|]. split; [done|].
  rewrite fmap_cons in Hnd, Hnext. simpl in Hnd, Hnext.
  split; [|split].
  - simpl. rewrite fmap_app. simpl.
    unfold ring_next in Hnext.
    destruct t as [|[a1 c1] t]; cbn [length fmap list_fmap] in *.
    + rewrite decide_False in Hnext by lia. by injection Hnext as ->.
    + rewrite decide_True in Hnext by lia. by injection Hnext as ->.
  - rewrite fmap_app. simpl. by rewrite Permutation_app_comm.
  - intros i x cx Hi. rewrite fmap_app. simpl.
    assert (Hlen : length t.*1 = length t) by apply length_fmap.
    destruct (decide (i < length t)) as [Hlt|Hge].
    + rewrite lookup_app_l in Hi by done.
      destruct (Hnodes (S i) x cx Hi) as (ndx & ? & ? & Hn & Hp).
      exists ndx. split; [done|]. split; [done|].
      rewrite fmap_cons in Hn, Hp. simpl in Hn, Hp.
      rewrite ring_next_rotate, ring_prev_rotate by lia. done.
    + rewrite lookup_app_r in Hi by lia.
      destruct (i - length t) as [|k] eqn:Hk; [|by destruct k].
      injection Hi as <- <-. assert (i = length t.*1) as -> by lia.
      destruct (Hnodes 0 a c eq_refl) as (ndx & ? & ? & Hn & Hp).
      exists ndx. split; [done|]. split; [done|].
      rewrite fmap_cons in Hn, Hp. simpl in Hn, Hp.
      rewrite ring_next_rotate_last, ring_prev_rotate_last. done.
Qed.

Lemma ring_next_snoc (l : list nat) x i :
  i < length l →
  ring_next (l ++ [x]) i = if decide (S i = length l) then Some x else ring_next l i.
Proof.
  intros Hi. unfold ring_next. rewrite length_app. cbn [length].
  rewrite decide_True by lia. case_decide as Hlast.
  - rewrite Hlast. rewrite lookup_app_r by lia. by rewrite Nat.sub_diag.
  - rewrite decide_True by lia. by rewrite lookup_app_l by lia.
Qed.

Lemma ring_next_snoc_new (l : list nat) x :
  ring_next (l ++ [x]) (length l) = (l ++ [x]) !! 0.
Proof.
  unfold ring_next. rewrite length_app. cbn [length]. by rewrite decide_False by lia.
Qed.

Lemma ring_prev_snoc (l : list nat) x i :
  i < length l →
  ring_prev (l ++ [x]) i = if decide (i = 0) then Some x else ring_prev l i.
Proof.
  intros Hi. unfold ring_prev. destruct i as [|j].
  - by rewrite last_snoc.
  - rewrite decide_False by lia. by rewrite lookup_app_l by lia.
Qed.

Lemma ring_prev_snoc_new (l : list nat) x :
  l ≠ [] → ring_prev (l ++ [x]) (length l) = last l.
Proof.
  intros Hne. unfold ring_prev. destruct l as [|y l] using rev_ind; [done|].
  rewrite length_app. cbn [length]. replace (length l + 1) with (S (length l)) by lia.
  rewrite lookup_app_l by (rewrite length_app; cbn [length]; lia).
  rewrite lookup_app_r by lia. rewrite Nat.sub_diag. by rewrite last_snoc.
Qed.

Lemma last_lookup_index (l : list nat) p :
  last l = Some p → l !! (length l - 1) = Some p ∧ 0 < length l.
Proof.
  rewrite last_lookup. destruct l as [|x l]; [done|]. simpl.
  rewrite Nat.sub_0_r. intros ?. split; [done|lia].
Qed.

(** [co_queue_insert] appends the new node to the list. *)
Lemma insert_repr q l node new_co :
  repr q l → node ∉ l.*1 →
  ∃ q', insert node new_co q = Some q' ∧ repr q' (l ++ [(node, new_co)]).
Proof.
  intros (Hhead & Hnd & Hnodes) Hfresh. unfold insert.
  destruct l as [|[a0 c0] t] eqn:Hl.
  { simpl in Hhead. rewrite Hhead. eexists. split; [done|]. simpl.
    split; [done|]. split; [apply NoDup_singleton|].
    intros i a c Hi. destruct i as [|i]; [|done]. injection Hi as <- <-.
    exists (Node new_co node node). simpl. by rewrite lookup_insert_eq. }
  rewrite <- Hl in *.
  set (L := l.*1) in *.
  assert (HL0 : L !! 0 = Some a0) by (by subst l).
  assert (Hlen : length L = length l) by apply length_fmap.
  assert (Hpos : 0 < length l) by (subst l; simpl; lia).
  rewrite Hhead, HL0. simpl.
  destruct (Hnodes 0 a0 c0) as (hdn & Hhdn & _ & _ & Hprev0); [by subst l|].
  rewrite Hhdn. simpl. rewrite lookup_insert_eq. simpl.
  set (p := prev hdn) in *.
  cbn [ring_prev] in Hprev0. symmetry in Hprev0.
  apply last_lookup_index in Hprev0 as [Hp _].
  assert (∃ cp, l !! (length L - 1) = Some (p, cp)) as [cp Hlp].
  { subst L. rewrite list_lookup_fmap in Hp.
    destruct (l !! (length l.*1 - 1)) as [[x cx]|]; [|done].
    injection Hp as ->. by eexists. }
  destruct (Hnodes _ p cp Hlp) as (pn & Hpn & _ & _ & _).
  assert (Hpnode : p ≠ node).
  { intros ->. apply Hfresh. by eapply list_elem_of_lookup_2. }
  assert (Ha0node : a0 ≠ node).
  { intros ->. apply Hfresh. by eapply list_elem_of_lookup_2. }
  rewrite lookup_insert_ne by done. rewrite Hpn. simpl.
  rewrite lookup_insert_ne by done. rewrite lookup_insert_eq. simpl.
  set (N2 := <[p := set_next node pn]> (<[node := Node new_co p a0]> (nodes q))).
  assert (∃ nn, N2 !! a0 = Some nn) as [nn Hnn].
  { unfold N2. rewrite lookup_insert. case_decide; [by eexists|].
    rewrite lookup_insert_ne by done. by eexists. }
  rewrite Hnn. simpl. eexists. split; [done|]. unfold repr. simpl.
  rewrite fmap_app. cbn [fmap list_fmap]. fold L.
  split; [|split].
  - by rewrite lookup_app_l by lia.
  - apply NoDup_app. split; [done|]. split; [|apply NoDup_singleton].
    intros x Hx. rewrite list_elem_of_singleton. by intros ->.
  - intros i x cx Hi.
    destruct (decide (i < length l)) as [Hlt|Hge].
    + rewrite lookup_app_l in Hi by done.
      destruct (Hnodes i x cx Hi) as (ndx & Hndx & Hco & Hn & Hpv).
      assert (HLi : L !! i = Some x) by (by apply fst_lookup in Hi).
      assert (Hxnode : x ≠ node).
      { intros ->. apply Hfresh. by eapply list_elem_of_lookup_2. }
      assert (Hi0 : x = a0 ↔ i = 0).
      { split; [intros ->; by eapply NoDup_index|intros ->; congruence]. }
      assert (Hilast : x = p ↔ S i = length L).
      { split.
        - intros ->. assert (i = length L - 1) by (by eapply NoDup_index). lia.
        - intros Hs. replace (length L - 1) with i in Hp by lia. congruence. }
      rewrite ring_next_snoc, ring_prev_snoc by lia.
      assert (HN2x : N2 !! x = Some (if decide (x = p) then set_next node pn else ndx)).
      { unfold N2. rewrite lookup_insert. case_decide as Hd.
        - subst x. by rewrite decide_True.
        - rewrite decide_False by done. by rewrite lookup_insert_ne. }
      assert (Hpnx : x = p → pn = ndx) by (intros ->; congruence).
      rewrite lookup_insert.
      destruct (decide (a0 = x)) as [Hxa|Hxa];
        destruct (decide (x = p)) as [Hxp|Hxp].
      * assert (Hnn' : N2 !! x = Some nn) by congruence.
        rewrite HN2x in Hnn'. injection Hnn' as <-.
        eexists. split; [done|].
        rewrite decide_True by (by apply Hilast).
        rewrite decide_True by (by apply Hi0). simpl.
        split; [by rewrite Hpnx|]. done.
      * assert (Hnn' : N2 !! x = Some nn) by congruence.
        rewrite HN2x in Hnn'. injection Hnn' as <-.
        eexists. split; [done|].
        rewrite decide_False by (by rewrite <- Hilast).
        rewrite decide_True by (by apply Hi0). simpl. done.
      * rewrite HN2x. eexists. split; [done|].
        rewrite decide_True by (by apply Hilast).
        rewrite decide_False by (rewrite <- Hi0; congruence). simpl.
        split; [by rewrite Hpnx|]. split; [done|]. by rewrite Hpnx.
      * rewrite HN2x. eexists. split; [done|].
        rewrite decide_False by (by rewrite <- Hilast).
        rewrite decide_False by (rewrite <- Hi0; congruence). done.
    + rewrite lookup_app_r in Hi by lia.
      destruct (i - length l) as [|k] eqn:Hk; [|by destruct k].
      injection Hi as <- <-. assert (i = length L) as -> by lia.
      exists (Node new_co p a0).
      split.
      { rewrite lookup_insert_ne by done. unfold N2.
        rewrite lookup_insert_ne by done. apply lookup_insert_eq. }
      split; [done|]. simpl.
      rewrite ring_next_snoc_new, ring_prev_snoc_new.
      * rewrite lookup_app_l by lia. rewrite HL0. split; [done|].
        rewrite last_lookup. destruct L; [simpl in *; lia|]. simpl in *.
        by rewrite Nat.sub_0_r in Hp.
      * intros E. rewrite E in Hlen. simpl in *. lia.
Qed.

Lemma ring_next_tail a (T : list nat) i :
  i < length T →
  ring_next T i = if decide (S i = length T) then T !! 0 else ring_next (a :: T) (S i).
Proof.
  intros Hi. unfold ring_next. cbn [length].
  destruct (decide (S i = length T)) as [Hlast|Hlast].
  - by rewrite decide_False by lia.
  - by rewrite !decide_True by lia.
Qed.

Lemma ring_prev_tail a (T : list nat) i :
  ring_prev T i = if decide (i = 0) then last T else ring_prev (a :: T) (S i).
Proof. destruct i as [|j]; [done|]. by rewrite decide_False by lia. Qed.

(** [co_queue_remove] drops the first element of the list. *)
Lemma remove_repr q a c t :
  repr q ((a, c) :: t) → ∃ q', remove q = Some (Some a, q') ∧ repr q' t.
Proof.
  intros (Hhead & Hnd & Hnodes). unfold remove.
  simpl in Hhead. rewrite Hhead.
  destruct (Hnodes 0 a c eq_refl) as (vn & Hvn & _ & Hnext0 & Hprev0).
  rewrite Hvn. simpl.
  rewrite fmap_cons in Hnd, Hnext0, Hprev0. cbn [fst] in Hnd, Hnext0, Hprev0.
  set (T := t.*1) in *.
  assert (Hlen : length T = length t) by apply length_fmap.
  apply NoDup_cons in Hnd as [Hat HndT].
  destruct (t !! 0) as [[a1 c1]|] eqn:Ht0; cycle 1.
  { assert (t = []) as -> by (by destruct t).
    unfold ring_next in Hnext0. cbn [length] in Hnext0.
    rewrite decide_False in Hnext0 by (simpl in *; lia).
    injection Hnext0 as ->. rewrite decide_True by done.
    eexists. split; [done|]. split; [done|]. split; [apply NoDup_nil_2|done]. }
  assert (HT0 : T !! 0 = Some a1) by (by apply fst_lookup in Ht0).
  assert (Hpos : 0 < length T) by (by apply lookup_lt_Some in HT0).
  unfold ring_next in Hnext0. cbn [length] in Hnext0.
  rewrite decide_True in Hnext0 by lia.
  assert (next vn = a1) as Hnx by (simpl in Hnext0; congruence).
  assert (Ha1 : a1 ≠ a).
  { intros ->. apply Hat. by eapply list_elem_of_lookup_2. }
  rewrite Hnx. rewrite decide_False by done.
  destruct (Hnodes 1 a1 c1) as (hn & Hhn & _ & _ & _); [done|].
  rewrite Hhn. simpl. rewrite lookup_insert_eq. simpl.
  set (p := prev vn) in *.
  cbn [ring_prev] in Hprev0. symmetry in Hprev0.
  assert (HlastT : last T = Some p).
  { rewrite <- Hprev0. destruct T; [simpl in *; lia|done]. }
  pose proof HlastT as [HpT _]%last_lookup_index.
  assert (∃ cp, t !! (length T - 1) = Some (p, cp)) as [cp Hlp].
  { subst T. rewrite list_lookup_fmap in HpT.
    destruct (t !! (length t.*1 - 1)) as [[x cx]|] eqn:E; [|by simpl in HpT].
    simpl in HpT. injection HpT as ->. by eexists. }
  destruct (Hnodes (S (length T - 1)) p cp Hlp) as (pn0 & Hpn0 & _ & _ & _).
  set (N1 := <[a1 := set_prev p hn]> (nodes q)).
  assert (∃ pn, N1 !! p = Some pn) as [pn Hpn].
  { unfold N1. rewrite lookup_insert. destruct (decide (a1 = p)); by eexists. }
  rewrite Hpn. simpl. eexists. split; [done|]. unfold repr. simpl. fold T.
  split; [done|]. split; [done|].
  intros i x cx Hi.
  destruct (Hnodes (S i) x cx Hi) as (ndx & Hndx & Hco & Hn & Hpv).
  assert (HTi : T !! i = Some x) by (by apply fst_lookup in Hi).
  assert (Hlt : i < length T) by (by apply lookup_lt_Some in HTi).
  assert (Hi0 : x = a1 ↔ i = 0).
  { split; [intros ->; by eapply NoDup_index|intros ->; congruence]. }
  assert (Hilast : x = p ↔ S i = length T).
  { split.
    - intros ->. assert (i = length T - 1) by (by eapply NoDup_index). lia.
    - intros Hs. replace (length T - 1) with i in HpT by lia. congruence. }
  rewrite (ring_next_tail a), (ring_prev_tail a) by done.
  assert (HN1x : N1 !! x = Some (if decide (x = a1) then set_prev p hn else ndx)).
  { unfold N1. rewrite lookup_insert.
    destruct (decide (a1 = x)) as [<-|Hd].
    - by rewrite decide_True.
    - rewrite decide_False by done. done. }
  assert (Hhnx : x = a1 → hn = ndx) by (intros ->; congruence).
  rewrite lookup_insert.
  destruct (decide (p = x)) as [Hxp|Hxp]; destruct (decide (x = a1)) as [Hxa|Hxa].
  - assert (Hpn' : N1 !! x = Some pn) by congruence.
    rewrite HN1x in Hpn'. injection Hpn' as <-.
    eexists. split; [done|].
    rewrite decide_True by (by apply Hilast).
    rewrite decide_True by (by apply Hi0). simpl.
    split; [by rewrite Hhnx|]. done.
  - assert (Hpn' : N1 !! x = Some pn) by congruence.
    rewrite HN1x in Hpn'. injection Hpn' as <-.
    eexists. split; [done|].
    rewrite decide_True by (by apply Hilast).
    rewrite decide_False by (by rewrite <- Hi0). simpl. done.
  - rewrite HN1x. eexists. split; [done|].
    rewrite decide_False by (rewrite <- Hilast; congruence).
    rewrite decide_True by (by apply Hi0). simpl.
    split; [by rewrite Hhnx|]. split; [by rewrite Hhnx|]. done.
  - rewrite HN1x. eexists. split; [done|].
    rewrite decide_False by (rewrite <- Hilast; congruence).
    rewrite decide_False by (by rewrite <- Hi0). done.
Qed.

Lemma advance_rot q l :
  repr q l → l ≠ [] →
  ∃ q', advance q = Some q' ∧ nodes q' = nodes q ∧ repr q' (rotate l).
Proof. destruct l as [|[a c] t]; [done|]. intros Hr _. by apply advance_repr. Qed.

Lemma repr_head q l a c t :
  repr q l → l = (a, c) :: t →
  head q = Some a ∧ ∃ nd, nodes q !! a = Some nd ∧ coroutine nd = c.
Proof.
  intros (Hhead & _ & Hnodes) ->. split; [done|].
  destruct (Hnodes 0 a c eq_refl) as (nd & ? & ? & _). by exists nd.
Qed.

Section Loops.
Context {code : Type}.
Implicit Types (h : gmap nat (co code)).

Lemma scan_ptr_loop h start_node k l q :
  repr q l → 1 ≤ k ≤ length l →
  (rotate l).*1 !! (k - 1) = Some start_node →
  (∀ c, c ∈ l.*2 → is_Some (h !! c)) →
  match scan_loop k h l.*2 with
  | Found c cq =>
      ∃ hd q' t, scan_ptr k h start_node q = Some (Some hd, q') ∧
                 repr q' ((hd, c) :: t) ∧ ((hd, c) :: t).*2 = cq
  | NotFound cq =>
      ∃ q' l', scan_ptr k h start_node q = Some (None, q') ∧
               repr q' l' ∧ l'.*2 = cq
  | ScanUndef => False
  end.
Proof.
  revert l q. induction k as [|k IH]; intros l q Hrepr Hk Hstart Hlive; [lia|].
  assert (Hne : l ≠ []) by (intros ->; simpl in *; lia).
  destruct (advance_rot q l Hrepr Hne) as (q1 & Hadv & HN1 & Hrepr1).
  cbn [scan_loop scan_ptr]. rewrite Hadv. simpl. rewrite <- rotate_fmap.
  destruct (rotate l) as [|[a1 c1] t1] eqn:Hrot.
  { apply (f_equal length) in Hrot. rewrite rotate_length in Hrot.
    destruct l; simpl in *; [done|lia]. }
  destruct (repr_head _ _ a1 c1 t1 Hrepr1 eq_refl) as (Hhd1 & hn & Hhn & Hco).
  rewrite Hhd1. simpl. rewrite Hhn. simpl. rewrite Hco.
  destruct (Hlive c1) as [r Hr].
  { rewrite <- elem_of_rotate, <- rotate_fmap, Hrot. simpl. by left. }
  rewrite Hr. simpl.
  destruct (eligible (status r)) eqn:Hel.
  { exists a1, q1, t1. done. }
  assert (Hlen1 : length ((a1, c1) :: t1) = length l) by (by rewrite <- Hrot, rotate_length).
  destruct (decide (k = 0)) as [->|Hk0].
  - simpl in Hstart. injection Hstart as <-. rewrite decide_True by done.
    exists q1, ((a1, c1) :: t1). done.
  - assert (Hnd1 : NoDup ((a1, c1) :: t1).*1) by apply Hrepr1.
    rewrite decide_False; cycle 1.
    { intros <-. replace (S k - 1) with k in Hstart by lia.
      assert (k = 0); [|done]. by eapply NoDup_index. }
    apply (IH ((a1, c1) :: t1) q1); [done|lia| |].
    + replace (S k - 1) with k in Hstart by lia.
      rewrite list_lookup_fmap. rewrite rotate_lookup by lia.
      replace (S (k - 1)) with k by lia. by rewrite <- list_lookup_fmap.
    + intros c Hc. apply Hlive.
      rewrite <- elem_of_rotate, <- rotate_fmap, Hrot. done.
Qed.

(** X19. On a well-formed ring the loop of [co_yield] ends within as many
    iterations as there are nodes and computes [scan]. *)
Theorem scan_ptr_refines h q l start_node :
  repr q l → head q = Some start_node →
  (∀ c, c ∈ l.*2 → is_Some (h !! c)) →
  match scan h l.*2 with
  | Found c cq =>
      ∃ hd q' t, scan_ptr (length l) h start_node q = Some (Some hd, q') ∧
                 repr q' ((hd, c) :: t) ∧ ((hd, c) :: t).*2 = cq
  | NotFound cq =>
      ∃ q' l', scan_ptr (length l) h start_node q = Some (None, q') ∧
               repr q' l' ∧ l'.*2 = cq
  | ScanUndef => False
  end.
Proof.
  intros Hrepr Hhead Hlive.
  assert (Hne : l ≠ []).
  { intros ->. destruct Hrepr as (Hh & _). simpl in Hh. congruence. }
  assert (Hscan : scan h l.*2 = scan_loop (length l) h l.*2).
  { unfold scan. rewrite length_fmap. by destruct l. }
  rewrite Hscan. apply scan_ptr_loop; [done| | |done].
  - destruct l; simpl in *; [done|lia].
  - rewrite list_lookup_fmap, rotate_lookup_last by done.
    rewrite <- list_lookup_fmap. destruct Hrepr as (Hh & _). congruence.
Qed.

End Loops.

(** The ring seen from the node [j] places behind the head. *)
Lemma repr_rotN q l j :
  repr q l → l ≠ [] →
  repr (Ring (nodes q) ((rotN j l).*1 !! 0)) (rotN j l).
Proof.
  intros Hrepr Hne. induction j as [|j IH].
  - simpl. destruct Hrepr as (Hh & Hr). rewrite <- Hh. by destruct q.
  - rewrite rotN_succ.
    assert (Hne' : rotN j l ≠ []).
    { intros E. apply (f_equal length) in E.
      rewrite (Permutation_length (rotN_perm j l)) in E. by destruct l. }
    destruct (advance_rot _ _ IH Hne') as (q' & Hadv & HN & Hr').
    destruct q' as [N' h']. simpl in HN. subst N'.
    pose proof Hr' as (Hh & _). simpl in Hh. subst h'. exact Hr'.
Qed.

Lemma find_ptr_loop target q l k j a :
  repr q l → 1 ≤ k → j + k = length l →
  (rotN j l).*1 !! 0 = Some a →
  match find_loop k target (rotN j l).*2 with
  | Some cq => ∃ q' l', find_ptr k target a q = Some q' ∧ repr q' l' ∧ l'.*2 = cq
  | None => find_ptr k target a q = Some q
  end.
Proof.
  intros Hrepr. revert j a. induction k as [|k IH]; intros j a Hk Hjk Ha; [lia|].
  assert (Hne : l ≠ []) by (intros ->; simpl in *; lia).
  pose proof (repr_rotN q l j Hrepr Hne) as Hrj. rewrite Ha in Hrj.
  destruct (rotN j l) as [|[a' c] t] eqn:Hcur; [done|].
  cbn [find_loop find_ptr fmap list_fmap snd].
  simpl in Ha. injection Ha as ->.
  destruct (repr_head _ _ a c t Hrj eq_refl) as (_ & cn & Hcn & Hco).
  simpl in Hcn. rewrite Hcn. cbn [mbind option_bind]. rewrite Hco.
  destruct (decide (c = target)) as [Hc|Hc].
  { eexists _, _. split; [done|]. split; [exact Hrj|done]. }
  destruct Hrj as (_ & _ & Hnodes).
  destruct (Hnodes 0 a c eq_refl) as (cn' & Hcn' & _ & Hnext & _).
  simpl in Hcn'. rewrite Hcn in Hcn'. injection Hcn' as <-.
  assert (Hnx : Some (next cn) = (rotN (S j) l).*1 !! 0).
  { rewrite Hnext, rotN_succ, Hcur.
    unfold ring_next. destruct t as [|[a1 c1] t].
    - by rewrite decide_False by (simpl; lia).
    - by rewrite decide_True by (simpl; lia). }
  assert (Hhd : ∀ i, i < length l → (rotN i l).*1 !! 0 = l.*1 !! i).
  { intros i Hi. rewrite !list_lookup_fmap. f_equal.
    rewrite <- head_lookup. by apply head_rotN. }
  destruct Hrepr as (Hhead & Hnd & _).
  destruct (decide (k = 0)) as [->|Hk0].
  - cbn [find_loop].
    assert (Hend : Some (next cn) = head q).
    { rewrite Hnx, Hhead. replace (S j) with (length l) by lia.
      rewrite !list_lookup_fmap. f_equal. rewrite rotN_split by lia.
      by rewrite drop_all, take_ge. }
    by rewrite decide_True.
  - assert (Hend : Some (next cn) ≠ head q).
    { rewrite Hnx, Hhead, Hhd by lia. intros E.
      destruct (l.*1 !! 0) as [x|] eqn:E0; [|by destruct l].
      assert (S j = 0); [|lia]. by eapply NoDup_index. }
    rewrite decide_False by done.
    assert (Hrot : rotate (c :: t.*2) = (rotN (S j) l).*2).
    { by rewrite rotN_succ, Hcur, rotate_fmap. }
    rewrite Hrot.
    destruct ((rotN (S j) l).*1 !! 0) as [a2|] eqn:Ha2; [|done].
    injection Hnx as ->. apply IH; [lia|lia|done].
Qed.

(** X20. On a well-formed ring the search loop of [co_wait] ends within as
    many iterations as there are nodes and computes [find_target]. *)
Theorem find_node_refines target q l :
  repr q l →
  ∃ q' l', find_node (length l) target q = Some q' ∧ repr q' l' ∧
           l'.*2 = find_target target l.*2.
Proof.
  intros Hrepr. unfold find_node, find_target. rewrite length_fmap.
  destruct l as [|[a c] t] eqn:Hl.
  { destruct Hrepr as (Hh & Hr). simpl in Hh. rewrite Hh. by exists q, []. }
  rewrite <- Hl in *.
  assert (Hh : head q = Some a) by (destruct Hrepr as (Hh & _); by subst l).
  rewrite Hh.
  pose proof (find_ptr_loop target q l (length l) 0 a Hrepr) as Hloop.
  simpl in Hloop.
  destruct (find_loop (length l) target l.*2) as [cq|].
  - apply Hloop; [subst l; simpl; lia|done|by subst l].
  - exists q, l. split; [|done].
    apply Hloop; [subst l; simpl; lia|done|by subst l].
Qed.

(** [co_queue_insert] and [co_queue_remove] of the model are what the
    pointer code does to the list of coroutines of a well-formed
    ring. *)
Lemma co_queue_insert_refines {code mem : Type} (s : state code mem) q l node new_co :
  repr q l → l.*2 = co_queue s → node ∉ l.*1 →
  ∃ q' l', insert node new_co q = Some q' ∧ repr q' l' ∧
           l'.*2 = co_queue (co_queue_insert new_co s).
Proof.
  intros Hrepr Hq Hfresh.
  destruct (insert_repr q l node new_co Hrepr Hfresh) as (q' & Hins & Hr').
  exists q', (l ++ [(node, new_co)]). split; [done|]. split; [done|].
  rewrite fmap_app, Hq. unfold co_queue_insert. by destruct (co_queue s).
Qed.

Lemma co_queue_remove_refines {code mem : Type} (s : state code mem) q l :
  repr q l → l.*2 = co_queue s →
  ∃ victim q' l', remove q = Some (victim, q') ∧ repr q' l' ∧
    l'.*2 = co_queue (co_queue_remove s).2 ∧
    (co_queue_remove s).1 = (l.*2 !! 0) ∧ victim = l.*1 !! 0.
Proof.
  intros Hrepr Hq. destruct l as [|[a c] t].
  - exists None, q, []. unfold remove, co_queue_remove.
    pose proof Hrepr as (Hh & _). simpl in Hh, Hq. rewrite Hh, <- Hq.
    split; [done|]. split; [exact Hrepr|]. by repeat split.
  - destruct (remove_repr q a c t Hrepr) as (q' & Hrem & Hr').
    exists (Some a), q', t. unfold co_queue_remove. simpl in Hq.
    rewrite <- Hq. split; [done|]. split; [exact Hr'|]. by repeat split.
Qed.

End NodesFacts.

(** * The claims *)

Section Claims.
Context {code mem : Type} (fetch : code → mem → mem * instr code).
Implicit Types (H : gmap nat (co code)) (r : co code) (κ : kont code).
Implicit Types (s : state code mem) (cf : config code mem).

Lemma reachable_inv cf : reachable fetch cf → Inv cf ∧ TInv_st (st cf).
Proof.
  intros (m & main & n & Hrun). split.
  - eapply run_inv; [apply init_inv|exact Hrun].
  - pose proof (run_tinv fetch n (init m main) (init_inv m main)
                  (init_tinv m main)) as HT.
    by rewrite Hrun in HT.
Qed.


Lemma elig_at_saved cur r κ s c :
  heap s !! cur = Some r →
  elig_at (heap (saved cur r κ s)) c = elig_at (heap s) c.
Proof.
  intros Hr. unfold elig_at. simpl. rewrite lookup_insert. case_decide; [|done].
  subst c. by rewrite Hr.
Qed.

Lemma run_state_tinv (m : mem) (main : code) n s :
  state_of (run fetch n (init m main)) = Some s → TInv_st s.
Proof.
  intros Hs.
  pose proof (run_tinv fetch n (init m main) (init_inv m main) (init_tinv m main)) as HT.
  destruct (run fetch n (init m main)); simpl in *; by simplify_eq.
Qed.

Lemma calls_length_le T c H n :
  TInv H n T → length (calls c T) ≤ 1.
Proof.
  intros [Hu Hm Hl Hfr]. destruct (decide (c < n)) as [Hlt|Hge].
  - destruct (H !! c) as [r|] eqn:Hc.
    + destruct (Hl c r Hc) as (_ & Hnew & Hold & _).
      destruct (decide (status r = CO_STATUS_NEW ∨ c = 0)) as [Hcase|Hcase].
      * destruct (Hnew Hcase) as [-> _]. simpl. lia.
      * destruct Hold as (f & _ & ->); [tauto|tauto|]. simpl. lia.
    + destruct (Hfr c Hlt Hc) as (f & a & _ & ->). simpl. lia.
  - destruct (Hu c) as (_ & -> & _); [lia|]. simpl. lia.
Qed.

Lemma calls_from_spawn T c H n f a :
  TInv H n T → (f, a) ∈ calls c T → spawns c T = [(Some f, a)].
Proof.
  intros [Hu Hm Hl Hfr] Hin. destruct (decide (c < n)) as [Hlt|Hge].
  - destruct (H !! c) as [r|] eqn:Hc.
    + destruct (Hl c r Hc) as (Hs & Hnew & Hold & _).
      destruct (decide (status r = CO_STATUS_NEW ∨ c = 0)) as [Hcase|Hcase].
      * destruct (Hnew Hcase) as [E _]. rewrite E in Hin. by apply elem_of_nil in Hin.
      * destruct Hold as (f' & Hf' & E); [tauto|tauto|].
        rewrite E in Hin. apply list_elem_of_singleton in Hin. injection Hin as -> ->.
        by rewrite Hs, Hf'.
    + destruct (Hfr c Hlt Hc) as (f' & a' & Hs & E). rewrite E in Hin.
      apply list_elem_of_singleton in Hin. by injection Hin as -> ->.
  - destruct (Hu c) as (_ & E & _); [lia|]. rewrite E in Hin.
    by apply elem_of_nil in Hin.
Qed.

Lemma died_called T c H n :
  TInv H n T → died c T →
  ∃ f a, spawns c T = [(Some f, a)] ∧ calls c T = [(f, a)].
Proof.
  intros [Hu Hm Hl Hfr] Hd. destruct (decide (c < n)) as [Hlt|Hge].
  - destruct (H !! c) as [r|] eqn:Hc.
    + destruct (Hl c r Hc) as (Hs & Hnew & Hold & Hdd).
      destruct (decide (status r = CO_STATUS_NEW ∨ c = 0)) as [Hcase|Hcase].
      * destruct (Hnew Hcase) as [_ Hnd]. by destruct Hnd.
      * destruct Hold as (f & Hf & E); [tauto|tauto|].
        exists f, (arg r). by rewrite Hs, Hf.
    + by apply Hfr.
  - destruct (Hu c) as (_ & _ & Hnd); [lia|]. by destruct Hnd.
Qed.

Lemma new_same_refl H : new_same H H.
Proof. intros x r1 ? ?. by exists r1. Qed.

Lemma new_same_insert H0 H1 c r r' :
  new_same H0 H1 → H1 !! c = Some r →
  (status r' = CO_STATUS_NEW →
   status r = CO_STATUS_NEW ∧ func r' = func r ∧ arg r' = arg r) →
  new_same H0 (<[c := r']> H1).
Proof.
  intros Hns Hc Hr' x r1. rewrite lookup_insert. case_decide; [|by apply Hns].
  intros [= <-] Hnew. subst x. destruct (Hr' Hnew) as (Hn & Hf & Ha).
  destruct (Hns c r Hc Hn) as (r0 & ? & ? & ? & ?). exists r0.
  repeat split; congruence.
Qed.

Lemma co_yield_calls κ s0 s cf' x :
  new_same (heap s0) (heap s) → calls x (trace s) = calls x (trace s0) →
  co_yield κ s = Next cf' →
  calls x (trace (st cf')) ≠ calls x (trace s0) →
  first_run x s0 cf' ∧
  ∃ r f, heap s0 !! x = Some r ∧ func r = Some f ∧
         calls x (trace (st cf')) = (f, arg r) :: calls x (trace s0).
Proof.
  intros Hns Htr Hy Hne.
  destruct (co_yield_cases κ s _ Hy) as (cur & rc & Hcur & Hrc & Hcases); [done|].
  destruct Hcases as [(q & _ & E)|(c & q & cf1 & _ & Hsw & E)]; [done|].
  injection E as <-.
  assert (Hns' : new_same (heap s0) (heap (saved cur rc κ s))).
  { simpl. eapply new_same_insert; [done|done|]. by intros ?. }
  apply switch_to_Next in Hsw as (r1 & Hc & [(? & ? & Est)|(Hnew & f & Hf & Hpc & Est)]);
    rewrite Est in *; simpl in *.
  - congruence.
  - destruct (decide (c = x)) as [->|Hcx]; [|congruence].
    destruct (Hns' x r1 Hc Hnew) as (r0 & Hr0 & Hn0 & Hf0 & Ha0).
    split.
    + exists r0, f. rewrite Ha0, Est. simpl. split; [done|]. split; [done|].
      split; [congruence|]. done.
    + exists r0, f. split; [done|]. split; [congruence|]. by rewrite Ha0, Htr.
Qed.

Lemma step_calls cf cf' x :
  step fetch cf = Next cf' →
  calls x (trace (st cf')) ≠ calls x (trace (st cf)) →
  first_run x (st cf) cf' ∧
  ∃ r f, heap (st cf) !! x = Some r ∧ func r = Some f ∧
         calls x (trace (st cf')) = (f, arg r) :: calls x (trace (st cf)).
Proof.
  destruct cf as [s κ]. unfold step. simpl.
  destruct κ as [b p|b target k|].
  - destruct (fetch p (umem s)) as [m i] eqn:Hfetch.
    destruct i as [|k|h k|nm f a k].
    + destruct b; [done|]. unfold co_exit. simpl.
      destruct (current_co s) as [cur|]; [|done].
      destruct (heap s !! cur) as [r|] eqn:Hr; [|done].
      assert (Hns1 : new_same (heap s) (<[cur := set_status CO_STATUS_DEAD r]> (heap s))).
      { eapply new_same_insert; [apply new_same_refl|done|done]. }
      destruct (waiter r) as [w|].
      * unfold store. simpl.
        destruct (<[cur := set_status CO_STATUS_DEAD r]> (heap s) !! w) as [rw|] eqn:Hrw;
          [|done].
        intros Hy Hne. eapply (co_yield_calls _ s) in Hy; [done| |done|done].
        simpl. eapply new_same_insert; [done|done|done].
      * intros Hy Hne. eapply (co_yield_calls _ s) in Hy; [done|done|done|done].
    + intros Hy Hne. eapply (co_yield_calls _ s) in Hy; [done| |done|done].
      apply new_same_refl.
    + unfold co_wait. simpl. destruct (heap s !! h) as [rt|] eqn:Ht; [|done].
      case_decide as Hlive.
      * unfold store. simpl. rewrite Ht. simpl.
        destruct (current_co s) as [cur|]; [|done].
        destruct (<[h := set_waiter (Some cur) rt]> (heap s) !! cur) as [r1|] eqn:Hr1;
          [|done].
        intros Hy Hne. eapply (co_yield_calls _ s) in Hy; [done| |done|done].
        simpl. eapply new_same_insert; [|done|done].
        eapply new_same_insert; [apply new_same_refl|done|done].
      * unfold resume_wait.
        destruct (reclaim h (set_umem m s)) as [s'| |] eqn:Hrec; [|done|done].
        apply reclaim_ok in Hrec as (? & ? & ? & _ & _ & _ & ->).
        intros [= <-]. simpl. done.
    + unfold co_queue_insert. simpl.
      destruct (co_queue s); intros [= <-]; simpl; done.
  - unfold resume_wait.
    destruct (reclaim target s) as [s'| |] eqn:Hrec; [|done|done].
    apply reclaim_ok in Hrec as (? & ? & ? & _ & _ & _ & ->).
    intros [= <-]. simpl. done.
  - done.
Qed.

Lemma co_yield_not_aborted κ s : co_yield κ s ≠ Aborted.
Proof.
  unfold co_yield, store. destruct (current_co s) as [cur|]; [|done].
  destruct (heap s !! cur) as [r|]; [|done].
  destruct (scan _ _) as [c q|q|]; [|done|done].
  apply (switch_to_not_exit c _ s).
Qed.

(** The record that [co_yield] switches to was RUNNING or NEW when
    the scan met it. *)
Lemma co_yield_selected κ s cf' :
  co_yield κ s = Next cf' →
  ∃ cur r c rc, current_co s = Some cur ∧ heap s !! cur = Some r ∧
    current_co (st cf') = Some c ∧ heap (saved cur r κ s) !! c = Some rc ∧
    (status rc = CO_STATUS_RUNNING ∨ status rc = CO_STATUS_NEW).
Proof.
  intros Hy.
  destruct (co_yield_cases κ s _ Hy) as (cur & r & Hcur & Hr & Hcases); [done|].
  destruct Hcases as [(q & _ & E)|(c & q & cf1 & _ & Hsw & E)]; [done|].
  injection E as <-. exists cur, r, c.
  apply switch_to_Next in Hsw as (rc & Hc & [(? & ? & ->)|(? & f & ? & ? & ->)]);
    exists rc; simpl in *; repeat split; auto.
Qed.

Lemma sched_rel_lookup H H' x r :
  sched_rel H H' → H !! x = Some r →
  ∃ r', H' !! x = Some r' ∧ func r' = func r ∧ arg r' = arg r ∧
        waiter r' = waiter r ∧ context r' = context r ∧
        (status r' = status r ∨
         (status r = CO_STATUS_NEW ∧ status r' = CO_STATUS_RUNNING)).
Proof.
  intros Hrel Hx. specialize (Hrel x). rewrite Hx in Hrel.
  destruct (H' !! x) as [r'|]; [|done]. exists r'.
  destruct Hrel as (? & ? & ? & ? & ? & ?). repeat split; done.
Qed.

Lemma sched_rel_None H H' x : sched_rel H H' → H' !! x = None → H !! x = None.
Proof.
  intros Hrel Hx. specialize (Hrel x). rewrite Hx in Hrel.
  by destruct (H !! x).
Qed.

Lemma co_yield_dom κ s s' c :
  state_of (co_yield κ s) = Some s' → heap s' !! c = None → heap s !! c = None.
Proof.
  intros Hs' Hc. apply co_yield_rel in Hs' as (cur & r & Hcur & Hr & Hrel & _).
  apply (sched_rel_None _ _ _ Hrel) in Hc. simpl in Hc.
  by apply lookup_insert_None in Hc as [? _].
Qed.

Lemma reclaim_split target s pre post rt :
  co_queue s = pre ++ target :: post → target ∉ pre →
  heap s !! target = Some rt →
  reclaim target s =
    Ok (State (delete target (heap s)) (next_addr s) (post ++ pre)
              (current_co s) (umem s) (EvFree target :: trace s)).
Proof.
  intros Hq Hpre Ht. unfold reclaim. simpl. rewrite Hq.
  rewrite find_target_split by done. rewrite decide_True by done.
  by rewrite Ht.
Qed.

(** During a step a record leaves the heap only in [co_wait] called
    on that record. *)
Lemma step_frees cf s' c :
  state_of (step fetch cf) = Some s' →
  is_Some (heap (st cf) !! c) → heap s' !! c = None →
  (∃ b k, pc cf = KWait b c k) ∨
  (∃ b p m k, pc cf = KRun b p ∧ fetch p (umem (st cf)) = (m, IWait c k)).
Proof.
  destruct cf as [s κ]. unfold step. simpl. intros Hs' [rc Hrc] Hnone.
  assert (Hrw : ∀ b t k, state_of (resume_wait b t k s) = Some s' → t = c).
  { intros b t k. unfold resume_wait.
    destruct (reclaim t s) as [s1| |] eqn:Hrec; [|done|done].
    apply reclaim_ok in Hrec as (? & ? & ? & _ & _ & _ & ->).
    simpl. intros [= <-]. simpl in Hnone.
    apply lookup_delete_None in Hnone as [?|?]; [done|congruence]. }
  destruct κ as [b p|b target k|].
  - destruct (fetch p (umem s)) as [m i] eqn:Hfetch.
    destruct i as [|k|h k|nm f a k].
    + destruct b.
      * simpl in Hs'. injection Hs' as <-. simpl in Hnone. congruence.
      * exfalso. unfold co_exit in Hs'. simpl in Hs'.
        destruct (current_co s) as [cur|]; [|done].
        destruct (heap s !! cur) as [r|] eqn:Hr; [|done].
        destruct (waiter r) as [w|].
        -- unfold store in Hs'. simpl in Hs'.
           destruct (<[cur := set_status CO_STATUS_DEAD r]> (heap s) !! w)
             as [rw|] eqn:Hw; [|done].
           apply co_yield_dom with (c := c) in Hs'; [|done]. simpl in Hs'.
           apply lookup_insert_None in Hs' as [Hs' _].
           apply lookup_insert_None in Hs' as [Hs' _]. congruence.
        -- apply co_yield_dom with (c := c) in Hs'; [|done]. simpl in Hs'.
           apply lookup_insert_None in Hs' as [Hs' _]. congruence.
    + exfalso. apply co_yield_dom with (c := c) in Hs'; [|done]. simpl in Hs'.
      congruence.
    + right. unfold co_wait in Hs'. simpl in Hs'.
      destruct (heap s !! h) as [rt|] eqn:Ht; [|done].
      case_decide as Hlive.
      * exfalso. unfold store in Hs'. simpl in Hs'. rewrite Ht in Hs'. simpl in Hs'.
        destruct (current_co s) as [cur|]; [|done].
        destruct (<[h := set_waiter (Some cur) rt]> (heap s) !! cur) as [r1|]; [|done].
        apply co_yield_dom with (c := c) in Hs'; [|done]. simpl in Hs'.
        apply lookup_insert_None in Hs' as [Hs' _].
        apply lookup_insert_None in Hs' as [Hs' _]. congruence.
      * assert (h = c) as ->.
        { unfold resume_wait in Hs'.
          destruct (reclaim h (set_umem m s)) as [s1| |] eqn:Hrec; [|done|done].
          apply reclaim_ok in Hrec as (? & ? & ? & _ & _ & _ & ->).
          simpl in Hs'. injection Hs' as <-. simpl in Hnone.
          apply lookup_delete_None in Hnone as [?|?]; [done|congruence]. }
        by exists b, p, m, k.
    + exfalso. unfold co_queue_insert in Hs'. simpl in Hs'.
      destruct (co_queue s); simpl in Hs'; injection Hs' as <-; simpl in Hnone;
        apply lookup_insert_None in Hnone as [? _]; congruence.
  - left. apply Hrw in Hs' as ->. by exists b, k.
  - done.
Qed.

(** What the death path does before it calls [co_yield]. *)
Lemma co_exit_unfold s p cur r :
  Inv (Config s (KRun InEntry p)) →
  current_co s = Some cur → heap s !! cur = Some r →
  ∃ s2, co_exit s = co_yield KDead s2 ∧
        current_co s2 = Some cur ∧ trace s2 = EvDead cur :: trace s ∧
        co_queue s2 = co_queue s ∧
        heap s2 !! cur = Some (set_status CO_STATUS_DEAD r) ∧
        (∀ w, waiter r = Some w →
              w ≠ cur ∧
              ∃ rw, heap s !! w = Some rw ∧ status rw = CO_STATUS_WAITING ∧
                    heap s2 !! w = Some (set_status CO_STATUS_RUNNING rw)) ∧
        (∀ x, x ≠ cur → waiter r ≠ Some x → heap s2 !! x = heap s !! x).
Proof.
  intros HInv Hcur Hr. unfold co_exit. rewrite Hcur, Hr.
  assert (Hrun : status r = CO_STATUS_RUNNING).
  { destruct (Inv_cur _ _ HInv) as (? & ? & ? & ? & ?). congruence. }
  destruct (waiter r) as [w|] eqn:Hw.
  - destruct (Inv_wait _ _ _ _ _ HInv Hr Hw) as (rw & b & k & Hrw & Hst & _ & Hne);
      [congruence|].
    assert (w ≠ cur) by congruence.
    unfold store. simpl. rewrite lookup_insert_ne by done. rewrite Hrw.
    eexists. split; [done|]. simpl. split; [done|]. split; [done|]. split; [done|].
    split; [|split].
    + rewrite lookup_insert_ne by done. apply lookup_insert_eq.
    + intros w' [= <-]. split; [done|]. exists rw.
      rewrite lookup_insert_eq. done.
    + intros x Hx Hxw. rewrite !lookup_insert_ne; [done|done|congruence].
  - eexists. split; [done|]. simpl. split; [done|]. split; [done|]. split; [done|].
    split; [apply lookup_insert_eq|]. split; [done|].
    intros x Hx _. by rewrite lookup_insert_ne.
Qed.

(** Which steps change the status of a record that is not the
    current one. *)
Lemma step_status cf cf' x r r' :
  Inv cf → step fetch cf = Next cf' →
  heap (st cf) !! x = Some r → current_co (st cf) ≠ Some x →
  heap (st cf') !! x = Some r' → status r' ≠ status r →
  (status r = CO_STATUS_NEW ∧ status r' = CO_STATUS_RUNNING) ∨
  (∃ cur rc p m,
      current_co (st cf) = Some cur ∧ heap (st cf) !! cur = Some rc ∧
      waiter rc = Some x ∧ pc cf = KRun InEntry p ∧
      fetch p (umem (st cf)) = (m, IRet) ∧ status r' = CO_STATUS_RUNNING ∧
      ∃ rc', heap (st cf') !! cur = Some rc' ∧ status rc' = CO_STATUS_DEAD).
Proof.
  destruct cf as [s κ]. intros HInv. unfold step. simpl.
  intros Hstep Hx Hncur Hx' Hchg.
  destruct (Inv_cur _ _ HInv) as (cur & rc & Hcur & Hrc & Hrun).
  assert (Hxc : x ≠ cur) by congruence.
  assert (Hyield : ∀ κ' s2 rx,
            co_yield κ' s2 = Next cf' → current_co s2 = Some cur →
            heap s2 !! x = Some rx →
            status r' = status rx ∨
            (status rx = CO_STATUS_NEW ∧ status r' = CO_STATUS_RUNNING)).
  { intros κ' s2 rx Hy Hc2 Hx2.
    assert (Hs' : state_of (co_yield κ' s2) = Some (st cf')) by (by rewrite Hy).
    apply co_yield_rel in Hs' as (cur' & r2 & Hcur' & Hr2 & Hrel & _).
    rewrite Hc2 in Hcur'. injection Hcur' as <-.
    destruct (sched_rel_lookup _ _ x rx Hrel) as (rx' & Hrx' & _ & _ & _ & _ & Hst).
    { simpl. by rewrite lookup_insert_ne. }
    rewrite Hx' in Hrx'. by injection Hrx' as <-. }
  assert (Hreclaim : ∀ b t k s0, heap s0 = heap s →
            resume_wait b t k s0 = Next cf' → False).
  { intros b t k s0 Hh. unfold resume_wait.
    destruct (reclaim t s0) as [s1| |] eqn:Hrec; [|done|done].
    apply reclaim_ok in Hrec as (? & ? & ? & _ & _ & _ & ->).
    intros [= <-]. simpl in Hx'. rewrite Hh in Hx'.
    apply lookup_delete_Some in Hx' as [_ Hx']. congruence. }
  destruct κ as [b p|b target k|].
  - destruct (fetch p (umem s)) as [m i] eqn:Hfetch.
    apply (Inv_set_umem m) in HInv.
    destruct i as [|k|h k|nm f a k].
    + destruct b; [done|].
      destruct (co_exit_unfold _ _ cur rc HInv Hcur Hrc)
        as (s2 & E & Hc2 & _ & _ & Hd2 & Hw2 & Hoth).
      rewrite E in Hstep.
      destruct (decide (waiter rc = Some x)) as [Hwx|Hwx].
      * right. exists cur, rc, p, m. repeat split; try done.
        -- destruct (Hw2 x Hwx) as (_ & rw & Hrw & _ & Hrw2).
           destruct (Hyield _ _ _ Hstep Hc2 Hrw2) as [->|[? ?]]; done.
        -- assert (Hs' : state_of (co_yield KDead s2) = Some (st cf')) by (by rewrite Hstep).
           apply co_yield_rel in Hs' as (cur' & r2 & Hcur' & Hr2 & Hrel & _).
           rewrite Hc2 in Hcur'. injection Hcur' as <-.
           destruct (sched_rel_lookup _ _ cur _ Hrel (lookup_insert_eq _ _ _))
             as (rc' & Hrc' & _ & _ & _ & _ & Hst).
           exists rc'. split; [done|]. rewrite Hd2 in Hr2. injection Hr2 as <-.
           simpl in Hst. by destruct Hst as [?|[? ?]].
      * left. assert (Hx2 : heap s2 !! x = Some r) by (by rewrite Hoth).
        destruct (Hyield _ _ _ Hstep Hc2 Hx2) as [?|?]; done.
    + left. destruct (Hyield _ _ r Hstep) as [?|?]; done.
    + unfold co_wait in Hstep. simpl in Hstep.
      destruct (heap s !! h) as [rt|] eqn:Ht; [|done].
      case_decide as Hlive;
        [|by destruct (Hreclaim b h k (set_umem m s) eq_refl Hstep)].
      unfold store in Hstep. simpl in Hstep. rewrite Ht in Hstep. simpl in Hstep.
      rewrite Hcur in Hstep.
      destruct (<[h := set_waiter (Some cur) rt]> (heap s) !! cur) as [r1|]; [|done].
      left.
      assert (∃ rx, <[cur := set_status CO_STATUS_WAITING r1]>
                      (<[h := set_waiter (Some cur) rt]> (heap s)) !! x = Some rx ∧
                    status rx = status r) as (rx & Hrx & Hsx).
      { rewrite lookup_insert_ne by done. rewrite lookup_insert. case_decide.
        - subst h. rewrite Ht in Hx. injection Hx as <-. by eexists.
        - by exists r. }
      destruct (Hyield _ _ rx Hstep) as [?|[? ?]]; [done|done|congruence|].
      split; congruence.
    + exfalso. unfold co_queue_insert in Hstep. simpl in Hstep.
      assert (Hfresh : x ≠ next_addr s).
      { destruct HInv as [_ _ (cur0 & r0 & _ & Hr0 & _ & HQ)]. simpl in *.
        assert (x < next_addr s); [|lia].
        apply (q_fresh _ _ HQ). rewrite (insert_is_Some_iff _ cur0 r0) by done. eauto. }
      destruct (co_queue s); injection Hstep as <-; simpl in Hx';
        rewrite lookup_insert_ne in Hx' by done; congruence.
  - by destruct (Hreclaim b target k s eq_refl Hstep).
  - done.
Qed.

(** A coroutine that has died is never the current one again, and its
    record stays DEAD until it is freed. *)
Lemma dead_stays_dead cf c :
  reachable fetch cf → died c (trace (st cf)) →
  current_co (st cf) ≠ Some c ∧
  ∀ rc, heap (st cf) !! c = Some rc → status rc = CO_STATUS_DEAD.
Proof.
  intros Hreach Hd. apply reachable_inv in Hreach as [HInv HT].
  assert (Hdead : ∀ rc, heap (st cf) !! c = Some rc → status rc = CO_STATUS_DEAD).
  { intros rc Hrc. destruct HT as [_ _ Hl _].
    destruct (Hl c rc Hrc) as (_ & _ & _ & Hdd). by apply Hdd. }
  split; [|done]. destruct cf as [s κ].
  destruct (Inv_cur _ _ HInv) as (cur & r & Hcur & Hr & Hrun). simpl in *.
  rewrite Hcur. intros [= ->]. specialize (Hdead r Hr). congruence.
Qed.

Lemma scan_loop_found n (h : gmap nat (co code)) (q : list nat) c q' :
  scan_loop n h q = Found c q' →
  ∃ k, k < n ∧ q' = rotN (S k) q ∧ head q' = Some c ∧ elig_at h c = true ∧
       ∀ j, j < k → ∃ x, head (rotN (S j) q) = Some x ∧ elig_at h x = false.
Proof.
  revert q. induction n as [|n IH]; intros q; cbn [scan_loop]; [done|].
  destruct (rotate q) as [|c0 rest] eqn:Hrot; [done|].
  destruct (h !! c0) as [r|] eqn:Hr; [|done].
  destruct (eligible (status r)) eqn:He.
  - intros [= <- <-]. exists 0. split; [lia|]. split; [by rewrite rotN_S, Hrot|].
    split; [done|]. split; [unfold elig_at; by rewrite Hr|].
    intros j Hj. lia.
  - intros Hs. destruct (IH _ Hs) as (k & Hk & Hq' & Hhead & Helig & Hpre).
    exists (S k). split; [lia|]. split; [by rewrite rotN_S, Hrot|].
    split; [done|]. split; [done|].
    intros j Hj. destruct j as [|j'].
    + exists c0. split; [by rewrite rotN_S, Hrot|]. unfold elig_at. by rewrite Hr.
    + rewrite rotN_S, Hrot. apply Hpre. lia.
Qed.

Lemma run_step n cf cf' : step fetch cf = Next cf' → run fetch (S n) cf = run fetch n cf'.
Proof. intros H. simpl. by rewrite H. Qed.

Lemma step_start s b p m nm f a k :
  fetch p (umem s) = (m, IStart nm f a k) →
  step fetch (Config s (KRun b p)) =
    Next (Config (State (<[next_addr s := Co nm f a CO_STATUS_NEW None None]> (heap s))
                        (S (next_addr s)) (co_queue s ++ [next_addr s])
                        (current_co s) m (EvSpawn (next_addr s) f a :: trace s))
                 (KRun b (k (next_addr s)))).
Proof. intros H. unfold step. cbn [pc st]. rewrite H. by rewrite co_start_eq. Qed.

Lemma step_yield s b p m k :
  fetch p (umem s) = (m, IYield k) →
  step fetch (Config s (KRun b p)) = co_yield (KRun b k) (set_umem m s).
Proof. intros H. unfold step. cbn [pc st]. by rewrite H. Qed.

(** [co_yield] when the node behind the head holds a NEW record, and
    when it holds a RUNNING one. *)
Lemma yield_starts_next κ s hd c rest cur r rc f :
  co_queue s = hd :: c :: rest → current_co s = Some cur →
  heap s !! cur = Some r → c ≠ cur → heap s !! c = Some rc →
  status rc = CO_STATUS_NEW → func rc = Some f →
  co_yield κ s =
    Next (Config (State (<[c := set_status CO_STATUS_RUNNING rc]>
                           (<[cur := set_context (Some κ) r]> (heap s)))
                        (next_addr s) (c :: rest ++ [hd]) (Some c) (umem s)
                        (EvCall c f (arg rc) :: trace s))
                 (KRun InEntry (f (arg rc)))).
Proof.
  intros Hq Hcur Hr Hne Hc Hst Hf. rewrite (co_yield_unfold κ s cur r) by done.
  rewrite Hq. unfold scan. cbn [length scan_loop rotate app]. cbn [saved heap].
  rewrite lookup_insert_ne by done. rewrite Hc, Hst.
  rewrite (eq_refl : eligible CO_STATUS_NEW = true).
  unfold switch_to. simpl.
  rewrite lookup_insert_ne by done. rewrite Hc, Hst. simpl. by rewrite Hf.
Qed.

Lemma yield_resumes_next κ s hd c rest cur r rc κ' :
  co_queue s = hd :: c :: rest → current_co s = Some cur →
  heap s !! cur = Some r → c ≠ cur → heap s !! c = Some rc →
  status rc = CO_STATUS_RUNNING → context rc = Some κ' →
  co_yield κ s =
    Next (Config (State (<[cur := set_context (Some κ) r]> (heap s))
                        (next_addr s) (c :: rest ++ [hd]) (Some c) (umem s)
                        (EvResume c :: trace s)) κ').
Proof.
  intros Hq Hcur Hr Hne Hc Hst Hk. rewrite (co_yield_unfold κ s cur r) by done.
  rewrite Hq. unfold scan. cbn [length scan_loop rotate app]. cbn [saved heap].
  rewrite lookup_insert_ne by done. rewrite Hc, Hst.
  rewrite (eq_refl : eligible CO_STATUS_RUNNING = true).
  unfold switch_to. simpl.
  rewrite lookup_insert_ne by done. rewrite Hc, Hst. simpl. by rewrite Hk.
Qed.

(** The first round, for any client: main starts A, B and C and
    yields, and each of them begins with a [co_yield]. *)
Lemma abc_first_round (m m1 m2 m3 m4 m5 m6 m7 : mem) (main : code)
    nA nB nC (fA fB fC : Z → code) aA aB aC k1 k2 k3 k4 kA kB kC :
  fetch main m = (m1, IStart nA (Some fA) aA k1) →
  fetch (k1 1) m1 = (m2, IStart nB (Some fB) aB k2) →
  fetch (k2 2) m2 = (m3, IStart nC (Some fC) aC k3) →
  fetch (k3 3) m3 = (m4, IYield k4) →
  fetch (fA aA) m4 = (m5, IYield kA) →
  fetch (fB aB) m5 = (m6, IYield kB) →
  fetch (fC aC) m6 = (m7, IYield kC) →
  ∃ s, run fetch 7 (init m main) = Next (Config s (KRun InMain k4)) ∧
       transfers (trace s) = [(1, true); (2, true); (3, true); (0, false)] ∧
       calls 1 (trace s) = [(fA, aA)] ∧ calls 2 (trace s) = [(fB, aB)] ∧
       calls 3 (trace s) = [(fC, aC)] ∧
       co_queue s = [0; 1; 2; 3] ∧ current_co s = Some 0 ∧ umem s = m7.
Proof.
  intros H1 H2 H3 H4 H5 H6 H7. unfold init. rewrite boot_eq.
  erewrite run_step; [|by apply step_start].
  cbn [heap next_addr co_queue current_co umem trace app].
  erewrite run_step; [|by apply step_start].
  cbn [heap next_addr co_queue current_co umem trace app].
  erewrite run_step; [|by apply step_start].
  cbn [heap next_addr co_queue current_co umem trace app].
  erewrite run_step; cycle 1.
  { erewrite step_yield by done.
    eapply yield_starts_next; cbn [heap co_queue current_co set_umem];
      [reflexivity|reflexivity|heap_simpl; reflexivity|done
      |heap_simpl; reflexivity|reflexivity|reflexivity]. }
  cbn [heap next_addr co_queue current_co umem trace app set_umem arg].
  erewrite run_step; cycle 1.
  { erewrite step_yield by done.
    eapply yield_starts_next; cbn [heap co_queue current_co set_umem];
      [reflexivity|reflexivity|heap_simpl; reflexivity|done
      |heap_simpl; reflexivity|reflexivity|reflexivity]. }
  cbn [heap next_addr co_queue current_co umem trace app set_umem arg].
  erewrite run_step; cycle 1.
  { erewrite step_yield by done.
    eapply yield_starts_next; cbn [heap co_queue current_co set_umem];
      [reflexivity|reflexivity|heap_simpl; reflexivity|done
      |heap_simpl; reflexivity|reflexivity|reflexivity]. }
  cbn [heap next_addr co_queue current_co umem trace app set_umem arg].
  erewrite run_step; cycle 1.
  { erewrite step_yield by done.
    eapply yield_resumes_next; cbn [heap co_queue current_co set_umem];
      [reflexivity|reflexivity|heap_simpl; reflexivity|done
      |heap_simpl; reflexivity|reflexivity|reflexivity]. }
  cbn [heap next_addr co_queue current_co umem trace app set_umem arg run].
  eexists. split; [reflexivity|].
  cbn [trace co_queue current_co umem transfers calls app].
  repeat (rewrite decide_True by done) || (rewrite decide_False by done).
  done.
Qed.

(** C1.  What a build that omits the store of line 251 does with the
    client [abc_yield]: main starts A, B and C, each of which calls
    [co_yield] once and returns, and calls [co_yield] three times.
    The records are still NEW when the coroutines have yielded, so
    every scan that meets them calls their entry functions again, from
    the beginning: when main returns, each entry function has been
    called three times, not once, and no coroutine has finished. *)
Theorem entry_called_again_when_store_dropped (nA nB nC : string) (aA aB aC : Z) :
  ∃ s : state prog nat, Dropped.run prog_fetch 16 (init 0 (abc_yield nA nB nC aA aB aC)) = Returned s ∧
       calls 1 (trace s) = [(yield_once, aA); (yield_once, aA); (yield_once, aA)] ∧
       calls 2 (trace s) = [(yield_once, aB); (yield_once, aB); (yield_once, aB)] ∧
       calls 3 (trace s) = [(yield_once, aC); (yield_once, aC); (yield_once, aC)] ∧
       spawns 1 (trace s) = [(Some yield_once, aA)] ∧
       transfers (trace s) =
         [(1, true); (2, true); (3, true); (0, false);
          (1, true); (2, true); (3, true); (0, false);
          (1, true); (2, true); (3, true); (0, false)] ∧
       (status <$> heap s !! 1) = Some CO_STATUS_NEW ∧
       (status <$> heap s !! 2) = Some CO_STATUS_NEW ∧
       (status <$> heap s !! 3) = Some CO_STATUS_NEW.
Proof.
  eexists. split; [vm_compute; reflexivity|].
  repeat split; vm_compute; reflexivity.
Qed.

(** With the store of line 251 performed, as [step] has it.  In every
    state that a run of any client reaches (also the last one, when
    the process has exited or main has returned): the entry function
    of a record is called at most once; a call is the function and the
    argument that [co_start] was given for that record; and a
    coroutine that has died was called exactly once.  The call is made
    only by the first-run transfer of [co_yield], on a record whose
    status is NEW, and control is then in that function applied to the
    stored argument. *)
Theorem entry_called_exactly_once (m : mem) (main : code) n s :
  state_of (run fetch n (init m main)) = Some s →
  (∀ c, length (calls c (trace s)) ≤ 1) ∧
  (∀ c f a, (f, a) ∈ calls c (trace s) → spawns c (trace s) = [(Some f, a)]) ∧
  (∀ c, died c (trace s) →
        ∃ f a, spawns c (trace s) = [(Some f, a)] ∧ calls c (trace s) = [(f, a)]) ∧
  (∀ c r, heap s !! c = Some r → status r = CO_STATUS_DEAD →
          ∃ f, func r = Some f ∧ calls c (trace s) = [(f, arg r)]) ∧
  (∀ cf cf' c, step fetch cf = Next cf' →
        calls c (trace (st cf')) ≠ calls c (trace (st cf)) →
        ∃ r f, heap (st cf) !! c = Some r ∧ status r = CO_STATUS_NEW ∧
               func r = Some f ∧
               calls c (trace (st cf')) = (f, arg r) :: calls c (trace (st cf)) ∧
               pc cf' = KRun InEntry (f (arg r)) ∧
               current_co (st cf') = Some c).
Proof.
  intros Hs. apply run_state_tinv in Hs. repeat split.
  - intros c. by eapply calls_length_le.
  - intros c f a. by eapply calls_from_spawn.
  - intros c. by eapply died_called.
  - intros c r Hc Hd. destruct Hs as [Hu Hm Hl Hfr].
    destruct (Hl c r Hc) as (_ & _ & Hold & _). apply Hold; [congruence|].
    intros ->. destruct Hm as (r0 & Hr0 & _ & _ & Hnd). congruence.
  - intros cf cf' c Hstep Hne.
    destruct (step_calls cf cf' c Hstep Hne) as [(r & f & Hr & Hn & Hf & Hpc & Hcur)
                                                 (r' & f' & Hr' & Hf' & Hc)].
    exists r, f. rewrite Hr in Hr'. injection Hr' as <-.
    rewrite Hf in Hf'. injection Hf' as <-. done.
Qed.


(** C3.  In every reachable configuration:
    - [co_wait] on a target that is not DEAD registers the caller in
      the waiter field of the target, sets the status of the caller to
      WAITING, saves the caller's continuation inside [co_wait] and
      yields: no assertion fails and control is given to another
      coroutine;
    - a coroutine that is WAITING inside [co_wait] of a target leaves
      that status only in the step in which the target, then the
      running coroutine, returns from its entry function: after the
      step the target is DEAD and the waiter RUNNING;
    - when the caller is back in [co_wait] after its [co_yield], the
      target is DEAD if it is still live. *)
Theorem wait_wakes_after_death cf :
  reachable fetch cf →
  (∀ b p m target k rt cur,
      pc cf = KRun b p → fetch p (umem (st cf)) = (m, IWait target k) →
      heap (st cf) !! target = Some rt → status rt ≠ CO_STATUS_DEAD →
      current_co (st cf) = Some cur →
      step fetch cf ≠ Aborted ∧
      ∀ s', state_of (step fetch cf) = Some s' →
            (∃ rt', heap s' !! target = Some rt' ∧ waiter rt' = Some cur) ∧
            (∃ rc', heap s' !! cur = Some rc' ∧ status rc' = CO_STATUS_WAITING ∧
                    context rc' = Some (KWait b target k)) ∧
            (∀ cf', step fetch cf = Next cf' → current_co (st cf') ≠ Some cur)) ∧
  (∀ cf' w rw b target k rw',
      step fetch cf = Next cf' →
      heap (st cf) !! w = Some rw → status rw = CO_STATUS_WAITING →
      context rw = Some (KWait b target k) →
      heap (st cf') !! w = Some rw' → status rw' ≠ CO_STATUS_WAITING →
      status rw' = CO_STATUS_RUNNING ∧ current_co (st cf) = Some target ∧
      (∃ p m, pc cf = KRun InEntry p ∧ fetch p (umem (st cf)) = (m, IRet)) ∧
      (∃ rt, heap (st cf) !! target = Some rt ∧ status rt = CO_STATUS_RUNNING ∧
             waiter rt = Some w) ∧
      (∃ rt', heap (st cf') !! target = Some rt' ∧ status rt' = CO_STATUS_DEAD)) ∧
  (∀ b target k rt,
      pc cf = KWait b target k → heap (st cf) !! target = Some rt →
      status rt = CO_STATUS_DEAD).
Proof.
  intros Hreach. apply reachable_inv in Hreach as [HInv _].
  split; [|split].
  - intros b p m target k rt cur Hpc Hfetch Ht Hlive Hcur.
    destruct cf as [s κ]. simpl in *. subst κ.
    unfold step. simpl. rewrite Hfetch. unfold co_wait. simpl. rewrite Ht.
    rewrite decide_True by done. unfold store. simpl. rewrite Ht. simpl. rewrite Hcur.
    destruct (<[target := set_waiter (Some cur) rt]> (heap s) !! cur) as [r1|] eqn:Hr1;
      [|done].
    split; [apply co_yield_not_aborted|].
    intros s' Hs'. pose proof Hs' as Hs''.
    apply co_yield_rel in Hs' as (cur' & r' & Hcur' & Hr' & Hrel & _).
    simpl in *. rewrite Hcur in Hcur'. injection Hcur' as <-.
    rewrite lookup_insert_eq in Hr'. injection Hr' as <-.
    rewrite insert_insert_eq in Hrel.
    split; [|split].
    + assert (∃ rt1, <[cur := set_context (Some (KWait b target k))
                               (set_status CO_STATUS_WAITING r1)]>
                       (<[target := set_waiter (Some cur) rt]> (heap s)) !! target
                     = Some rt1 ∧ waiter rt1 = Some cur) as (rt1 & Hrt1 & Hw1).
      { destruct (decide (cur = target)) as [->|Hne].
        - rewrite lookup_insert_eq in Hr1. injection Hr1 as <-.
          rewrite lookup_insert_eq. by eexists.
        - rewrite lookup_insert_ne by done. rewrite lookup_insert_eq. by eexists. }
      destruct (sched_rel_lookup _ _ _ _ Hrel Hrt1) as (rt' & Hrt' & _ & _ & Hw' & _).
      exists rt'. split; [done|]. congruence.
    + destruct (sched_rel_lookup _ _ cur _ Hrel (lookup_insert_eq _ _ _))
        as (rc' & Hrc' & _ & _ & _ & Hctx & Hst).
      exists rc'. split; [done|]. simpl in *. split; [|done].
      by destruct Hst as [?|[? ?]].
    + intros cf' Hy. apply co_yield_selected in Hy
        as (cur' & r' & c & rc & Hcur' & Hr' & Hc & Hrc & Hel).
      simpl in *. rewrite Hcur in Hcur'. injection Hcur' as <-.
      rewrite lookup_insert_eq in Hr'. injection Hr' as <-.
      rewrite insert_insert_eq in Hrc. rewrite Hc. intros [= ->].
      rewrite lookup_insert_eq in Hrc. injection Hrc as <-. simpl in Hel.
      by destruct Hel.
  - intros cf' w rw b target k rw' Hstep Hw Hst Hctx Hw' Hchg.
    assert (Hncur : current_co (st cf) ≠ Some w).
    { destruct cf as [s κ]. destruct (Inv_cur _ _ HInv) as (cur & rc & Hcur & Hrc & Hrun).
      simpl in *. rewrite Hcur. intros [= ->]. congruence. }
    destruct (step_status cf cf' w rw rw' HInv Hstep Hw Hncur Hw')
      as [[? ?]|(cur & rc & p & m & Hcur & Hrc & Hwt & Hpc & Hfetch & Hrun' & Hdead)];
      [congruence|congruence|].
    destruct cf as [s κ]. simpl in *.
    destruct (Inv_cur _ _ HInv) as (cur0 & rc0 & Hcur0 & Hrc0 & Hrun0).
    assert (cur0 = cur) as -> by congruence.
    assert (rc0 = rc) as -> by congruence.
    destruct (Inv_wait _ _ _ _ _ HInv Hrc Hwt) as (rw0 & b0 & k0 & Hrw0 & _ & Hk0 & _);
      [congruence|].
    assert (target = cur) as -> by congruence.
    split; [done|]. split; [done|]. split; [by exists p, m|].
    split; [by exists rc|]. done.
  - intros b target k rt Hpc Ht. destruct cf as [s κ]. simpl in *. subst κ.
    by apply (Inv_resumed _ _ _ _ HInv).
Qed.

(** C4, as amended.  [co_wait] on a target that is already DEAD goes
    straight to the reclamation: the caller keeps running and no
    transfer of control happens, the node of the target is unlinked
    from the ready queue, whose order is otherwise kept, and the record
    is freed.  While the machine runs, a record is destroyed only by a
    [co_wait] on it.  (At process exit [co_cleanup] frees the records
    that are still in the queue.) *)
Theorem wait_on_dead_reclaims cf b p m target k rt :
  reachable fetch cf → pc cf = KRun b p →
  fetch p (umem (st cf)) = (m, IWait target k) →
  heap (st cf) !! target = Some rt → status rt = CO_STATUS_DEAD →
  (∃ cf' pre post,
      step fetch cf = Next cf' ∧ pc cf' = KRun b k ∧
      current_co (st cf') = current_co (st cf) ∧
      heap (st cf') = delete target (heap (st cf)) ∧
      co_queue (st cf) = pre ++ target :: post ∧
      co_queue (st cf') = post ++ pre ∧ (target ∉ co_queue (st cf')) ∧
      trace (st cf') = EvFree target :: trace (st cf)) ∧
  (∀ cf0 s' c, state_of (step fetch cf0) = Some s' →
      is_Some (heap (st cf0) !! c) → heap s' !! c = None →
      (∃ b' k', pc cf0 = KWait b' c k') ∨
      (∃ b' p' m' k', pc cf0 = KRun b' p' ∧
                      fetch p' (umem (st cf0)) = (m', IWait c k'))).
Proof.
  intros Hreach Hpc Hfetch Ht Hdead. split; [|apply step_frees].
  apply reachable_inv in Hreach as [[Hnd Hring _] _].
  destruct cf as [s κ]. simpl in *. subst κ.
  assert (Hin : target ∈ co_queue s) by (apply Hring; eauto).
  apply list_elem_of_split_l in Hin as (pre & post & Hq & Hpre).
  unfold step. simpl. rewrite Hfetch. unfold co_wait. simpl. rewrite Ht.
  rewrite decide_False by (by intros ?).
  unfold resume_wait. rewrite (reclaim_split target _ pre post rt); [|done..].
  eexists _, pre, post. split; [done|]. simpl. repeat split; try done.
  rewrite Hq in Hnd. rewrite (Permutation_app_comm pre (target :: post)) in Hnd.
  simpl in Hnd. by apply NoDup_cons in Hnd as [? _].
Qed.

(** The death path of [co_yield] as the source has it, for a return
    of the entry function that reaches it.  When the entry function of
    the running coroutine returns in a reachable configuration of
    [step], the death path of [co_yield] sets the
    status of its record to DEAD; a registered waiter is a live,
    WAITING record and its status is set to RUNNING; then [co_yield]
    is called again, so no assertion fails and the step ends either in
    [exit(0)] or with another coroutine running.  From then on the dead
    coroutine is never the current one: its record stays DEAD until it
    is freed. *)
Theorem entry_return_kills cf p m cur r :
  reachable fetch cf → pc cf = KRun InEntry p →
  fetch p (umem (st cf)) = (m, IRet) →
  current_co (st cf) = Some cur → heap (st cf) !! cur = Some r →
  (∀ w, waiter r = Some w →
        ∃ rw, heap (st cf) !! w = Some rw ∧ status rw = CO_STATUS_WAITING) ∧
  (∃ s2, step fetch cf = co_yield KDead s2 ∧ current_co s2 = Some cur ∧
         (status <$> heap s2 !! cur) = Some CO_STATUS_DEAD ∧
         (∀ w, waiter r = Some w →
               (status <$> heap s2 !! w) = Some CO_STATUS_RUNNING)) ∧
  step fetch cf ≠ Aborted ∧
  (∀ s', state_of (step fetch cf) = Some s' →
         (status <$> heap s' !! cur) = Some CO_STATUS_DEAD ∧
         died cur (trace s') ∧
         (∀ w, waiter r = Some w →
               (status <$> heap s' !! w) = Some CO_STATUS_RUNNING)) ∧
  (∀ cf', step fetch cf = Next cf' → current_co (st cf') ≠ Some cur) ∧
  (∀ n cf', run fetch n cf = Next cf' → died cur (trace (st cf')) →
            current_co (st cf') ≠ Some cur ∧
            ∀ rc, heap (st cf') !! cur = Some rc → status rc = CO_STATUS_DEAD).
Proof.
  intros Hreach Hpc Hfetch Hcur Hr.
  pose proof Hreach as [HInv _]%reachable_inv.
  destruct cf as [s κ]. simpl in *. subst κ.
  apply (Inv_set_umem m) in HInv.
  destruct (co_exit_unfold (set_umem m s) p cur r HInv Hcur Hr)
    as (s2 & E & Hc2 & Htr2 & _ & Hd2 & Hw2 & _).
  assert (Hstep : step fetch (Config s (KRun InEntry p)) = co_yield KDead s2).
  { unfold step. simpl. by rewrite Hfetch. }
  assert (Hafter : ∀ s', state_of (co_yield KDead s2) = Some s' →
            (status <$> heap s' !! cur) = Some CO_STATUS_DEAD ∧
            (∀ l, trace s2 = l → died cur (trace s')) ∧
            (∀ w, waiter r = Some w →
                  (status <$> heap s' !! w) = Some CO_STATUS_RUNNING)).
  { intros s' Hs'. pose proof Hs' as Hs''.
    apply co_yield_rel in Hs' as (cur' & r2 & Hcur' & Hr2 & Hrel & _).
    rewrite Hc2 in Hcur'. injection Hcur' as <-.
    rewrite Hd2 in Hr2. injection Hr2 as <-. simpl in Hrel.
    split; [|split].
    - destruct (sched_rel_lookup _ _ cur _ Hrel (lookup_insert_eq _ _ _))
        as (rc' & Hrc' & _ & _ & _ & _ & Hst).
      rewrite Hrc'. simpl in *. f_equal. by destruct Hst as [?|[? ?]].
    - intros l _. unfold died.
      destruct (co_yield_cases KDead s2 _ eq_refl) as (? & ? & _ & _ & Hcases).
      { intros E'. by rewrite E' in Hs''. }
      destruct Hcases as [(q & _ & E')|(c & q & cf1 & _ & Hsw & E')];
        rewrite E' in Hs''; simpl in Hs''; injection Hs'' as <-.
      + simpl. rewrite Htr2. by left.
      + apply switch_to_Next in Hsw as (rc & _ & [(_ & _ & ->)|(_ & f & _ & _ & ->)]);
          simpl; rewrite Htr2; right; by left.
    - intros w Hw. destruct (Hw2 w Hw) as (Hne & rw & _ & _ & Hrw2).
      destruct (sched_rel_lookup _ _ w (set_status CO_STATUS_RUNNING rw) Hrel)
        as (rw' & Hrw' & _ & _ & _ & _ & Hst).
      { by rewrite lookup_insert_ne. }
      rewrite Hrw'. simpl in *. f_equal. by destruct Hst as [?|[? ?]]. }
  split; [|split; [|split; [|split; [|split]]]].
  - intros w Hw. destruct (Hw2 w Hw) as (_ & rw & Hrw & Hst & _). by exists rw.
  - exists s2. split; [done|]. split; [done|]. split; [by rewrite Hd2|].
    intros w Hw. destruct (Hw2 w Hw) as (_ & rw & _ & _ & ->). done.
  - rewrite Hstep. apply co_yield_not_aborted.
  - intros s' Hs'. rewrite Hstep in Hs'.
    destruct (Hafter s' Hs') as (? & Hdied & ?). split; [done|]. split; [|done].
    by apply (Hdied _ eq_refl).
  - intros cf' Hy. rewrite Hstep in Hy.
    apply co_yield_selected in Hy as (cur' & r' & c & rc & Hcur' & Hr' & Hc & Hrc & Hel).
    rewrite Hc2 in Hcur'. injection Hcur' as <-.
    rewrite Hd2 in Hr'. injection Hr' as <-. simpl in Hrc.
    rewrite Hc. intros [= ->]. rewrite lookup_insert_eq in Hrc.
    injection Hrc as <-. simpl in Hel. by destruct Hel.
  - intros n cf' Hrun Hd. apply dead_stays_dead; [|done].
    destruct Hreach as (m0 & main & n0 & Hrun0).
    exists m0, main, (n0 + n). clear -Hrun0 Hrun.
    revert Hrun0. generalize (init m0 main). induction n0 as [|n0 IH]; intros cf0; simpl.
    + by intros [= ->].
    + destruct (step fetch cf0); try done. apply IH.
Qed.

(** C6, as amended.  The ready queue is served round robin in ring
    order from its head, which is not the order of creation:
    [co_queue_insert] links the new node just before the head node,
    that is last in the queue read from the head; a [co_yield] that
    switches has passed over the records behind the head that are
    neither RUNNING nor NEW, switches to the first that is, and leaves
    the head on it; [co_wait] on a dead target leaves the head on the
    successor of the target's node.  For any client in which main
    starts A, B and C and yields, and each of the three begins with a
    [co_yield]: control goes to A, to B and to C, each called once with
    its own argument, and then back to main.  The machine is a
    function, so the order is the same in every run. *)
Theorem round_robin_from_the_head :
  (∀ s c, co_queue (co_queue_insert c s) = co_queue s ++ [c]) ∧
  (∀ κ s cf',
      co_yield κ s = Next cf' →
      ∃ k c rest,
        k < length (co_queue s) ∧
        co_queue (st cf') = rotN (S k) (co_queue s) ∧
        co_queue (st cf') = c :: rest ∧ current_co (st cf') = Some c ∧
        elig_at (heap s) c = true ∧
        ∀ j, j < k → ∃ x, head (rotN (S j) (co_queue s)) = Some x ∧
                          elig_at (heap s) x = false) ∧
  (∀ b k s target pre post rt,
      co_queue s = pre ++ target :: post → target ∉ pre →
      heap s !! target = Some rt → status rt = CO_STATUS_DEAD →
      ∃ s', co_wait b target k s = Next (Config s' (KRun b k)) ∧
            co_queue s' = post ++ pre ∧ current_co s' = current_co s) ∧
  (∀ (m m1 m2 m3 m4 m5 m6 m7 : mem) (main : code)
     nA nB nC (fA fB fC : Z → code) aA aB aC k1 k2 k3 k4 kA kB kC,
      fetch main m = (m1, IStart nA (Some fA) aA k1) →
      fetch (k1 1) m1 = (m2, IStart nB (Some fB) aB k2) →
      fetch (k2 2) m2 = (m3, IStart nC (Some fC) aC k3) →
      fetch (k3 3) m3 = (m4, IYield k4) →
      fetch (fA aA) m4 = (m5, IYield kA) →
      fetch (fB aB) m5 = (m6, IYield kB) →
      fetch (fC aC) m6 = (m7, IYield kC) →
      ∃ s, run fetch 7 (init m main) = Next (Config s (KRun InMain k4)) ∧
           transfers (trace s) = [(1, true); (2, true); (3, true); (0, false)] ∧
           calls 1 (trace s) = [(fA, aA)] ∧ calls 2 (trace s) = [(fB, aB)] ∧
           calls 3 (trace s) = [(fC, aC)] ∧
           co_queue s = [0; 1; 2; 3] ∧ current_co s = Some 0 ∧ umem s = m7).
Proof.
  split; [|split; [|split]].
  - intros s c. unfold co_queue_insert. by destruct (co_queue s).
  - intros κ s cf' Hy.
    destruct (co_yield_cases κ s _ Hy) as (cur & r & Hcur & Hr & Hcases); [done|].
    destruct Hcases as [(q & _ & E)|(c & q & cf1 & Hscan & Hsw & E)]; [done|].
    injection E as <-. unfold scan in Hscan.
    destruct (co_queue s) as [|a q0] eqn:Hq; [done|].
    apply scan_loop_found in Hscan as (k & Hk & Hq' & Hhd & Hel & Hpre).
    destruct q as [|c' rest]; [done|]. injection Hhd as ->.
    exists k, c, rest.
    assert (Hst : co_queue (st cf') = c :: rest ∧ current_co (st cf') = Some c).
    { apply switch_to_Next in Hsw as (rc & Hc & [(? & ? & ->)|(? & f & ? & ? & ->)]);
        simpl; done. }
    destruct Hst as [Hq1 Hc1]. split; [done|]. split; [by rewrite Hq1|].
    split; [done|]. split; [done|]. split.
    + by rewrite <- (elig_at_saved cur r κ s c Hr).
    + intros j Hj. destruct (Hpre j Hj) as (x & Hx & Hxe). exists x.
      split; [done|]. by rewrite <- (elig_at_saved cur r κ s x Hr).
  - intros b k s target pre post rt Hq Hpre Ht Hd.
    unfold co_wait. rewrite Ht. rewrite decide_False by (intros H; by apply H).
    unfold resume_wait. rewrite (reclaim_split target s pre post rt) by done.
    eexists. split; [done|]. done.
  - intros. by eapply abc_first_round.
Qed.

(** C7, as amended.  [co_wait] on a live target that already has a
    registered waiter fails no assertion: the waiter field of the
    target is overwritten with the caller, which is marked WAITING and
    yields. *)
Theorem second_waiter_overwrites b target k s rt w0 cur :
  heap s !! target = Some rt → status rt ≠ CO_STATUS_DEAD →
  waiter rt = Some w0 → current_co s = Some cur →
  co_wait b target k s ≠ Aborted ∧
  ∀ s', state_of (co_wait b target k s) = Some s' →
        (∃ rt', heap s' !! target = Some rt' ∧ waiter rt' = Some cur) ∧
        (∃ rc', heap s' !! cur = Some rc' ∧ status rc' = CO_STATUS_WAITING).
Proof.
  intros Ht Hlive Hw Hcur. unfold co_wait. rewrite Ht.
  rewrite decide_True by done. unfold store. rewrite Ht. simpl. rewrite Hcur.
  destruct (<[target := set_waiter (Some cur) rt]> (heap s) !! cur) as [r1|] eqn:Hr1;
    [|done].
  split; [apply co_yield_not_aborted|].
  intros s' Hs'. apply co_yield_rel in Hs' as (cur' & r' & Hcur' & Hr' & Hrel & _).
  simpl in *. rewrite Hcur in Hcur'. injection Hcur' as <-.
  rewrite lookup_insert_eq in Hr'. injection Hr' as <-.
  split.
  - assert (∃ rt1, <[cur := set_context (Some (KWait b target k))
                             (set_status CO_STATUS_WAITING r1)]>
                     (<[cur := set_status CO_STATUS_WAITING r1]>
                        (<[target := set_waiter (Some cur) rt]> (heap s))) !! target
                   = Some rt1 ∧ waiter rt1 = Some cur) as (rt1 & Hrt1 & Hw1).
    { rewrite insert_insert_eq. destruct (decide (cur = target)) as [->|Hne].
      - rewrite lookup_insert_eq in Hr1. injection Hr1 as <-.
        rewrite lookup_insert_eq. by eexists.
      - rewrite lookup_insert_ne by done. rewrite lookup_insert_eq. by eexists. }
    destruct (sched_rel_lookup _ _ _ _ Hrel Hrt1) as (rt' & Hrt' & _ & _ & Hw' & _).
    exists rt'. split; [done|]. congruence.
  - destruct (sched_rel_lookup _ _ cur _ Hrel (lookup_insert_eq _ _ _))
      as (rc' & Hrc' & _ & _ & _ & _ & Hst).
    exists rc'. split; [done|]. simpl in Hst. by destruct Hst as [?|[? ?]].
Qed.

(** C8, as amended.  When only the primordial coroutine exists and it
    calls [co_yield], the scan wraps around to the primordial record
    itself, which is RUNNING: it is selected again, [co_yield] returns
    to its caller and the process keeps running. *)
Theorem primordial_yield_reselects (m m' : mem) (p k : code) :
  fetch p m = (m', IYield k) →
  step fetch (init m p) =
    Next (Config
            (State {[0 := Co "main" None 0%Z CO_STATUS_RUNNING None
                             (Some (KRun InMain k))]}
                   1 [0] (Some 0) m' [EvResume 0; EvSpawn 0 None 0%Z])
            (KRun InMain k)).
Proof.
  intros Hfetch. unfold step, init. simpl. rewrite boot_eq. simpl.
  rewrite Hfetch. unfold co_yield, store. simpl.
  rewrite lookup_singleton_eq. simpl. rewrite insert_singleton_eq.
  unfold scan. simpl. rewrite lookup_singleton_eq. simpl.
  unfold switch_to. simpl. rewrite lookup_singleton_eq. simpl. done.
Qed.

(** C9. When [co_wait] reclaims a dead target it makes the target's
    node the head of the ready queue and unlinks it: with the queue
    [pre ++ target :: post] read from the old head, the queue is
    [post ++ pre] afterwards, so the head is the node that followed the
    target, whatever the node of the calling coroutine is, and the
    caller goes on without a switch.  The scan of the next [co_yield]
    therefore reads the queue from the successor of that new head and
    meets the new head last. *)
Theorem co_wait_moves_head b k s target pre post rt :
  co_queue s = pre ++ target :: post → target ∉ pre →
  heap s !! target = Some rt → status rt = CO_STATUS_DEAD →
  co_wait b target k s =
    Next (Config (State (delete target (heap s)) (next_addr s) (post ++ pre)
                        (current_co s) (umem s) (EvFree target :: trace s))
                 (KRun b k)) ∧
  ∀ H', post ++ pre ≠ [] → (∀ x, x ∈ post ++ pre → is_Some (H' !! x)) →
        scan H' (post ++ pre) =
          match list_find (λ c, elig_at H' c = true) (rotate (post ++ pre)) with
          | Some (i, c) => Found c (drop i (rotate (post ++ pre)) ++
                                    take i (rotate (post ++ pre)))
          | None => NotFound (post ++ pre)
          end.
Proof.
  intros Hq Hpre Ht Hdead. split.
  - unfold co_wait. rewrite Ht.
    rewrite decide_False by (by intros ?).
    unfold resume_wait, reclaim. simpl. rewrite Hq.
    rewrite find_target_split by done. rewrite decide_True by done.
    rewrite Ht. done.
  - intros H' Hne Hlive. rewrite scan_list_find by done.
    destruct (list_find _ _) as [[i c]|] eqn:Hfind; [|done].
    apply list_find_Some in Hfind as (Hi & _). apply lookup_lt_Some in Hi.
    rewrite rotN_S, rotN_split; [done|lia].
Qed.


End Claims.

(** * Witnesses and counterexamples *)

Lemma entry_called_exactly_once_witness :
  died 1 (trace (state_after 14 (abc_wait "A" "B" "C" 1 2 3))) ∧
  ∃ f a, spawns 1 (trace (state_after 14 (abc_wait "A" "B" "C" 1 2 3)))
           = [(Some f, a)] ∧
         calls 1 (trace (state_after 14 (abc_wait "A" "B" "C" 1 2 3))) = [(f, a)].
Proof.
  destruct (entry_called_exactly_once prog_fetch 0 (abc_wait "A" "B" "C" 1 2 3) 14
              (state_after 14 (abc_wait "A" "B" "C" 1 2 3)))
    as (_ & _ & Hd & _).
  - vm_compute. reflexivity.
  - assert (Hdied : died 1 (trace (state_after 14 (abc_wait "A" "B" "C" 1 2 3)))).
    { unfold died. vm_compute. repeat constructor. }
    split; [exact Hdied|]. apply Hd, Hdied.
Defined.


Lemma wait_wakes_after_death_witness :
  current_co (st (after 7 (abc_wait "A" "B" "C" 1 2 3))) = Some 1 ∧
  ∃ rt', heap (st (after 8 (abc_wait "A" "B" "C" 1 2 3))) !! 1 = Some rt' ∧
         status rt' = CO_STATUS_DEAD.
Proof.
  destruct (wait_wakes_after_death prog_fetch (after 7 (abc_wait "A" "B" "C" 1 2 3)))
    as (_ & Hwake & _).
  { exists 0, (abc_wait "A" "B" "C" 1 2 3), 7. vm_compute. reflexivity. }
  destruct (Hwake (after 8 (abc_wait "A" "B" "C" 1 2 3)) 0
              (Co "main" None 0 CO_STATUS_WAITING None
                  (Some (KWait InMain 1 (Wait 2 (Wait 3 Ret)))))
              InMain 1 (Wait 2 (Wait 3 Ret))
              (Co "main" None 0 CO_STATUS_RUNNING None
                  (Some (KWait InMain 1 (Wait 2 (Wait 3 Ret))))))
    as (_ & Hcur & _ & _ & Hdead).
  - vm_compute. reflexivity.
  - vm_compute. reflexivity.
  - reflexivity.
  - reflexivity.
  - vm_compute. reflexivity.
  - discriminate.
  - split; assumption.
Defined.

Lemma wait_on_dead_reclaims_witness :
  ∃ cf' pre post,
    step prog_fetch (after 7 skip_main) = Next cf' ∧
    co_queue (st (after 7 skip_main)) = pre ++ 1 :: post ∧
    co_queue (st cf') = post ++ pre.
Proof.
  destruct (wait_on_dead_reclaims prog_fetch (after 7 skip_main) InMain
              (Wait 1 (Yield (Yield (Yield Ret)))) 0 1 (Yield (Yield (Yield Ret)))
              (Co "A" (Some ret_now) 1 CO_STATUS_DEAD None (Some KDead)))
    as [(cf' & pre & post & Hstep & _ & _ & _ & Hq & Hq' & _) _].
  - exists 0, skip_main, 7. vm_compute. reflexivity.
  - vm_compute. reflexivity.
  - vm_compute. reflexivity.
  - vm_compute. reflexivity.
  - reflexivity.
  - exists cf', pre, post. repeat split; assumption.
Defined.

(** C4 as stated fails in its last part: [co_wait] is not the only
    place where a record is destroyed.  [spawn_only] never calls
    [co_wait]; when main returns, the record of A is live and nothing
    has been freed, and [co_cleanup] then frees it. *)
Lemma cleanup_frees_unwaited_record :
  ∃ s s', run prog_fetch 2 (init 0 spawn_only) = Returned s ∧
          (status <$> heap s !! 1) = Some CO_STATUS_NEW ∧
          trace s = [EvSpawn 1 (Some ret_now) 1%Z; EvSpawn 0 None 0%Z] ∧
          co_cleanup s = Ok s' ∧ heap s' !! 1 = None ∧
          trace s' = EvFree 1 :: EvFree 0 :: trace s.
Proof.
  eexists _, _. split; [vm_compute; reflexivity|].
  split; [vm_compute; reflexivity|]. split; [vm_compute; reflexivity|].
  split; [vm_compute; reflexivity|]. split; vm_compute; reflexivity.
Qed.

Lemma entry_return_kills_witness :
  (status <$> heap (state_after 8 (abc_wait "A" "B" "C" 1 2 3)) !! 1)
    = Some CO_STATUS_DEAD ∧
  (status <$> heap (state_after 8 (abc_wait "A" "B" "C" 1 2 3)) !! 0)
    = Some CO_STATUS_RUNNING.
Proof.
  destruct (entry_return_kills prog_fetch (after 7 (abc_wait "A" "B" "C" 1 2 3))
              Ret 0 1
              (Co "A" (Some yield_once) 1 CO_STATUS_RUNNING (Some 0)
                  (Some (KRun InEntry Ret))))
    as (_ & _ & _ & Hafter & _).
  - exists 0, (abc_wait "A" "B" "C" 1 2 3), 7. vm_compute. reflexivity.
  - vm_compute. reflexivity.
  - reflexivity.
  - vm_compute. reflexivity.
  - vm_compute. reflexivity.
  - destruct (Hafter (state_after 8 (abc_wait "A" "B" "C" 1 2 3)))
      as (Hd & _ & Hw).
    + vm_compute. reflexivity.
    + split; [exact Hd|]. apply Hw. reflexivity.
Defined.

Lemma round_robin_from_the_head_witness :
  ∃ s, run prog_fetch 7 (init 0 (abc_yield "A" "B" "C" 1 2 3))
       = Next (Config s (KRun InMain (Yield (Yield Ret)))) ∧
       transfers (trace s) = [(1, true); (2, true); (3, true); (0, false)].
Proof.
  destruct (round_robin_from_the_head prog_fetch) as (_ & _ & _ & H).
  destruct (H 0 0 0 0 0 0 0 0 (abc_yield "A" "B" "C" 1 2 3) "A" "B" "C"
              yield_once yield_once yield_once 1%Z 2%Z 3%Z
              (λ a, Start "B" (Some yield_once) 2 (λ b,
                    Start "C" (Some yield_once) 3 (λ c, Yield (Yield (Yield Ret)))))
              (λ b, Start "C" (Some yield_once) 3 (λ c, Yield (Yield (Yield Ret))))
              (λ c, Yield (Yield (Yield Ret))) (Yield (Yield Ret)) Ret Ret Ret)
    as (s & Hrun & Htr & _); try reflexivity.
  exists s. split; assumption.
Defined.

(** C6 as stated fails: the queue is not in the order of creation.
    In [nested_spawn] main starts A and B and yields; A, in its first
    run, starts D, and the node of D is linked just before the node of
    A, where the head is: behind main, before the older A and B.  When
    B then yields, D (created before B ever ran) is passed over for
    main, and D is started only at the next [co_yield] of main. *)
Lemma creation_order_is_not_queue_order :
  trace (st (after 4 nested_spawn)) =
    [EvSpawn 3 (Some yield_once) 4%Z;
     EvCall 1 (λ _, Start "D" (Some yield_once) 4 (λ d, Yield Ret)) 1%Z;
     EvSpawn 2 (Some yield_once) 2%Z;
     EvSpawn 1 (Some (λ _, Start "D" (Some yield_once) 4 (λ d, Yield Ret))) 1%Z;
     EvSpawn 0 None 0%Z] ∧
  co_queue (st (after 4 nested_spawn)) = [1; 2; 0; 3] ∧
  (status <$> heap (st (after 5 nested_spawn)) !! 3) = Some CO_STATUS_NEW ∧
  transfers (trace (st (after 6 nested_spawn))) = [(1, true); (2, true); (0, false)] ∧
  transfers (trace (st (after 7 nested_spawn))) =
    [(1, true); (2, true); (0, false); (3, true)].
Proof. repeat split; vm_compute; reflexivity. Qed.

Lemma second_waiter_overwrites_witness :
  co_wait InEntry 1 Ret (st (after 4 two_waiters)) ≠ Aborted.
Proof.
  apply (second_waiter_overwrites InEntry 1 Ret (st (after 4 two_waiters))
           (Co "T" (Some yield_once) 1 CO_STATUS_RUNNING (Some 0)
               (Some (KRun InEntry Ret))) 0 2).
  - vm_compute. reflexivity.
  - discriminate.
  - reflexivity.
  - vm_compute. reflexivity.
Defined.

(** C7 as stated fails.  In the run of [two_waiters] main is the
    registered waiter of T when W calls [co_wait] on T: the call does
    not abort, it replaces main by W in the waiter field, and the run
    ends in [exit(0)] with main still WAITING. *)
Lemma second_waiter_not_detected :
  pc (after 4 two_waiters) = KRun InEntry (Wait 1 Ret) ∧
  (waiter <$> heap (st (after 4 two_waiters)) !! 1) = Some (Some 0) ∧
  (status <$> heap (st (after 4 two_waiters)) !! 1) = Some CO_STATUS_RUNNING ∧
  step prog_fetch (after 4 two_waiters) ≠ Aborted ∧
  step prog_fetch (after 4 two_waiters) = Next (after 5 two_waiters) ∧
  (waiter <$> heap (st (after 5 two_waiters)) !! 1) = Some (Some 2) ∧
  ∃ s, run prog_fetch 8 (init 0 two_waiters) = Exited s ∧
       (status <$> heap s !! 0) = Some CO_STATUS_WAITING.
Proof.
  split; [vm_compute; reflexivity|]. split; [vm_compute; reflexivity|].
  split; [vm_compute; reflexivity|]. split; [vm_compute; discriminate|].
  split; [vm_compute; reflexivity|]. split; [vm_compute; reflexivity|].
  eexists. split; vm_compute; reflexivity.
Qed.

Lemma primordial_yield_reselects_witness :
  step prog_fetch (init 0 (Yield Ret)) =
    Next (Config
            (State {[0 := Co "main" None 0%Z CO_STATUS_RUNNING None
                             (Some (KRun InMain Ret))]}
                   1 [0] (Some 0) 0 [EvResume 0; EvSpawn 0 None 0%Z])
            (KRun InMain Ret)).
Proof. apply (primordial_yield_reselects prog_fetch 0 0 (Yield Ret) Ret). reflexivity. Defined.

(** C8 as stated fails: with no coroutine but the primordial one, a
    [co_yield] from main does not end the process. *)
Lemma primordial_yield_does_not_exit :
  (∀ s, step prog_fetch (init 0 (Yield Ret)) ≠ Exited s) ∧
  ∃ cf, step prog_fetch (init 0 (Yield Ret)) = Next cf ∧ pc cf = KRun InMain Ret.
Proof.
  split.
  - intros s. vm_compute. discriminate.
  - eexists. split; [reflexivity|reflexivity].
Qed.

Lemma co_wait_moves_head_witness :
  co_wait InMain 1 (Yield (Yield (Yield Ret))) (st (after 7 skip_main)) =
    Next (Config (State (delete 1 (heap (st (after 7 skip_main))))
                        (next_addr (st (after 7 skip_main))) ([2; 3] ++ [0])
                        (current_co (st (after 7 skip_main)))
                        (umem (st (after 7 skip_main)))
                        (EvFree 1 :: trace (st (after 7 skip_main))))
                 (KRun InMain (Yield (Yield (Yield Ret))))).
Proof.
  refine (proj1 (co_wait_moves_head InMain (Yield (Yield (Yield Ret)))
                   (st (after 7 skip_main)) 1 [0] [2; 3]
                   (Co "A" (Some ret_now) 1 CO_STATUS_DEAD None (Some KDead))
                   _ _ _ _)).
  - vm_compute. reflexivity.
  - by rewrite list_elem_of_singleton.
  - vm_compute. reflexivity.
  - reflexivity.
Defined.

(** In the run of [skip_main] main reclaims the dead A while B and C
    are suspended: the head of the queue moves from the node of main to
    the node of B, and the next [co_yield] of main resumes C, not B. *)
Example skip_main_schedule :
  co_queue (st (after 7 skip_main)) = [0; 1; 2; 3] ∧
  current_co (st (after 7 skip_main)) = Some 0 ∧
  co_queue (st (after 8 skip_main)) = [2; 3; 0] ∧
  current_co (st (after 8 skip_main)) = Some 0 ∧
  current_co (st (after 9 skip_main)) = Some 3.
Proof. vm_compute. done. Qed.


(** * Further properties of the runtime *)

Section Runtime.
Context {code mem : Type} (fetch : code → mem → mem * instr code).
Implicit Types (H : gmap nat (co code)) (r : co code) (κ : kont code).
Implicit Types (s : state code mem) (cf : config code mem).

(** X1. In every configuration that a run reaches, the ready queue
    has no record twice and holds exactly the live records (started
    and not yet freed); the primordial record is among them, and so is
    the current coroutine. *)
Theorem ready_queue_holds_live_records cf :
  reachable fetch cf →
  NoDup (co_queue (st cf)) ∧
  (∀ c, c ∈ co_queue (st cf) ↔ is_Some (heap (st cf) !! c)) ∧
  0 ∈ co_queue (st cf) ∧
  ∃ cur, current_co (st cf) = Some cur ∧ cur ∈ co_queue (st cf).
Proof.
  intros Hreach. apply reachable_inv in Hreach as [HI _].
  destruct cf as [s κ]. pose proof HI as [Hnd Hring _]. simpl in *.
  split; [done|]. split; [done|]. split.
  - apply Hring. destruct (Inv_main _ _ HI) as (r0 & -> & _). by eexists.
  - destruct (Inv_cur _ _ HI) as (cur & r & Hc & Hr & Hst).
    exists cur. split; [done|]. apply Hring. by eexists.
Qed.

Lemma sched_rel_dom H H' x : sched_rel H H' → is_Some (H !! x) ↔ is_Some (H' !! x).
Proof.
  intros Hrel. specialize (Hrel x).
  destruct (H !! x), (H' !! x); try done; split; intros [? ?]; done.
Qed.

Lemma co_yield_ring κ s s' :
  ring_ok s → state_of (co_yield κ s) = Some s' → ring_ok s'.
Proof.
  intros [Hnd Hring] Hy.
  apply co_yield_rel in Hy as (cur & r & Hcur & Hr & Hrel & _ & _ & Hperm).
  split; [by rewrite Hperm|]. intros x.
  rewrite Hperm, Hring, <- (sched_rel_dom _ _ x Hrel). simpl.
  symmetry. by apply insert_is_Some_iff with r.
Qed.

Lemma co_wait_live b h k s cur r rt :
  current_co s = Some cur → heap s !! cur = Some r → heap s !! h = Some rt →
  status rt ≠ CO_STATUS_DEAD →
  ∃ s2, co_wait b h k s = co_yield (KWait b h k) s2 ∧
        co_queue s2 = co_queue s ∧
        ∀ x, is_Some (heap s2 !! x) ↔ is_Some (heap s !! x).
Proof.
  intros Hcur Hr Ht Hlive. unfold co_wait, store. rewrite Ht.
  rewrite decide_True by done. simpl. rewrite Hcur.
  assert (Hc : is_Some (<[h := set_waiter (Some cur) rt]> (heap s) !! cur)).
  { apply lookup_insert_is_Some. destruct (decide (h = cur)); [by left|right; eauto]. }
  destruct Hc as [rc Hc]. rewrite Hc. eexists. split; [done|]. simpl.
  split; [done|]. intros x.
  rewrite (insert_is_Some_iff _ cur rc) by done.
  by rewrite (insert_is_Some_iff _ h rt).
Qed.

Lemma co_yield_not_returned κ s s' : co_yield κ s ≠ Returned s'.
Proof.
  unfold co_yield. destruct (current_co s); [|done].
  destruct (store _ _ _); try done. destruct (scan _ _); try done.
  apply switch_to_not_exit.
Qed.

Lemma co_exit_not_returned s s' : co_exit s ≠ Returned s'.
Proof.
  unfold co_exit. destruct (current_co s); [|done].
  destruct (heap s !! n) as [r|]; [|done].
  destruct (waiter r); [|apply co_yield_not_returned].
  destruct (store _ _ _); try done. apply co_yield_not_returned.
Qed.

Lemma co_wait_not_returned b h k s s' : co_wait b h k s ≠ Returned s'.
Proof.
  unfold co_wait. destruct (heap s !! h) as [rt|]; [|done].
  case_decide.
  - destruct (store _ _ _); try done. destruct (current_co _); [|done].
    destruct (store _ _ _); try done. apply co_yield_not_returned.
  - unfold resume_wait. by destruct (reclaim _ _).
Qed.

(** Also the state in which the process ends has a ring of exactly the
    live records. *)
Lemma step_ring cf s' :
  Inv cf → state_of (step fetch cf) = Some s' → ring_ok s'.
Proof.
  intros HI Hs.
  destruct (step fetch cf) as [cf'|se|sr| |] eqn:Hstep; try done.
  { injection Hs as <-. apply (step_inv fetch) in Hstep; [|done].
    destruct Hstep as [? ? _]. by split. }
  all: injection Hs as ->.
  all: destruct cf as [s κ]; unfold step in Hstep; simpl in Hstep.
  all: destruct κ as [b p|b target k|];
    [|unfold resume_wait in Hstep; by destruct (reclaim target s)|done].
  all: destruct (fetch p (umem s)) as [m i] eqn:Hfetch.
  all: apply (Inv_set_umem m) in HI.
  all: destruct (Inv_cur _ _ HI) as (cur & r & Hcur & Hr & Hrun).
  all: assert (Hok : ring_ok (set_umem m s)) by (destruct HI as [? ? _]; by split).
  all: destruct i as [|k|h k|nm f a k];
    [| | |by destruct (co_start nm f a (set_umem m s))].
  - destruct b; [done|].
    destruct (co_exit_unfold _ _ _ _ HI Hcur Hr)
      as (s2 & Hex & _ & _ & Hq2 & Hr2 & Hw2 & Hoth2).
    rewrite Hex in Hstep. eapply co_yield_ring; [|by rewrite Hstep].
    destruct Hok as [Hnd Hring]. split; [by rewrite Hq2|]. intros x.
    rewrite Hq2, Hring.
    destruct (decide (x = cur)) as [->|Hne]; [rewrite Hr2, Hr; by split; eauto|].
    destruct (decide (waiter r = Some x)) as [Hwc|Hnw].
    + destruct (Hw2 x Hwc) as (_ & rw & Hrw & _ & Hrw'). rewrite Hrw, Hrw'.
      by split; eauto.
    + by rewrite (Hoth2 x).
  - eapply co_yield_ring; [exact Hok|by rewrite Hstep].
  - unfold co_wait in Hstep. simpl in Hstep.
    destruct (heap s !! h) as [rt|] eqn:Ht; [|done].
    destruct (decide (status rt ≠ CO_STATUS_DEAD)) as [Hlive|Hd]; cycle 1.
    { unfold resume_wait in Hstep. by destruct (reclaim h _). }
    destruct (co_wait_live b h k (set_umem m s) cur r rt) as (s2 & Hw & Hq2 & Hdom);
      try done.
    unfold co_wait in Hw. simpl in Hw. rewrite Ht in Hw.
    rewrite decide_True in Hw by done. rewrite Hw in Hstep.
    eapply co_yield_ring; [|by rewrite Hstep].
    destruct Hok as [Hnd Hring]. split; [by rewrite Hq2|]. intros x.
    by rewrite Hq2, Hdom.
  - destruct b; [|by apply co_exit_not_returned in Hstep].
    by injection Hstep as <-.
  - by apply co_yield_not_returned in Hstep.
  - by apply co_wait_not_returned in Hstep.
Qed.

(** What a step does to a record that is not the current one. *)
Lemma step_frame cf cf' x r :
  Inv cf → step fetch cf = Next cf' →
  heap (st cf) !! x = Some r → current_co (st cf) ≠ Some x →
  (heap (st cf') !! x = None ∧ status r = CO_STATUS_DEAD) ∨
  ∃ r', heap (st cf') !! x = Some r' ∧
        name r' = name r ∧ func r' = func r ∧ arg r' = arg r ∧
        context r' = context r ∧
        (waiter r' = waiter r ∨
         (waiter r' = current_co (st cf) ∧ status r ≠ CO_STATUS_DEAD ∧
          ∃ b p m k, pc cf = KRun b p ∧
                     fetch p (umem (st cf)) = (m, IWait x k))).
Proof.
  destruct cf as [s κ]. intros HInv. unfold step. simpl.
  intros Hstep Hx Hncur.
  destruct (Inv_cur _ _ HInv) as (cur & rc & Hcur & Hrc & Hrun).
  assert (Hxc : x ≠ cur) by congruence.
  assert (Hyield : ∀ κ' s2 rx,
            co_yield κ' s2 = Next cf' → current_co s2 = Some cur →
            heap s2 !! x = Some rx →
            ∃ r', heap (st cf') !! x = Some r' ∧
                  name r' = name rx ∧ func r' = func rx ∧ arg r' = arg rx ∧
                  context r' = context rx ∧ waiter r' = waiter rx).
  { intros κ' s2 rx Hy Hc2 Hx2.
    assert (Hs' : state_of (co_yield κ' s2) = Some (st cf')) by (by rewrite Hy).
    apply co_yield_rel in Hs' as (cur' & r2 & Hcur' & Hr2 & Hrel & _).
    rewrite Hc2 in Hcur'. injection Hcur' as <-.
    specialize (Hrel x). simpl in Hrel.
    rewrite lookup_insert_ne, Hx2 in Hrel by done.
    destruct (heap (st cf') !! x) as [r'|]; [|done].
    destruct Hrel as (? & ? & ? & ? & ? & _). by exists r'. }
  assert (Hreclaim : ∀ b t k s0, heap s0 = heap s →
            (∀ rt, heap s !! t = Some rt → status rt = CO_STATUS_DEAD) →
            resume_wait b t k s0 = Next cf' →
            (heap (st cf') !! x = None ∧ status r = CO_STATUS_DEAD) ∨
            heap (st cf') !! x = Some r).
  { intros b t k s0 Hh Hdead. unfold resume_wait.
    destruct (reclaim t s0) as [s1| |] eqn:Hrec; [|done|done].
    apply reclaim_ok in Hrec as (? & ? & rt & _ & _ & Ht & ->).
    intros [= <-]. simpl. rewrite Hh in *.
    destruct (decide (t = x)) as [->|Hne].
    - left. rewrite lookup_delete_eq. split; [done|]. by apply Hdead.
    - right. by rewrite lookup_delete_ne. }
  destruct κ as [b p|b target k|].
  - destruct (fetch p (umem s)) as [m i] eqn:Hfetch.
    apply (Inv_set_umem m) in HInv.
    destruct i as [|k|h k|nm f a k].
    + destruct b; [done|].
      destruct (co_exit_unfold _ _ cur rc HInv Hcur Hrc)
        as (s2 & E & Hc2 & _ & _ & Hd2 & Hw2 & Hoth).
      rewrite E in Hstep. right.
      destruct (decide (waiter rc = Some x)) as [Hwx|Hwx].
      * destruct (Hw2 x Hwx) as (_ & rw & Hrw & _ & Hrw2).
        simpl in Hrw. rewrite Hx in Hrw. injection Hrw as <-.
        destruct (Hyield _ _ _ Hstep Hc2 Hrw2) as (r' & ? & ? & ? & ? & ? & ?).
        exists r'. repeat split; try done. by left.
      * assert (Hx2 : heap s2 !! x = Some r) by (by rewrite Hoth).
        destruct (Hyield _ _ _ Hstep Hc2 Hx2) as (r' & ? & ? & ? & ? & ? & ?).
        exists r'. repeat split; try done. by left.
    + right. destruct (Hyield _ _ r Hstep) as (r' & ? & ? & ? & ? & ? & ?); try done.
      exists r'. repeat split; try done. by left.
    + unfold co_wait in Hstep. simpl in Hstep.
      destruct (heap s !! h) as [rt|] eqn:Ht; [|done].
      case_decide as Hlive.
      * right. unfold store in Hstep. simpl in Hstep. rewrite Ht in Hstep.
        simpl in Hstep. rewrite Hcur in Hstep.
        destruct (<[h := set_waiter (Some cur) rt]> (heap s) !! cur) as [r1|]; [|done].
        destruct (decide (h = x)) as [->|Hhx].
        -- rewrite Hx in Ht. injection Ht as <-.
           destruct (Hyield _ _ (set_waiter (Some cur) r) Hstep)
             as (r' & ? & ? & ? & ? & ? & Hwt); [done|..].
           { simpl. rewrite lookup_insert_ne by done. apply lookup_insert_eq. }
           exists r'. repeat split; try done. right. split; [by rewrite Hcur, Hwt|].
           split; [done|]. by exists b, p, m, k.
        -- destruct (Hyield _ _ r Hstep) as (r' & ? & ? & ? & ? & ? & ?); [done|..].
           { simpl. by rewrite !lookup_insert_ne. }
           exists r'. repeat split; try done. by left.
      * destruct (Hreclaim b h k (set_umem m s) eq_refl) as [?|Hsame]; [|done|by left|].
        -- intros rt' Hrt'. simpl in Hrt'. rewrite Ht in Hrt'. injection Hrt' as <-.
           by destruct (decide (status rt = CO_STATUS_DEAD)).
        -- right. exists r. repeat split; try done. by left.
    + right. unfold co_queue_insert in Hstep. simpl in Hstep.
      assert (Hfresh : x ≠ next_addr s).
      { destruct HInv as [_ _ (cur0 & r0 & _ & Hr0 & _ & HQ)]. simpl in *.
        assert (x < next_addr s); [|lia].
        apply (q_fresh _ _ HQ). rewrite (insert_is_Some_iff _ cur0 r0) by done. eauto. }
      exists r. split; [|repeat split; try done; by left].
      destruct (co_queue s); injection Hstep as <-; simpl;
        by rewrite lookup_insert_ne.
  - destruct (Inv_resumed _ _ _ _ HInv) as [_ Hdead].
    destruct (Hreclaim b target k s eq_refl Hdead Hstep) as [?|Hsame]; [by left|].
    right. exists r. repeat split; try done. by left.
  - done.
Qed.

(** X4. A step after which the process goes on frees only a record
    whose status is DEAD, and never the record of the current
    coroutine. *)
Theorem only_dead_records_are_freed cf cf' x r :
  reachable fetch cf → step fetch cf = Next cf' →
  heap (st cf) !! x = Some r → heap (st cf') !! x = None →
  status r = CO_STATUS_DEAD ∧ current_co (st cf) ≠ Some x.
Proof.
  intros Hreach Hstep Hx Hx'. apply reachable_inv in Hreach as [HI _].
  assert (Hncur : current_co (st cf) ≠ Some x).
  { intros Hc. destruct cf as [s κ].
    destruct (Inv_cur _ _ HI) as (cur & rc & Hcur & Hrc & Hrun). simpl in *.
    assert (cur = x) as -> by congruence.
    apply (step_inv fetch) in Hstep as HI'; [|done].
    (* the current record is not freed: by the frame of the step *)
    destruct (step_frees fetch (Config s κ) (st cf') x) as [(b & k & Hpc)|(b & p & m & k & Hpc & Hf)];
      [by rewrite Hstep|by eexists|done|..]; simpl in *; subst κ.
    - destruct (Inv_resumed _ _ _ _ HI) as [Hn _]. congruence.
    - unfold step in Hstep. simpl in Hstep. rewrite Hf in Hstep.
      apply (Inv_set_umem m) in HI.
      destruct (co_wait_live b x k (set_umem m s) x rc rc) as (s2 & Hw & _ & Hdom);
        try done; [simpl; congruence|].
      rewrite Hw in Hstep.
      assert (Hs : state_of (co_yield (KWait b x k) s2) = Some (st cf')) by (by rewrite Hstep).
      apply co_yield_dom with (c := x) in Hs; [|done].
      assert (Hsome : is_Some (heap s2 !! x)) by (apply Hdom; simpl; eauto).
      rewrite Hs in Hsome. by destruct Hsome. }
  split; [|done].
  destruct (step_frame cf cf' x r HI Hstep Hx Hncur)
    as [[_ Hd]|(r' & Hr' & _)]; [done|congruence].
Qed.

(** X5. A record that is neither the current one nor DEAD survives
    every step with its name, entry function, argument and saved
    context: a [jmp_buf] is written only by its own coroutine. *)
Theorem suspended_record_is_not_disturbed cf cf' x r :
  reachable fetch cf → step fetch cf = Next cf' →
  heap (st cf) !! x = Some r → current_co (st cf) ≠ Some x →
  status r ≠ CO_STATUS_DEAD →
  ∃ r', heap (st cf') !! x = Some r' ∧
        name r' = name r ∧ func r' = func r ∧ arg r' = arg r ∧
        context r' = context r.
Proof.
  intros Hreach Hstep Hx Hcur Hlive. apply reachable_inv in Hreach as [HI _].
  destruct (step_frame cf cf' x r HI Hstep Hx Hcur)
    as [[_ Hd]|(r' & ? & ? & ? & ? & ? & _)]; [done|].
  by exists r'.
Qed.

(** X6. In every reached configuration the [waiter] field of a
    record that is not DEAD points to a live record whose status is
    WAITING, which is suspended in the [co_yield] of a [co_wait] on
    that very record and is not the current coroutine.  So the wake-up
    in the death path never writes to a freed record. *)
Theorem registered_waiter_is_blocked cf x rx w :
  reachable fetch cf → heap (st cf) !! x = Some rx → waiter rx = Some w →
  status rx ≠ CO_STATUS_DEAD →
  ∃ rw b k, heap (st cf) !! w = Some rw ∧ status rw = CO_STATUS_WAITING ∧
            context rw = Some (KWait b x k) ∧ current_co (st cf) ≠ Some w.
Proof.
  intros Hreach Hx Hw Hlive. apply reachable_inv in Hreach as [HI _].
  destruct cf as [s κ]. by apply (Inv_wait s κ x rx w).
Qed.

(** The status of a record before and after a step of [step]. *)
Lemma status_cases cf cf' x r r' :
  reachable fetch cf → step fetch cf = Next cf' →
  heap (st cf) !! x = Some r → heap (st cf') !! x = Some r' →
  status r' = status r ∨
  (status r = CO_STATUS_NEW ∧ status r' = CO_STATUS_RUNNING) ∨
  (status r = CO_STATUS_RUNNING ∧ status r' = CO_STATUS_WAITING) ∨
  (status r = CO_STATUS_WAITING ∧ status r' = CO_STATUS_RUNNING) ∨
  (status r = CO_STATUS_RUNNING ∧ status r' = CO_STATUS_DEAD).
Proof.
  intros Hreach Hstep Hx Hx'.
  destruct (decide (status r' = status r)) as [|Hchg]; [by left|right].
  pose proof (reachable_inv fetch cf Hreach) as [HI HT].
  assert (Hreach' : reachable fetch cf').
  { destruct Hreach as (m0 & main & n & Hrun). exists m0, main, (S n).
    clear -Hrun Hstep. revert Hrun. generalize (init m0 main).
    induction n as [|n IH]; intros cf0; simpl.
    - intros [= ->]. rewrite Hstep. done.
    - destruct (step fetch cf0) as [cf1| | | |]; try done. apply IH. }
  pose proof (reachable_inv fetch cf' Hreach') as [HI' HT'].
  destruct (decide (current_co (st cf) = Some x)) as [Hcur|Hncur].
  - destruct cf as [s κ].
    destruct (Inv_cur _ _ HI) as (cur & rc & Hc & Hrc & Hrun). simpl in *.
    assert (cur = x) as -> by congruence.
    rewrite Hx in Hrc. injection Hrc as <-. rewrite Hrun in *.
    destruct (status r') eqn:Hst'; [exfalso|done|by right; left|by right; right; right].
    destruct (decide (x = 0)) as [->|Hx0].
    { destruct cf' as [s' κ']. destruct (Inv_main _ _ HI') as (r0 & Hr0 & _ & Hn & _).
      simpl in *. congruence. }
    destruct HT as [_ _ Hl _]. destruct HT' as [_ _ Hl' _].
    destruct (Hl x r Hx) as (_ & _ & (f & _ & Hcalls) & _); [congruence|done|].
    destruct (Hl' x r' Hx') as (_ & Hnew & _). destruct Hnew as [Hcalls' _]; [by left|].
    assert (E : calls x (trace (st cf')) ≠ calls x (trace s))
      by (by rewrite Hcalls, Hcalls').
    destruct (step_calls fetch _ _ x Hstep E) as (_ & ? & ? & _ & _ & E').
    simpl in *. congruence.
  - destruct (step_status fetch cf cf' x r r' HI Hstep Hx Hncur Hx' Hchg)
      as [?|(cur & rc & p & m & Hc & Hrc & Hw & _ & _ & Hr' & _)]; [by left|].
    right. right. left. split; [|done].
    destruct cf as [s κ].
    destruct (Inv_cur _ _ HI) as (cur' & rc' & Hc' & Hrc' & Hrun). simpl in *.
    assert (cur' = cur) as -> by congruence.
    rewrite Hrc in Hrc'. injection Hrc' as <-.
    destruct (Inv_wait s κ cur rc x HI Hrc Hw) as (rw & _ & _ & Hrw & Hst & _);
      [congruence|].
    congruence.
Qed.

(** X7. No record becomes NEW again, a DEAD record stays DEAD, and
    the status of a record that has left NEW changes only from RUNNING
    to WAITING, from WAITING to RUNNING and from RUNNING to DEAD. *)
Theorem status_follows_life_cycle cf cf' x r r' :
  reachable fetch cf → step fetch cf = Next cf' →
  heap (st cf) !! x = Some r → heap (st cf') !! x = Some r' →
  (status r' = CO_STATUS_NEW → status r = CO_STATUS_NEW) ∧
  (status r = CO_STATUS_DEAD → status r' = CO_STATUS_DEAD) ∧
  (status r ≠ CO_STATUS_NEW →
     status r' = status r ∨
     (status r = CO_STATUS_RUNNING ∧ status r' = CO_STATUS_WAITING) ∨
     (status r = CO_STATUS_WAITING ∧ status r' = CO_STATUS_RUNNING) ∨
     (status r = CO_STATUS_RUNNING ∧ status r' = CO_STATUS_DEAD)).
Proof.
  intros Hreach Hstep Hx Hx'.
  destruct (status_cases cf cf' x r r' Hreach Hstep Hx Hx')
    as [E|[[E1 E2]|[[E1 E2]|[[E1 E2]|[E1 E2]]]]]; rewrite ?E, ?E1, ?E2.
  - split; [done|]. split; [done|]. by left.
  - split; [done|]. split; [done|]. done.
  - split; [done|]. split; [done|]. intros _. right. by left.
  - split; [done|]. split; [done|]. intros _. right. right. by left.
  - split; [done|]. split; [done|]. intros _. right. right. by right.
Qed.

Lemma reachable_step cf cf' :
  reachable fetch cf → step fetch cf = Next cf' → reachable fetch cf'.
Proof.
  intros (m0 & main & n & Hrun) Hstep. exists m0, main, (S n).
  revert Hrun. generalize (init m0 main).
  induction n as [|n IH]; intros cf0; simpl.
  - intros [= ->]. by rewrite Hstep.
  - destruct (step fetch cf0) as [cf1| | | |]; try done. apply IH.
Qed.

Lemma blocked_on_self_step cf cf' x r b k :
  reachable fetch cf → step fetch cf = Next cf' →
  current_co (st cf) ≠ Some x → heap (st cf) !! x = Some r →
  status r = CO_STATUS_WAITING → context r = Some (KWait b x k) →
  current_co (st cf') ≠ Some x ∧
  ∃ r', heap (st cf') !! x = Some r' ∧ status r' = CO_STATUS_WAITING ∧
        context r' = Some (KWait b x k).
Proof.
  intros Hreach Hstep Hncur Hx Hst Hctx.
  pose proof (reachable_inv fetch cf Hreach) as [HI _].
  pose proof (reachable_inv fetch cf' (reachable_step _ _ Hreach Hstep)) as [HI' _].
  destruct (step_frame cf cf' x r HI Hstep Hx Hncur)
    as [[_ Hd]|(r' & Hx' & _ & _ & _ & Hctx' & _)]; [congruence|].
  assert (Hst' : status r' = CO_STATUS_WAITING).
  { destruct (decide (status r' = status r)) as [|Hchg]; [congruence|]. exfalso.
    destruct (step_status fetch cf cf' x r r' HI Hstep Hx Hncur Hx' Hchg)
      as [[? _]|(cur & rc & p & m & Hc & Hrc & Hw & _)]; [congruence|].
    destruct cf as [s κ]. simpl in *.
    destruct (Inv_cur _ _ HI) as (cur' & rc' & Hc' & Hrc' & Hrun).
    assert (cur' = cur) as -> by congruence.
    rewrite Hrc in Hrc'. injection Hrc' as <-.
    destruct (Inv_wait s κ cur rc x HI Hrc Hw) as (rw & b' & k' & Hrw & _ & Hk & _);
      [congruence|].
    rewrite Hx in Hrw. injection Hrw as <-. rewrite Hctx in Hk.
    injection Hk as _ -> _. congruence. }
  split.
  - destruct cf' as [s' κ']. destruct (Inv_cur _ _ HI') as (c & rc & Hc & Hrc & Hrun).
    simpl in *. rewrite Hc. intros [= ->]. congruence.
  - exists r'. split; [done|]. split; [done|]. congruence.
Qed.

(** X8. A coroutine that calls [co_wait] on its own handle is never
    the current coroutine again: in every later configuration of the
    run its status is WAITING. *)
Theorem self_wait_blocks_forever cf b p m k x n cf' :
  reachable fetch cf → pc cf = KRun b p →
  fetch p (umem (st cf)) = (m, IWait x k) → current_co (st cf) = Some x →
  run fetch (S n) cf = Next cf' →
  current_co (st cf') ≠ Some x ∧
  ∃ r', heap (st cf') !! x = Some r' ∧ status r' = CO_STATUS_WAITING.
Proof.
  intros Hreach Hpc Hf Hcur. simpl.
  destruct (step fetch cf) as [cf1| | | |] eqn:Hstep; try done.
  pose proof (reachable_inv fetch cf Hreach) as [HI _].
  pose proof (reachable_step _ _ Hreach Hstep) as Hreach1.
  assert (H1 : current_co (st cf1) ≠ Some x ∧
               ∃ r1, heap (st cf1) !! x = Some r1 ∧
                     status r1 = CO_STATUS_WAITING ∧
                     context r1 = Some (KWait b x k)).
  { pose proof (reachable_inv fetch cf1 Hreach1) as [HI1 _].
    destruct cf as [s κ]. simpl in *. subst κ.
    destruct (Inv_cur _ _ HI) as (cur & r & Hc & Hr & Hrun). simpl in *.
    assert (cur = x) as -> by congruence.
    unfold step in Hstep. simpl in Hstep. rewrite Hf in Hstep.
    unfold co_wait, store in Hstep. simpl in Hstep. rewrite Hr in Hstep.
    rewrite decide_True in Hstep by congruence. simpl in Hstep.
    rewrite Hc, lookup_insert_eq in Hstep.
    assert (Hs' : state_of (co_yield (KWait b x k)
                   (set_heap (<[x := set_status CO_STATUS_WAITING
                                       (set_waiter (Some x) r)]>
                                (<[x := set_waiter (Some x) r]> (heap s)))
                             (set_heap (<[x := set_waiter (Some x) r]> (heap s))
                                       (set_umem m s)))) = Some (st cf1))
      by (by rewrite Hstep).
    apply co_yield_rel in Hs' as (cur' & r2 & Hcur' & Hr2 & Hrel & _).
    simpl in Hcur', Hr2. rewrite Hc in Hcur'. injection Hcur' as <-.
    rewrite lookup_insert_eq in Hr2. injection Hr2 as <-.
    specialize (Hrel x). simpl in Hrel. rewrite lookup_insert_eq in Hrel.
    destruct (heap (st cf1) !! x) as [r1|] eqn:Hx1; [|done].
    destruct Hrel as (_ & _ & _ & _ & Hk1 & Hs1). simpl in *.
    assert (Hst1 : status r1 = CO_STATUS_WAITING) by (by destruct Hs1 as [?|[? ?]]).
    split.
    - destruct cf1 as [s1 κ1]. destruct (Inv_cur _ _ HI1) as (c & rc & Hcc & Hrc & Hrn).
      simpl in *. rewrite Hcc. intros [= ->]. congruence.
    - by exists r1. }
  clear Hstep Hreach HI Hpc Hf Hcur.
  revert cf1 Hreach1 H1. induction n as [|n IH]; intros cf1 Hreach1 H1; simpl.
  - intros [= <-]. destruct H1 as (? & r1 & ? & ? & ?). split; [done|]. by exists r1.
  - destruct (step fetch cf1) as [cf2| | | |] eqn:Hstep; try done.
    destruct H1 as (Hn1 & r1 & Hx1 & Hst1 & Hk1).
    destruct (blocked_on_self_step cf1 cf2 x r1 b k Hreach1 Hstep Hn1 Hx1 Hst1 Hk1)
      as (Hn2 & r2 & Hx2 & Hst2 & Hk2).
    apply IH; [by eapply reachable_step|]. split; [done|]. by exists r2.
Qed.

(** The [waiter] field of a record after a step: it is what it was, or
    the coroutine that was current. *)
Lemma step_waiter cf cf' t rt rt' :
  Inv cf → step fetch cf = Next cf' →
  heap (st cf) !! t = Some rt → heap (st cf') !! t = Some rt' →
  waiter rt' = waiter rt ∨ waiter rt' = current_co (st cf).
Proof.
  intros HI Hstep Ht Ht'.
  destruct (decide (current_co (st cf) = Some t)) as [Hcur|Hncur]; cycle 1.
  { destruct (step_frame cf cf' t rt HI Hstep Ht Hncur)
      as [[Hn _]|(r' & Hr' & _ & _ & _ & _ & Hw)]; [congruence|].
    rewrite Ht' in Hr'. injection Hr' as <-.
    destruct Hw as [?|(? & _)]; [by left|by right]. }
  destruct cf as [s κ]. unfold step in Hstep. simpl in *.
  assert (Hyield : ∀ κ' s2 r2,
            co_yield κ' s2 = Next cf' → current_co s2 = Some t →
            heap s2 !! t = Some r2 → waiter rt' = waiter r2).
  { intros κ' s2 r2 Hy Hc2 Hr2.
    assert (Hs' : state_of (co_yield κ' s2) = Some (st cf')) by (by rewrite Hy).
    apply co_yield_rel in Hs' as (cur' & r2' & Hcur' & Hr2' & Hrel & _).
    rewrite Hc2 in Hcur'. injection Hcur' as <-.
    rewrite Hr2 in Hr2'. injection Hr2' as <-.
    specialize (Hrel t). simpl in Hrel. rewrite lookup_insert_eq, Ht' in Hrel.
    by destruct Hrel as (_ & _ & _ & ? & _). }
  assert (Hreclaim : ∀ b x k s0, heap s0 = heap s →
            resume_wait b x k s0 = Next cf' → waiter rt' = waiter rt).
  { intros b x k s0 Hh. unfold resume_wait.
    destruct (reclaim x s0) as [s1| |] eqn:Hrec; [|done|done].
    apply reclaim_ok in Hrec as (? & ? & ? & _ & _ & _ & ->).
    intros [= <-]. simpl in Ht'. rewrite Hh in Ht'.
    apply lookup_delete_Some in Ht' as [_ Ht']. congruence. }
  destruct κ as [b p|b target k|]; [|left; by eapply Hreclaim|done].
  destruct (fetch p (umem s)) as [m i] eqn:Hfetch.
  apply (Inv_set_umem m) in HI.
  destruct i as [|k|h k|nm f a k].
  - destruct b; [done|].
    destruct (co_exit_unfold _ _ t rt HI Hcur Ht)
      as (s2 & E & Hc2 & _ & _ & Hd2 & _).
    rewrite E in Hstep. left. by apply (Hyield _ _ _ Hstep Hc2 Hd2).
  - left. by apply (Hyield _ _ rt Hstep).
  - unfold co_wait in Hstep. simpl in Hstep.
    destruct (heap s !! h) as [rh|] eqn:Hh; [|done].
    case_decide as Hlive; [|left; by eapply (Hreclaim b h k (set_umem m s))].
    unfold store in Hstep. simpl in Hstep. rewrite Hh in Hstep. simpl in Hstep.
    rewrite Hcur in Hstep.
    destruct (decide (h = t)) as [->|Hne].
    + rewrite lookup_insert_eq in Hstep. right. rewrite Hcur.
      by apply (Hyield _ _ _ Hstep Hcur (lookup_insert_eq _ _ _)).
    + rewrite lookup_insert_ne in Hstep by done. rewrite Ht in Hstep. left.
      by apply (Hyield _ _ _ Hstep Hcur (lookup_insert_eq _ _ _)).
  - left. unfold co_queue_insert in Hstep. simpl in Hstep.
    assert (Hfresh : t ≠ next_addr s).
    { destruct HI as [_ _ (cur0 & r0 & _ & Hr0 & _ & HQ)]. simpl in *.
      assert (t < next_addr s); [|lia].
      apply (q_fresh _ _ HQ). rewrite (insert_is_Some_iff _ cur0 r0) by done. eauto. }
    destruct (co_queue s); injection Hstep as <-; simpl in Ht';
      rewrite lookup_insert_ne in Ht' by done; congruence.
Qed.

(** A record that a step brings into being is the one [co_start] has
    just made. *)
Lemma step_born cf cf' t rt' :
  Inv cf → step fetch cf = Next cf' →
  heap (st cf) !! t = None → heap (st cf') !! t = Some rt' →
  waiter rt' = None.
Proof.
  intros HI Hstep Ht Ht'. destruct cf as [s κ]. unfold step in Hstep. simpl in *.
  destruct (Inv_cur _ _ HI) as (cur & rc & Hcur & Hrc & Hrun).
  assert (Hyield : ∀ κ' s2,
            co_yield κ' s2 = Next cf' →
            (∀ x, is_Some (heap s2 !! x) ↔ is_Some (heap s !! x)) → False).
  { intros κ' s2 Hy Hdom.
    assert (Hs' : state_of (co_yield κ' s2) = Some (st cf')) by (by rewrite Hy).
    apply co_yield_rel in Hs' as (cur' & r2 & Hcur' & Hr2 & Hrel & _).
    apply (sched_rel_dom _ _ t) in Hrel. simpl in Hrel.
    rewrite (insert_is_Some_iff _ cur' r2) in Hrel by done.
    rewrite Hdom, Ht, Ht' in Hrel. destruct Hrel as [_ Hrel].
    destruct Hrel as [? ?]; [by eexists|done]. }
  assert (Hreclaim : ∀ b x k s0, heap s0 = heap s →
            resume_wait b x k s0 = Next cf' → False).
  { intros b x k s0 Hh. unfold resume_wait.
    destruct (reclaim x s0) as [s1| |] eqn:Hrec; [|done|done].
    apply reclaim_ok in Hrec as (? & ? & ? & _ & _ & _ & ->).
    intros [= <-]. simpl in Ht'. rewrite Hh in Ht'.
    apply lookup_delete_Some in Ht' as [_ Ht']. congruence. }
  destruct κ as [b p|b target k|]; [|by destruct (Hreclaim b target k s)|done].
  destruct (fetch p (umem s)) as [m i] eqn:Hfetch.
  apply (Inv_set_umem m) in HI.
  destruct i as [|k|h k|nm f a k].
  - destruct b; [done|].
    destruct (co_exit_unfold _ _ cur rc HI Hcur Hrc)
      as (s2 & E & _ & _ & _ & Hd2 & Hw2 & Hoth).
    rewrite E in Hstep. exfalso. apply (Hyield _ _ Hstep). intros x. simpl in *.
    destruct (decide (x = cur)) as [->|Hne]; [rewrite Hd2, Hrc; by split; eauto|].
    destruct (decide (waiter rc = Some x)) as [Hwc|Hnw].
    + destruct (Hw2 x Hwc) as (_ & rw & Hrw & _ & Hrw'). rewrite Hrw, Hrw'.
      by split; eauto.
    + by rewrite (Hoth x).
  - exfalso. by apply (Hyield _ _ Hstep).
  - exfalso. unfold co_wait in Hstep. simpl in Hstep.
    destruct (heap s !! h) as [rh|] eqn:Hh; [|done].
    destruct (decide (status rh ≠ CO_STATUS_DEAD)) as [Hlive|Hd];
      [|by apply (Hreclaim b h k (set_umem m s))].
    destruct (co_wait_live b h k (set_umem m s) cur rc rh) as (s2 & Hw & _ & Hdom);
      try done.
    unfold co_wait in Hw. simpl in Hw. rewrite Hh in Hw.
    rewrite decide_True in Hw by done. rewrite Hw in Hstep.
    by apply (Hyield _ _ Hstep).
  - unfold co_queue_insert in Hstep. simpl in Hstep.
    destruct (co_queue s); injection Hstep as <-; simpl in Ht';
      rewrite lookup_insert in Ht'; case_decide; try congruence;
      by injection Ht' as <-.
Qed.

Lemma lost_waiter_step cf cf' x r b t k :
  reachable fetch cf → step fetch cf = Next cf' →
  heap (st cf) !! x = Some r → status r = CO_STATUS_WAITING →
  context r = Some (KWait b t k) →
  (∀ rt, heap (st cf) !! t = Some rt → waiter rt ≠ Some x) →
  (∃ r', heap (st cf') !! x = Some r' ∧ status r' = CO_STATUS_WAITING ∧
         context r' = Some (KWait b t k)) ∧
  (∀ rt, heap (st cf') !! t = Some rt → waiter rt ≠ Some x).
Proof.
  intros Hreach Hstep Hx Hst Hctx Hlost.
  pose proof (reachable_inv fetch cf Hreach) as [HI _].
  assert (Hncur : current_co (st cf) ≠ Some x).
  { destruct cf as [s κ]. destruct (Inv_cur _ _ HI) as (c & rc & Hc & Hrc & Hrun).
    simpl in *. rewrite Hc. intros [= ->]. congruence. }
  destruct (step_frame cf cf' x r HI Hstep Hx Hncur)
    as [[_ Hd]|(r' & Hx' & _ & _ & _ & Hctx' & _)]; [congruence|].
  split.
  - exists r'. split; [done|]. split; [|congruence].
    destruct (decide (status r' = status r)) as [|Hchg]; [congruence|]. exfalso.
    destruct (step_status fetch cf cf' x r r' HI Hstep Hx Hncur Hx' Hchg)
      as [[? _]|(cur & rc & p & m & Hc & Hrc & Hw & _)]; [congruence|].
    destruct cf as [s κ]. simpl in *.
    destruct (Inv_cur _ _ HI) as (cur' & rc' & Hc' & Hrc' & Hrun).
    assert (cur' = cur) as -> by congruence.
    rewrite Hrc in Hrc'. injection Hrc' as <-.
    destruct (Inv_wait s κ cur rc x HI Hrc Hw) as (rw & b' & k' & Hrw & _ & Hk & _);
      [congruence|].
    rewrite Hx in Hrw. injection Hrw as <-. rewrite Hctx in Hk.
    injection Hk as _ -> _. by apply (Hlost rc).
  - intros rt' Ht'.
    destruct (heap (st cf) !! t) as [rt|] eqn:Ht.
    + destruct (step_waiter cf cf' t rt rt' HI Hstep Ht Ht') as [E|E]; rewrite E.
      * by apply Hlost.
      * done.
    + by rewrite (step_born cf cf' t rt' HI Hstep Ht Ht').
Qed.

(** X21. A lost wake-up.  A coroutine that is suspended in [co_wait]
    on a target whose [waiter] field does not point to it (a second
    [co_wait] on the target has overwritten the field), or whose
    target has been freed, is never the current coroutine again: in
    every later configuration of the run its status is WAITING. *)
(** X21. A lost wake-up.  A coroutine that is suspended in [co_wait]
    on a target whose [waiter] field does not point to it (a second
    [co_wait] on the target has overwritten the field), or whose
    target has been freed, is never the current coroutine again: in
    every later configuration of the run its status is WAITING. *)
Theorem overwritten_waiter_blocks_forever cf x r b t k n cf' :
  reachable fetch cf →
  heap (st cf) !! x = Some r → status r = CO_STATUS_WAITING →
  context r = Some (KWait b t k) →
  (∀ rt, heap (st cf) !! t = Some rt → waiter rt ≠ Some x) →
  run fetch n cf = Next cf' →
  current_co (st cf') ≠ Some x ∧
  ∃ r', heap (st cf') !! x = Some r' ∧ status r' = CO_STATUS_WAITING.
Proof.
  revert cf r. induction n as [|n IH]; intros cf r Hreach Hx Hst Hctx Hlost; simpl.
  - intros [= <-]. split; [|by exists r].
    pose proof (reachable_inv fetch cf Hreach) as [HI _].
    destruct cf as [s κ]. destruct (Inv_cur _ _ HI) as (c & rc & Hc & Hrc & Hrun).
    simpl in *. rewrite Hc. intros [= ->]. congruence.
  - destruct (step fetch cf) as [cf1| | | |] eqn:Hstep; try done.
    destruct (lost_waiter_step cf cf1 x r b t k Hreach Hstep Hx Hst Hctx Hlost)
      as [(r1 & Hx1 & Hst1 & Hctx1) Hlost1].
    apply (IH cf1 r1); try done. by eapply reachable_step.
Qed.

Lemma scan_loop_rotation n (h : gmap nat (co code)) (q : list nat) :
  match scan_loop n h q with
  | Found _ q' | NotFound q' => ∃ j, q' = rotN j q
  | ScanUndef => True
  end.
Proof.
  revert q. induction n as [|n IH]; intros q; cbn [scan_loop].
  - by exists 0.
  - destruct (rotate q) as [|c rest] eqn:Hrot; [done|].
    destruct (h !! c) as [r|]; [|done].
    destruct (eligible (status r)).
    + exists 1. by rewrite <- Hrot.
    + specialize (IH (c :: rest)).
      destruct (scan_loop n h (c :: rest)) as [c' q'|q'|]; [| |done].
      * destruct IH as [j ->]. exists (j + 1). rewrite <- Hrot.
        unfold rotN. by rewrite Nat.iter_add.
      * destruct IH as [j ->]. exists (j + 1). rewrite <- Hrot.
        unfold rotN. by rewrite Nat.iter_add.
Qed.

(** X9. What the scheduling part of [co_yield] leaves alone, from
    [setjmp] over the scan to the transfer of control (lines 220 to
    258; the death path behind the transfer is [co_exit]).  It
    allocates and frees nothing, does not touch the client's memory,
    only rotates the ready queue, and changes no field of any record
    except the saved context of the caller and the status of a NEW
    record that it starts. *)
Theorem yield_touches_no_other_record κ s s' cur :
  current_co s = Some cur → state_of (co_yield κ s) = Some s' →
  next_addr s' = next_addr s ∧ umem s' = umem s ∧
  (∃ j, co_queue s' = rotN j (co_queue s)) ∧
  ∀ x, match heap s !! x, heap s' !! x with
       | Some r, Some r' =>
           name r' = name r ∧ func r' = func r ∧ arg r' = arg r ∧
           waiter r' = waiter r ∧ (x ≠ cur → context r' = context r) ∧
           (status r' = status r ∨
            (status r = CO_STATUS_NEW ∧ status r' = CO_STATUS_RUNNING))
       | None, None => True
       | _, _ => False
       end.
Proof.
  intros Hcur Hs.
  pose proof Hs as Hrel.
  apply co_yield_rel in Hrel as (cur' & r & Hcur' & Hr & Hrel & Hn & Hm & _).
  rewrite Hcur in Hcur'. injection Hcur' as <-.
  split; [done|]. split; [done|]. split.
  - destruct (co_yield κ s) as [cf'|se|sr| |] eqn:Hy; try done.
    + apply co_yield_cases in Hy as (c0 & r0 & _ & _ & [(q & _ & E)|(c & q & cf1 & Hscan & Hsw & E)]);
        [done| |done].
      injection E as <-. injection Hs as <-.
      apply switch_to_Next in Hsw as (rc & _ & [(_ & _ & ->)|(_ & f & _ & _ & ->)]);
        simpl; unfold scan in Hscan; destruct (co_queue s) as [|a q0] eqn:Hq; try done;
        pose proof (scan_loop_rotation (length (a :: q0)) (heap (saved c0 r0 κ s)) (a :: q0))
          as Hrot; rewrite Hscan in Hrot; done.
    + apply co_yield_cases in Hy as (c0 & r0 & _ & _ & [(q & Hscan & E)|(c & q & cf1 & _ & _ & E)]);
        [|done|done].
      injection E as ->. injection Hs as <-. simpl.
      unfold scan in Hscan. destruct (co_queue s) as [|a q0] eqn:Hq; try done.
      pose proof (scan_loop_rotation (length (a :: q0)) (heap (saved c0 r0 κ s)) (a :: q0))
        as Hrot. by rewrite Hscan in Hrot.
    + exfalso. revert Hy. apply co_yield_not_returned.
  - intros x. specialize (Hrel x). simpl in Hrel.
    destruct (decide (x = cur)) as [->|Hne].
    + rewrite lookup_insert_eq in Hrel. rewrite Hr.
      destruct (heap s' !! cur) as [r'|]; [|done].
      destruct Hrel as (? & ? & ? & ? & ? & ?). repeat split; done.
    + rewrite lookup_insert_ne in Hrel by done.
      destruct (heap s !! x) as [rx|], (heap s' !! x) as [r'|]; try done.
      destruct Hrel as (? & ? & ? & ? & ? & ?). repeat split; done.
Qed.

(** X10. When every other record in the queue is WAITING or DEAD,
    [co_yield] called by a RUNNING coroutine selects the caller itself
    and returns to it at once, with the head of the queue on the
    caller's node, wherever the head was. *)
Theorem yield_returns_when_no_other_is_ready κ s cur r :
  current_co s = Some cur → heap s !! cur = Some r →
  status r = CO_STATUS_RUNNING → cur ∈ co_queue s →
  (∀ x, x ∈ co_queue s → x ≠ cur →
        ∃ rx, heap s !! x = Some rx ∧
              (status rx = CO_STATUS_WAITING ∨ status rx = CO_STATUS_DEAD)) →
  ∃ q, co_yield κ s =
         Next (Config (State (<[cur := set_context (Some κ) r]> (heap s))
                             (next_addr s) q (Some cur) (umem s)
                             (EvResume cur :: trace s)) κ) ∧
       head q = Some cur ∧ ∃ j, q = rotN j (co_queue s).
Proof.
  intros Hcur Hr Hrun Hin Hoth.
  rewrite (co_yield_unfold κ s cur r) by done.
  assert (Hne : co_queue s ≠ []) by (intros E; rewrite E in Hin; by apply elem_of_nil in Hin).
  assert (Hlive : ∀ x, x ∈ co_queue s → is_Some (heap (saved cur r κ s) !! x)).
  { intros x Hx. simpl. rewrite lookup_insert_is_Some.
    destruct (decide (cur = x)) as [|Hn]; [by left|right]. split; [done|].
    destruct (Hoth x Hx) as (rx & -> & _); [done|by eexists]. }
  destruct (scan _ (co_queue s)) as [c q|q|] eqn:Hscan.
  - pose proof Hscan as Hel. apply scan_elig in Hel as (rc & Hc & Hel).
    pose proof Hscan as Hp. apply scan_perm in Hp as [Hperm [rest ->]].
    assert (c = cur) as ->.
    { destruct (decide (c = cur)) as [|Hn]; [done|]. exfalso.
      simpl in Hc. rewrite lookup_insert_ne in Hc by done.
      assert (Hcq : c ∈ co_queue s) by (rewrite <- Hperm; by left).
      destruct (Hoth c Hcq Hn) as (rx & Hrx & Hst).
      rewrite Hrx in Hc. injection Hc as <-. unfold eligible in Hel.
      destruct Hst as [E|E]; rewrite E in Hel; done. }
    exists (cur :: rest). split; [|split; [done|]].
    + unfold switch_to. simpl. rewrite lookup_insert_eq. simpl.
      by rewrite decide_True.
    + unfold scan in Hscan. destruct (co_queue s) as [|a q0] eqn:Hq; [done|].
      pose proof (scan_loop_rotation (length (a :: q0)) (heap (saved cur r κ s)) (a :: q0))
        as Hrot. by rewrite Hscan in Hrot.
  - exfalso. rewrite scan_list_find in Hscan by done.
    destruct (list_find _ _) as [[i c]|] eqn:Hfind; [done|].
    apply list_find_None in Hfind. rewrite Forall_forall in Hfind.
    apply (Hfind cur).
    + apply elem_of_rotate. done.
    + unfold elig_at. simpl. rewrite lookup_insert_eq. simpl. by rewrite Hrun.
  - exfalso. rewrite scan_list_find in Hscan by done.
    by destruct (list_find _ _) as [[? ?]|].
Qed.

(** X22. When the head of the queue is the node just before the node
    of the caller, as [co_wait] can leave it, [co_yield] selects the
    caller itself and returns to it at once, whatever the status of
    the other records is; the head is then the caller's node. *)
(** X22. When the head of the queue is the node just before the node
    of the caller, as [co_wait] can leave it, [co_yield] selects the
    caller itself and returns to it at once, whatever the status of
    the other records is; the head is then the caller's node. *)
Theorem yield_returns_at_once_behind_head κ s hd cur rest r :
  co_queue s = hd :: cur :: rest → current_co s = Some cur →
  heap s !! cur = Some r → status r = CO_STATUS_RUNNING →
  co_yield κ s =
    Next (Config (State (<[cur := set_context (Some κ) r]> (heap s))
                        (next_addr s) (cur :: rest ++ [hd]) (Some cur) (umem s)
                        (EvResume cur :: trace s)) κ).
Proof.
  intros Hq Hcur Hr Hrun. rewrite (co_yield_unfold κ s cur r) by done.
  rewrite Hq. unfold scan. cbn [length scan_loop rotate app].
  simpl. rewrite lookup_insert_eq. simpl. rewrite Hrun. simpl.
  unfold switch_to. simpl. rewrite lookup_insert_eq. simpl.
  by rewrite decide_True.
Qed.

Lemma run_last n cf0 o :
  run fetch n cf0 = o → (∀ cf, o ≠ Next cf) →
  ∃ k cf, run fetch k cf0 = Next cf ∧ step fetch cf = o.
Proof.
  revert cf0. induction n as [|n IH]; intros cf0; simpl.
  - intros <- Hne. by destruct (Hne cf0).
  - destruct (step fetch cf0) as [cf1| | | |] eqn:Hstep.
    + intros Hrun Hne. destruct (IH cf1 Hrun Hne) as (k & cf & Hk & Hs).
      exists (S k), cf. simpl. by rewrite Hstep.
    + intros <- _. by exists 0, cf0.
    + intros <- _. by exists 0, cf0.
    + intros <- _. by exists 0, cf0.
    + intros <- _. by exists 0, cf0.
Qed.

Lemma step_exited cf s' :
  step fetch cf = Exited s' → ∃ κ s2, co_yield κ s2 = Exited s'.
Proof.
  destruct cf as [s κ]. unfold step. simpl.
  destruct κ as [b p|b target k|]; [| |done].
  - destruct (fetch p (umem s)) as [m i]. destruct i as [|k|h k|nm f a k].
    + destruct b; [done|]. unfold co_exit.
      destruct (current_co _); [|done]. destruct (heap _ !! _) as [r|]; [|done].
      destruct (waiter r); [|by eauto]. destruct (store _ _ _); try done. by eauto.
    + by eauto.
    + unfold co_wait. destruct (heap _ !! _) as [rt|]; [|done]. case_decide.
      * destruct (store _ _ _); try done. destruct (current_co _); [|done].
        destruct (store _ _ _); try done. by eauto.
      * unfold resume_wait. by destruct (reclaim _ _).
    + by destruct (co_start nm f a (set_umem m s)).
  - unfold resume_wait. by destruct (reclaim _ _).
Qed.

(** X11. [exit(0)] in [co_yield].  When a run ends there, every
    live record is WAITING or DEAD, and the primordial record is
    WAITING: the process exits inside [co_yield] only while main is
    blocked in [co_wait]. *)
Theorem exit_means_main_is_blocked (m : mem) (main : code) n s :
  run fetch n (init m main) = Exited s →
  (∀ c r, heap s !! c = Some r →
          status r = CO_STATUS_WAITING ∨ status r = CO_STATUS_DEAD) ∧
  ∃ r0, heap s !! 0 = Some r0 ∧ status r0 = CO_STATUS_WAITING.
Proof.
  intros Hrun.
  assert (HT : TInv_st s) by (apply (run_state_tinv fetch m main n); by rewrite Hrun).
  destruct (run_last n _ _ Hrun) as (k & cf & Hk & Hstep); [done|].
  pose proof (run_inv fetch k _ _ (init_inv m main) Hk) as HI.
  assert (Hok : ring_ok s) by (apply (step_ring cf); [done|by rewrite Hstep]).
  destruct Hok as [_ Hring].
  apply step_exited in Hstep as (κ & s2 & Hy).
  apply co_yield_cases in Hy as (cur & r & _ & _ & [(q & Hscan & E)|(? & ? & ? & _ & _ & E)]);
    [|done|done].
  injection E as ->. simpl in *.
  pose proof Hscan as Hperm. apply scan_notfound in Hperm.
  assert (Hall : ∀ c rc, <[cur := set_context (Some κ) r]> (heap s2) !! c = Some rc →
            status rc = CO_STATUS_WAITING ∨ status rc = CO_STATUS_DEAD).
  { intros c rc Hc.
    assert (Hcq : c ∈ co_queue s2) by (rewrite <- Hperm; apply Hring; by eexists).
    rewrite scan_list_find in Hscan.
    - destruct (list_find _ _) as [[i c']|] eqn:Hfind; [done|].
      apply list_find_None in Hfind. rewrite Forall_forall in Hfind.
      specialize (Hfind c). rewrite elem_of_rotate in Hfind. specialize (Hfind Hcq).
      unfold elig_at in Hfind. rewrite Hc in Hfind. unfold eligible in Hfind.
      destruct (status rc);
        [exfalso; by apply Hfind|exfalso; by apply Hfind|by left|by right].
    - intros E. rewrite E in Hcq. by apply elem_of_nil in Hcq.
    - intros x Hx. apply Hring. by rewrite Hperm. }
  split; [done|].
  destruct HT as [_ (r0 & Hr0 & _ & Hn & Hd) _ _]. simpl in *.
  exists r0. split; [done|]. by destruct (Hall 0 r0 Hr0).
Qed.

Lemma cleanup_loop_spec q s :
  co_queue s = q → NoDup q → (∀ x, x ∈ q → is_Some (heap s !! x)) →
  ∃ s', cleanup_loop (length q) s = Ok s' ∧ co_queue s' = [] ∧
        (∀ x, heap s' !! x = if decide (x ∈ q) then None else heap s !! x) ∧
        trace s' = (EvFree <$> reverse q) ++ trace s ∧
        next_addr s' = next_addr s ∧ umem s' = umem s ∧
        current_co s' = current_co s.
Proof.
  revert s. induction q as [|c q IH]; intros s Hq Hnd Hlive.
  - exists s. split; [done|]. split; [done|]. split; [|done].
    intros x. rewrite decide_False; [done|]. apply not_elem_of_nil.
  - apply NoDup_cons in Hnd as [Hc Hnd]. cbn [length cleanup_loop].
    unfold co_queue_remove. rewrite Hq. simpl.
    destruct (Hlive c) as [rc Hrc]; [by left|]. rewrite Hrc.
    destruct (IH (log (EvFree c) (set_heap (delete c (heap s)) (set_co_queue q s))))
      as (s' & Hloop & Hq' & Hheap & Htr & Hn & Hm & Hcur); [done|done| |].
    { intros x Hx. simpl. apply lookup_delete_is_Some. split.
      - intros ->. done.
      - apply Hlive. by right. }
    exists s'. split; [exact Hloop|]. split; [done|]. split; [|split; [|done]].
    + intros x. rewrite Hheap. cbn [heap log set_heap set_co_queue].
      destruct (decide (x ∈ c :: q)) as [Hxc|Hxc].
      * apply elem_of_cons in Hxc as [->|Hx].
        -- rewrite decide_False by done. apply lookup_delete_eq.
        -- by rewrite decide_True.
      * rewrite decide_False by (intros ?; apply Hxc; by right).
        apply lookup_delete_ne. intros ->. apply Hxc. by left.
    + rewrite Htr. simpl. rewrite reverse_cons, fmap_app, <- app_assoc. done.
Qed.

(** X12. [co_cleanup] at the end of a run, whether main returned or
    [co_yield] called [exit(0)]: the queue holds each live record once,
    the loop frees each of them once, in queue order, and ends with
    [co_queue == NULL] and no record left. *)
Theorem co_cleanup_frees_all_at_exit (m : mem) (main : code) n s :
  run fetch n (init m main) = Returned s ∨ run fetch n (init m main) = Exited s →
  ∃ s', co_cleanup s = Ok s' ∧ heap s' = ∅ ∧ co_queue s' = [] ∧
        trace s' = (EvFree <$> reverse (co_queue s)) ++ trace s ∧
        (∀ c, c ∈ co_queue s ↔ is_Some (heap s !! c)) ∧ NoDup (co_queue s).
Proof.
  intros Hend.
  assert (Hok : ring_ok s).
  { assert (∃ o, run fetch n (init m main) = o ∧ state_of o = Some s ∧
                 ∀ cf, o ≠ Next cf) as (o & Hrun & Hso & Hne).
    { destruct Hend as [E|E]; eexists; (split; [exact E|]); by split. }
    destruct (run_last _ _ _ Hrun Hne) as (k & cf & Hk & Hstep).
    apply (step_ring cf); [|by rewrite Hstep].
    apply (run_inv fetch k _ _ (init_inv m main) Hk). }
  destruct Hok as [Hnd Hring].
  destruct (cleanup_loop_spec (co_queue s) s) as (s' & Hloop & Hq' & Hheap & Htr & _);
    [done|done|by intros x; apply Hring|].
  exists s'. split; [exact Hloop|]. split; [|done].
  apply map_eq. intros x. rewrite Hheap, lookup_empty.
  case_decide as Hx; [done|]. destruct (heap s !! x) eqn:E; [|done].
  exfalso. apply Hx, Hring. by eexists.
Qed.

(** X13. [co_start] fails an [assert] when either of its two [malloc]
    calls fails.  When both succeed, from a reached configuration, it
    is the [co_start] that [step] takes: it returns a handle that is
    not live and not in the queue, adds one NEW record with the given
    name, function and argument and no waiter, appends it to the
    queue, and leaves the other records, the current coroutine and the
    client's memory as they are. *)
Theorem spawn_adds_one_new_record cf nm f a :
  reachable fetch cf →
  (∀ node_ok, co_start_checked false node_ok nm f a (st cf) = AssertFail) ∧
  co_start_checked true false nm f a (st cf) = AssertFail ∧
  ∃ h s', co_start_checked true true nm f a (st cf) = Ok (h, s') ∧
          co_start nm f a (st cf) = (h, s') ∧
          heap (st cf) !! h = None ∧ (h ∉ co_queue (st cf)) ∧
          heap s' = <[h := Co nm f a CO_STATUS_NEW None None]> (heap (st cf)) ∧
          co_queue s' = co_queue (st cf) ++ [h] ∧
          current_co s' = current_co (st cf) ∧ umem s' = umem (st cf).
Proof.
  intros Hreach. apply reachable_inv in Hreach as [HI _].
  split; [done|]. split; [done|].
  destruct cf as [s κ]. simpl in *.
  exists (next_addr s). eexists. split; [done|]. rewrite co_start_eq.
  split.
  { unfold co_queue_insert. simpl. by destruct (co_queue s). }
  assert (Hfresh : heap s !! next_addr s = None).
  { destruct HI as [_ _ (cur & r & _ & Hr & _ & HQ)]. simpl in *.
    destruct (heap s !! next_addr s) as [r0|] eqn:E; [|done].
    assert (next_addr s < next_addr s); [|lia].
    apply (q_fresh _ _ HQ). rewrite (insert_is_Some_iff _ cur r) by done.
    rewrite E. by eexists. }
  split; [done|]. split.
  { intros Hin. destruct HI as [_ Hring _]. simpl in Hring.
    apply Hring in Hin as [? ?]. congruence. }
  unfold co_queue_insert. simpl. by destruct (co_queue s).
Qed.

(** X14. Start and wait, from the initial state, for any client
    code: when main starts a coroutine and waits for it, and the entry
    function returns without calling the runtime, then after four
    steps main is running again behind its [co_wait], the entry
    function has been called once with its argument, the record is
    freed, and the queue holds only the primordial record. *)
Theorem spawn_then_wait_round_trip (m m1 m2 m3 : mem) (main : code)
    nm (f : Z → code) a k k2 :
  fetch main m = (m1, IStart nm (Some f) a k) →
  fetch (k 1) m1 = (m2, IWait 1 k2) →
  fetch (f a) m2 = (m3, IRet) →
  ∃ s, run fetch 4 (init m main) = Next (Config s (KRun InMain k2)) ∧
       heap s = {[0 := Co "main" None 0%Z CO_STATUS_RUNNING None
                          (Some (KWait InMain 1 k2))]} ∧
       co_queue s = [0] ∧ current_co s = Some 0 ∧ umem s = m3 ∧
       calls 1 (trace s) = [(f, a)].
Proof.
  intros H1 H2 H3. unfold init. rewrite boot_eq.
  cbn [run]. unfold step at 1. cbn [pc st umem]. rewrite H1.
  rewrite co_start_eq. simpl.
  unfold step at 1. simpl. rewrite H2.
  unfold co_wait, store. simpl. heap_simpl. simpl. heap_simpl.
  unfold co_yield, store. simpl. heap_simpl.
  unfold scan. simpl. heap_simpl. simpl.
  unfold switch_to. simpl. heap_simpl. simpl.
  unfold step at 1. simpl. rewrite H3.
  unfold co_exit. simpl. heap_simpl. simpl. unfold store. simpl. heap_simpl.
  unfold co_yield, store. simpl. heap_simpl. unfold scan. simpl. heap_simpl. simpl. heap_simpl. simpl.
  unfold switch_to. simpl. heap_simpl. simpl.
  unfold step at 1. simpl. unfold resume_wait, reclaim. simpl. heap_simpl. simpl.
  eexists. split; [done|]. simpl. split; [|done].
  apply map_eq. intros x. destruct (decide (x = 1)) as [->|H1x].
  { rewrite lookup_delete_eq. by rewrite lookup_singleton_ne. }
  rewrite lookup_delete_ne by done. rewrite lookup_insert_ne by done.
  destruct (decide (x = 0)) as [->|H0x].
  { rewrite lookup_insert_eq. by rewrite lookup_singleton_eq. }
  repeat (rewrite lookup_insert_ne by done).
  by rewrite !lookup_singleton_ne.
Qed.

End Runtime.

(** ** The ring of nodes *)

Section RingFacts.
Import Nodes.

(** X15. [co_queue_insert] on the nodes: on a well-formed ring and
    with a fresh node it follows no pointer to a missing node, leaves
    a well-formed ring with the new node last in the order read from
    the head, and moves the head only when the ring was empty. *)
Theorem insert_links_node_last q l node new_co :
  repr q l → node ∉ l.*1 →
  ∃ q', insert node new_co q = Some q' ∧ repr q' (l ++ [(node, new_co)]) ∧
        head q' = Some (default node (head q)).
Proof.
  intros Hrepr Hfresh.
  destruct (insert_repr q l node new_co Hrepr Hfresh) as (q' & Hins & Hr').
  exists q'. split; [done|]. split; [done|].
  unfold insert in Hins. destruct (head q) as [hd|]; simpl.
  - destruct (nodes q !! hd); simpl in Hins; [|done].
    repeat (match type of Hins with (mbind _ ?x = _) => destruct x; simpl in Hins; [|done] end).
    by injection Hins as <-.
  - by injection Hins as <-.
Qed.

(** X16. [co_queue_remove] on the nodes: on the empty ring it
    returns NULL and changes nothing; otherwise it returns the head
    node and leaves a well-formed ring of the remaining nodes in their
    order (the empty ring when the head was the only node). *)
Theorem remove_unlinks_head q l :
  repr q l →
  match l with
  | [] => remove q = Some (None, q)
  | (a, c) :: t => ∃ q', remove q = Some (Some a, q') ∧ repr q' t
  end.
Proof.
  intros Hrepr. destruct l as [|[a c] t].
  - destruct Hrepr as (Hh & _). unfold remove. by rewrite Hh.
  - by apply (remove_repr q a c t).
Qed.

Lemma lookup_fst_inv (l : list (nat * nat)) j a :
  l.*1 !! j = Some a → ∃ c, l !! j = Some (a, c).
Proof.
  rewrite list_lookup_fmap. destruct (l !! j) as [[a' c]|]; [|done].
  intros [= <-]. by exists c.
Qed.

(** In a well-formed ring [prev] and [next] are inverse to each other. *)
Lemma repr_links_inverse q l i a c :
  repr q l → l !! i = Some (a, c) →
  ∃ nd pn nn, nodes q !! a = Some nd ∧ coroutine nd = c ∧
              nodes q !! prev nd = Some pn ∧ next pn = a ∧
              nodes q !! next nd = Some nn ∧ prev nn = a.
Proof.
  intros Hrepr Hi.
  destruct (repr_lookup q l i a c Hrepr Hi) as (nd & Hnd & Hco & Hnx & Hpv).
  assert (Hlen : length l.*1 = length l) by apply length_fmap.
  assert (Hil : i < length l) by (by eapply lookup_lt_Some).
  assert (HLi : l.*1 !! i = Some a) by (by eapply fst_lookup).
  assert (Hpn : ∃ pn, nodes q !! prev nd = Some pn ∧ next pn = a).
  { destruct i as [|j]; simpl in Hpv.
    - symmetry in Hpv. apply last_lookup_index in Hpv as [Hp _].
      apply lookup_fst_inv in Hp as [c' Hp].
      destruct (repr_lookup q l _ _ c' Hrepr Hp) as (pn & Hpn & _ & Hpnx & _).
      exists pn. split; [done|]. unfold ring_next in Hpnx.
      rewrite decide_False in Hpnx by lia. rewrite HLi in Hpnx. congruence.
    - symmetry in Hpv. apply lookup_fst_inv in Hpv as [c' Hp].
      destruct (repr_lookup q l _ _ c' Hrepr Hp) as (pn & Hpn & _ & Hpnx & _).
      exists pn. split; [done|]. unfold ring_next in Hpnx.
      rewrite decide_True in Hpnx by lia. rewrite HLi in Hpnx. congruence. }
  assert (Hnn : ∃ nn, nodes q !! next nd = Some nn ∧ prev nn = a).
  { unfold ring_next in Hnx. case_decide as Hlt.
    - symmetry in Hnx. apply lookup_fst_inv in Hnx as [c' Hn].
      destruct (repr_lookup q l _ _ c' Hrepr Hn) as (nn & Hnn & _ & _ & Hnpv).
      exists nn. split; [done|]. simpl in Hnpv. rewrite HLi in Hnpv. congruence.
    - symmetry in Hnx. apply lookup_fst_inv in Hnx as [c' Hn].
      destruct (repr_lookup q l _ _ c' Hrepr Hn) as (nn & Hnn & _ & _ & Hnpv).
      exists nn. split; [done|]. simpl in Hnpv.
      rewrite last_lookup in Hnpv. rewrite Hlen in *.
      replace (pred (length l)) with i in Hnpv by lia.
      rewrite HLi in Hnpv. congruence. }
  destruct Hpn as (pn & ? & ?), Hnn as (nn & ? & ?). by exists nd, pn, nn.
Qed.

Lemma built_repr q l : built q l → repr q l.
Proof.
  induction 1 as [N|q l node new_co q' _ IH Hfresh Hins
                  |q a c t q' _ IH Hrem|q a c t q' _ IH Hadv].
  - split; [done|]. split; [apply NoDup_nil_2|]. by intros [|?] ? ?.
  - destruct (insert_repr q l node new_co IH Hfresh) as (q1 & Hq1 & Hr).
    rewrite Hins in Hq1. by injection Hq1 as <-.
  - destruct (remove_repr q a c t IH) as (q1 & Hq1 & Hr).
    rewrite Hrem in Hq1. by injection Hq1 as <-.
  - destruct (advance_repr q a c t IH) as (q1 & Hq1 & _ & Hr).
    rewrite Hadv in Hq1. by injection Hq1 as <-.
Qed.

(** X17. In every ring that [co_queue_insert], [co_queue_remove] and
    [co_queue = co_queue->next] make from the empty ring, [prev] and
    [next] are inverse to each other at every node:
    [n->prev->next == n] and [n->next->prev == n]. *)
Theorem ring_links_are_inverse q l i a c :
  built q l → l !! i = Some (a, c) →
  ∃ nd pn nn, nodes q !! a = Some nd ∧ coroutine nd = c ∧
              nodes q !! prev nd = Some pn ∧ next pn = a ∧
              nodes q !! next nd = Some nn ∧ prev nn = a.
Proof.
  intros Hb Hi. apply built_repr in Hb.
  by apply (repr_links_inverse q l i a c).
Qed.

Lemma insert_all_repr l0 l q :
  repr q l0 → NoDup (l0 ++ l).*1 →
  ∃ q', insert_all l q = Some q' ∧ repr q' (l0 ++ l).
Proof.
  revert l0 q. induction l as [|[a c] l IH]; intros l0 q Hrepr Hnd; simpl.
  - exists q. by rewrite app_nil_r.
  - assert (Hfresh : a ∉ l0.*1).
    { rewrite fmap_app in Hnd. apply NoDup_app in Hnd as (_ & Hdis & _).
      intros Hin. apply (Hdis a Hin). simpl. by left. }
    destruct (insert_repr q l0 a c Hrepr Hfresh) as (q1 & -> & Hr1). simpl.
    destruct (IH (l0 ++ [(a, c)]) q1 Hr1) as (q' & Hq' & Hr').
    + by rewrite <- app_assoc.
    + exists q'. split; [done|]. by rewrite <- app_assoc in Hr'.
Qed.

Lemma remove_all_repr l q :
  repr q l →
  ∃ q', remove_all (length l) q = Some (l.*1, q') ∧ head q' = None.
Proof.
  revert q. induction l as [|[a c] l IH]; intros q Hrepr; simpl.
  - destruct Hrepr as (Hh & _). simpl in Hh. rewrite Hh. by exists q.
  - pose proof Hrepr as (Hh & _). simpl in Hh. rewrite Hh.
    destruct (remove_repr q a c l Hrepr) as (q1 & -> & Hr1). simpl.
    destruct (IH q1 Hr1) as (q' & -> & Hq'). simpl. by exists q'.
Qed.

(** X18. The ring is a first-in first-out queue: inserting nodes into
    the empty ring one after the other and then removing until the
    ring is empty returns the nodes in the order of insertion. *)
Theorem ring_is_first_in_first_out l N :
  NoDup l.*1 →
  ∃ q q', insert_all l (Ring N None) = Some q ∧ repr q l ∧
          remove_all (length l) q = Some (l.*1, q') ∧ head q' = None.
Proof.
  intros Hnd.
  destruct (insert_all_repr [] l (Ring N None)) as (q & Hq & Hr); [|done|].
  { split; [done|]. split; [apply NoDup_nil_2|]. by intros [|?] ? ?. }
  destruct (remove_all_repr l q Hr) as (q' & Hrem & Hq').
  by exists q, q'.
Qed.

Lemma repr_nil N : repr (Ring N None) [].
Proof. split; [done|]. split; [apply NoDup_nil_2|]. by intros [|?] ? ?. Qed.

Lemma repr_ring2 : repr ring2 [(10, 0); (11, 1)].
Proof.
  split; [done|]. split.
  - apply NoDup_cons. split; [|apply NoDup_singleton].
    rewrite list_elem_of_singleton. done.
  - intros [|[|i]] a c Hi; [| |done]; injection Hi as <- <-;
      eexists; (split; [vm_compute; reflexivity|]); done.
Qed.

Lemma built_ring2 : built ring2 [(10, 0); (11, 1)].
Proof.
  apply (built_insert (Ring {[10 := Node 0 10 10]} (Some 10)) [(10, 0)] 11 1).
  - apply (built_insert (Ring ∅ None) [] 10 0).
    + apply built_empty.
    + apply not_elem_of_nil.
    + vm_compute. reflexivity.
  - simpl. rewrite list_elem_of_singleton. done.
  - vm_compute. reflexivity.
Qed.

End RingFacts.

(** ** Instances *)

Lemma ready_queue_holds_live_records_witness :
  NoDup (co_queue (st (after 5 (abc_wait "A" "B" "C" 1 2 3)))) ∧
  0 ∈ co_queue (st (after 5 (abc_wait "A" "B" "C" 1 2 3))).
Proof.
  destruct (ready_queue_holds_live_records prog_fetch
              (after 5 (abc_wait "A" "B" "C" 1 2 3))) as (Hnd & _ & Hmain & _).
  - exists 0, (abc_wait "A" "B" "C" 1 2 3), 5. vm_compute. reflexivity.
  - split; assumption.
Defined.

Lemma only_dead_records_are_freed_witness :
  (status <$> heap (st (after 7 skip_main)) !! 1) = Some CO_STATUS_DEAD ∧
  current_co (st (after 7 skip_main)) ≠ Some 1.
Proof.
  destruct (only_dead_records_are_freed prog_fetch (after 7 skip_main)
              (after 8 skip_main) 1
              (Co "A" (Some ret_now) 1 CO_STATUS_DEAD None (Some KDead)))
    as [Hd Hc].
  - exists 0, skip_main, 7. vm_compute. reflexivity.
  - vm_compute. reflexivity.
  - vm_compute. reflexivity.
  - vm_compute. reflexivity.
  - split; [vm_compute; reflexivity|exact Hc].
Defined.

Lemma suspended_record_is_not_disturbed_witness :
  ∃ r', heap (st (after 5 (abc_wait "A" "B" "C" 1 2 3))) !! 0 = Some r' ∧
        context r' = Some (KWait InMain 1 (Wait 2 (Wait 3 Ret))).
Proof.
  destruct (suspended_record_is_not_disturbed prog_fetch
              (after 4 (abc_wait "A" "B" "C" 1 2 3))
              (after 5 (abc_wait "A" "B" "C" 1 2 3)) 0
              (Co "main" None 0 CO_STATUS_WAITING None
                  (Some (KWait InMain 1 (Wait 2 (Wait 3 Ret))))))
    as (r' & Hr' & _ & _ & _ & Hk).
  - exists 0, (abc_wait "A" "B" "C" 1 2 3), 4. vm_compute. reflexivity.
  - vm_compute. reflexivity.
  - vm_compute. reflexivity.
  - vm_compute. discriminate.
  - discriminate.
  - exists r'. split; assumption.
Defined.

Lemma registered_waiter_is_blocked_witness :
  ∃ rw b k, heap (st (after 4 (abc_wait "A" "B" "C" 1 2 3))) !! 0 = Some rw ∧
            status rw = CO_STATUS_WAITING ∧ context rw = Some (KWait b 1 k).
Proof.
  destruct (registered_waiter_is_blocked prog_fetch
              (after 4 (abc_wait "A" "B" "C" 1 2 3)) 1
              (Co "A" (Some yield_once) 1 CO_STATUS_RUNNING (Some 0) None) 0)
    as (rw & b & k & Hrw & Hst & Hk & _).
  - exists 0, (abc_wait "A" "B" "C" 1 2 3), 4. vm_compute. reflexivity.
  - vm_compute. reflexivity.
  - reflexivity.
  - discriminate.
  - exists rw, b, k. repeat split; assumption.
Defined.

Lemma status_follows_life_cycle_witness :
  ∃ r r', heap (st (after 3 (abc_wait "A" "B" "C" 1 2 3))) !! 0 = Some r ∧
          heap (st (after 4 (abc_wait "A" "B" "C" 1 2 3))) !! 0 = Some r' ∧
          status r = CO_STATUS_RUNNING ∧ status r' = CO_STATUS_WAITING ∧
          (status r' = CO_STATUS_NEW → status r = CO_STATUS_NEW) ∧
          (status r = CO_STATUS_DEAD → status r' = CO_STATUS_DEAD).
Proof.
  eexists _, _. split; [vm_compute; reflexivity|].
  split; [vm_compute; reflexivity|]. split; [reflexivity|]. split; [reflexivity|].
  destruct (status_follows_life_cycle prog_fetch
              (after 3 (abc_wait "A" "B" "C" 1 2 3))
              (after 4 (abc_wait "A" "B" "C" 1 2 3)) 0
              (Co "main" None 0 CO_STATUS_RUNNING None None)
              (Co "main" None 0 CO_STATUS_WAITING None
                  (Some (KWait InMain 1 (Wait 2 (Wait 3 Ret))))))
    as (Hn & Hd & _).
  - exists 0, (abc_wait "A" "B" "C" 1 2 3), 3. vm_compute. reflexivity.
  - vm_compute. reflexivity.
  - vm_compute. reflexivity.
  - vm_compute. reflexivity.
  - split; assumption.
Defined.

Lemma self_wait_blocks_forever_witness :
  current_co (st (after 4 self_waiter)) ≠ Some 1 ∧
  ∃ r', heap (st (after 4 self_waiter)) !! 1 = Some r' ∧
        status r' = CO_STATUS_WAITING.
Proof.
  apply (self_wait_blocks_forever prog_fetch (after 2 self_waiter)
           InEntry (Wait 1 Ret) 0 Ret 1 1 (after 4 self_waiter)).
  - exists 0, self_waiter, 2. vm_compute. reflexivity.
  - vm_compute. reflexivity.
  - vm_compute. reflexivity.
  - vm_compute. reflexivity.
  - vm_compute. reflexivity.
Defined.

Lemma yield_touches_no_other_record_witness :
  next_addr (state_after 3 yield_twice) = next_addr (st (after 2 yield_twice)) ∧
  umem (state_after 3 yield_twice) = umem (st (after 2 yield_twice)) ∧
  ∃ j, co_queue (state_after 3 yield_twice)
       = rotN j (co_queue (st (after 2 yield_twice))).
Proof.
  destruct (yield_touches_no_other_record (mem := nat) KDead
              (set_heap (<[1 := Co "A" (Some ret_now) 1 CO_STATUS_DEAD None None]>
                           (heap (st (after 2 yield_twice))))
                        (log (EvDead 1) (st (after 2 yield_twice))))
              (state_after 3 yield_twice) 1) as (Hn & Hm & Hq & _).
  - vm_compute. reflexivity.
  - vm_compute. reflexivity.
  - repeat split; assumption.
Defined.

Lemma yield_returns_when_no_other_is_ready_witness :
  ∃ q, co_yield (KRun InMain Ret) (st (after 3 yield_twice)) =
         Next (Config (State (<[0 := Co "main" None 0 CO_STATUS_RUNNING None
                                        (Some (KRun InMain Ret))]>
                                 (heap (st (after 3 yield_twice))))
                             2 q (Some 0) 0
                             (EvResume 0 :: trace (st (after 3 yield_twice))))
                      (KRun InMain Ret)) ∧
       head q = Some 0.
Proof.
  destruct (yield_returns_when_no_other_is_ready (mem := nat) (KRun InMain Ret)
              (st (after 3 yield_twice)) 0
              (Co "main" None 0 CO_STATUS_RUNNING None
                  (Some (KRun InMain (Yield Ret))))) as (q & Hy & Hh & _).
  - vm_compute. reflexivity.
  - vm_compute. reflexivity.
  - reflexivity.
  - vm_compute. apply elem_of_cons. by left.
  - intros x Hx Hne.
    assert (x = 1) as ->.
    { vm_compute in Hx. apply elem_of_cons in Hx as [->|Hx]; [done|].
      apply elem_of_cons in Hx as [->|Hx]; [done|]. by apply elem_of_nil in Hx. }
    eexists. split; [vm_compute; reflexivity|]. by right.
  - exists q. split; [exact Hy|exact Hh].
Defined.

Lemma exit_means_main_is_blocked_witness :
  ∃ r0, heap (state_after 8 two_waiters) !! 0 = Some r0 ∧
        status r0 = CO_STATUS_WAITING.
Proof.
  apply (exit_means_main_is_blocked prog_fetch 0 two_waiters 8
           (state_after 8 two_waiters)).
  vm_compute. reflexivity.
Defined.

Lemma co_cleanup_frees_all_at_exit_witness :
  ∃ s', co_cleanup (state_after 2 spawn_only) = Ok s' ∧ heap s' = ∅ ∧
        co_queue s' = [].
Proof.
  destruct (co_cleanup_frees_all_at_exit prog_fetch 0 spawn_only 2
              (state_after 2 spawn_only)) as (s' & Hc & Hh & Hq & _).
  - left. vm_compute. reflexivity.
  - exists s'. repeat split; assumption.
Defined.

Lemma spawn_adds_one_new_record_witness :
  co_start_checked (mem := nat) true false "A" (Some ret_now) 5 (st (init 0 spawn_wait))
    = AssertFail ∧
  ∃ h s', co_start_checked true true "A" (Some ret_now) 5 (st (init 0 spawn_wait))
            = Ok (h, s') ∧
          heap (st (init 0 spawn_wait)) !! h = None ∧
          co_queue s' = co_queue (st (init 0 spawn_wait)) ++ [h].
Proof.
  destruct (spawn_adds_one_new_record prog_fetch (init 0 spawn_wait)
              "A" (Some ret_now) 5)
    as (_ & Hfail & h & s' & Hs & _ & Hn & _ & _ & Hq & _).
  - exists 0, spawn_wait, 0. reflexivity.
  - split; [exact Hfail|]. exists h, s'. repeat split; assumption.
Defined.

Lemma spawn_then_wait_round_trip_witness :
  ∃ s, run prog_fetch 4 (init 0 spawn_wait) = Next (Config s (KRun InMain Ret)) ∧
       heap s = {[0 := Co "main" None 0%Z CO_STATUS_RUNNING None
                          (Some (KWait InMain 1 Ret))]} ∧
       co_queue s = [0] ∧ current_co s = Some 0 ∧ umem s = 0 ∧
       calls 1 (trace s) = [(ret_now, 5%Z)].
Proof.
  apply (spawn_then_wait_round_trip prog_fetch 0 0 0 0 spawn_wait "A" ret_now 5
           (λ a, Wait a Ret) Ret); reflexivity.
Defined.

Lemma overwritten_waiter_blocks_forever_witness :
  current_co (st (after 7 two_waiters)) ≠ Some 0 ∧
  ∃ r', heap (st (after 7 two_waiters)) !! 0 = Some r' ∧
        status r' = CO_STATUS_WAITING.
Proof.
  apply (overwritten_waiter_blocks_forever prog_fetch (after 5 two_waiters) 0
           (Co "main" None 0 CO_STATUS_WAITING None (Some (KWait InMain 1 Ret)))
           InMain 1 Ret 2 (after 7 two_waiters)).
  - exists 0, two_waiters, 5. vm_compute. reflexivity.
  - vm_compute. reflexivity.
  - reflexivity.
  - reflexivity.
  - intros rt Hrt. vm_compute in Hrt. injection Hrt as <-. discriminate.
  - vm_compute. reflexivity.
Defined.

Lemma yield_returns_at_once_behind_head_witness :
  (status <$> heap (st (after 8 behind_head)) !! 1) = Some CO_STATUS_RUNNING ∧
  co_yield (KRun InMain Ret) (st (after 8 behind_head)) =
    Next (Config (State (<[0 := set_context (Some (KRun InMain Ret))
                                  (Co "main" None 0 CO_STATUS_RUNNING None
                                      (Some (KRun InMain (Wait 2 (Yield Ret)))))]>
                           (heap (st (after 8 behind_head))))
                        (next_addr (st (after 8 behind_head))) (0 :: [1] ++ [3])
                        (Some 0) (umem (st (after 8 behind_head)))
                        (EvResume 0 :: trace (st (after 8 behind_head))))
                 (KRun InMain Ret)).
Proof.
  split; [vm_compute; reflexivity|].
  apply (yield_returns_at_once_behind_head (KRun InMain Ret)
           (st (after 8 behind_head)) 3 0 [1]).
  - vm_compute. reflexivity.
  - vm_compute. reflexivity.
  - vm_compute. reflexivity.
  - reflexivity.
Defined.

Section RingInstances.
Import Nodes.

Lemma insert_links_node_last_witness :
  ∃ q', insert 12 2 ring2 = Some q' ∧
        repr q' [(10, 0); (11, 1); (12, 2)] ∧ head q' = Some 10.
Proof.
  apply (insert_links_node_last ring2 [(10, 0); (11, 1)] 12 2).
  - exact repr_ring2.
  - vm_compute. intros H. repeat (apply elem_of_cons in H as [H|H]; [discriminate|]).
    by apply elem_of_nil in H.
Defined.

Lemma remove_unlinks_head_witness :
  ∃ q', remove ring2 = Some (Some 10, q') ∧ repr q' [(11, 1)].
Proof. exact (remove_unlinks_head ring2 [(10, 0); (11, 1)] repr_ring2). Defined.

Lemma ring_links_are_inverse_witness :
  ∃ nd pn nn, nodes ring2 !! 11 = Some nd ∧ coroutine nd = 1 ∧
              nodes ring2 !! prev nd = Some pn ∧ next pn = 11 ∧
              nodes ring2 !! next nd = Some nn ∧ prev nn = 11.
Proof.
  apply (ring_links_are_inverse ring2 [(10, 0); (11, 1)] 1 11 1).
  - exact built_ring2.
  - reflexivity.
Defined.

Lemma ring_is_first_in_first_out_witness :
  ∃ q q', insert_all [(10, 0); (11, 1); (12, 2)] (Ring ∅ None) = Some q ∧
          repr q [(10, 0); (11, 1); (12, 2)] ∧
          remove_all 3 q = Some ([10; 11; 12], q') ∧ head q' = None.
Proof.
  apply (ring_is_first_in_first_out [(10, 0); (11, 1); (12, 2)] ∅).
  simpl. apply NoDup_cons. split.
  - intros H. repeat (apply elem_of_cons in H as [H|H]; [discriminate|]).
    by apply elem_of_nil in H.
  - apply NoDup_cons. split; [|apply NoDup_singleton].
    rewrite list_elem_of_singleton. done.
Defined.

Lemma scan_ptr_refines_witness :
  ∃ hd q' t, scan_ptr 2 heap2 10 ring2 = Some (Some hd, q') ∧
             repr q' ((hd, 1) :: t) ∧ ((hd, 1) :: t).*2 = [1; 0].
Proof.
  assert (Hs : scan heap2 [(10, 0); (11, 1)].*2 = Found 1 [1; 0])
    by (vm_compute; reflexivity).
  pose proof (scan_ptr_refines heap2 ring2 [(10, 0); (11, 1)] 10 repr_ring2 eq_refl)
    as H.
  rewrite Hs in H. apply H.
  intros c Hc. simpl in Hc.
  apply elem_of_cons in Hc as [->|Hc]; [by eexists|].
  apply list_elem_of_singleton in Hc as ->. by eexists.
Defined.

Lemma find_node_refines_witness :
  ∃ q' l', find_node 2 1 ring2 = Some q' ∧ repr q' l' ∧ l'.*2 = [1; 0].
Proof. exact (find_node_refines 1 ring2 [(10, 0); (11, 1)] repr_ring2). Defined.

End RingInstances.
